(** * arbeitsamt-scraper: the resilient paginated crawl, embedded in Rocq

    The TypeScript sources are embedded shallowly.  An [async] function
    becomes a state transformer that ends in a JavaScript completion
    (a value, or a thrown value); the rendering engine (Playwright), the
    clock and the site are an abstract interface whose answers the
    theorems quantify over. *)

From Stdlib Require Import ZArith Lia List String Ascii Bool.
From stdpp Require Import base option list gmap strings pretty.

Local Open Scope string_scope.
Local Open Scope list_scope.

(** ** JavaScript completions *)

Module Js.

(** What a [throw] (or a rejected promise) carries. *)
Inductive Thrown : Type :=
  | Undefined                      (* a [let error: any] never assigned *)
  | Error (message : string)       (* [new Error(message)] *)
  | Reason (text : string).        (* a thrown string, e.g. [reject(`...`)] *)

(** How a call ends: [return v] or [throw e]. *)
Inductive Completion (A : Type) : Type :=
  | Return (v : A)
  | Throw (e : Thrown).
Arguments Return {A} v.
Arguments Throw {A} e.

Definition returns {A} (c : Completion A) : bool :=
  match c with Return _ => true | Throw _ => false end.

Definition raises {A} (c : Completion A) : bool := negb (returns c).

(** [error instanceof Error ? error.message : String(error)] *)
Definition messageOf (e : Thrown) : string :=
  match e with
  | Undefined => "undefined"
  | Error m => m
  | Reason t => t
  end.

(** An [async] function over a world [W]: awaiting it yields a completion
    and the world it leaves behind. *)
Definition Async (W A : Type) : Type := W -> Completion A * W.

Definition ret {W A} (v : A) : Async W A := fun w => (Return v, w).

Definition throw {W A} (e : Thrown) : Async W A := fun w => (Throw e, w).

Definition bind {W A B} (m : Async W A) (k : A -> Async W B) : Async W B :=
  fun w =>
    match m w with
    | (Return v, w') => k v w'
    | (Throw e, w') => (Throw e, w')
    end.

(** [try { m } catch (e) { h e }]: the world keeps what [m] did to it. *)
Definition try_catch {W A} (m : Async W A) (h : Thrown -> Async W A) : Async W A :=
  fun w =>
    match m w with
    | (Return v, w') => (Return v, w')
    | (Throw e, w') => h e w'
    end.

Definition effect {W} (f : W -> W) : Async W unit := fun w => (Return tt, f w).

(** A promise that rejects with no handler attached ends the process
    (the default of the runtime; the repository installs no
    [unhandledRejection] handler).  A call during which this happens
    neither returns nor throws: it hands on [Exits e], and so does every
    caller of it, whatever [try] it is in. *)
Inductive Outcome (A : Type) : Type :=
  | Yields (v : A)
  | Exits (e : Thrown).
Arguments Yields {A} v.
Arguments Exits {A} e.

(** What a caller does with the value is done only if the process is
    still there. *)
Definition passing {A B} (f : A -> B) (o : Outcome A) : Outcome B :=
  match o with
  | Yields v => Yields (f v)
  | Exits e => Exits e
  end.

Definition read {W A} (f : W -> A) : Async W A := fun w => (Return (f w), w).

End Js.

Import Js.

Declare Scope async_scope.
Delimit Scope async_scope with async.
Notation "x <- m ;; k" := (bind m (fun x => k))
  (at level 100, m at next level, right associativity) : async_scope.
Notation "m ;;; k" := (bind m (fun _ => k))
  (at level 100, right associativity) : async_scope.
Local Open Scope async_scope.

(** ** misc/request.ts *)

Module Request.

Section ExponentialBackoff.
Context {W T : Type}.
(** [await new Promise(resolve => setTimeout(resolve, ms))] *)
Variable setTimeout : Z -> W -> W.
Variable fn : Async W T.
Variables maxRetries delay : Z.

(** The [while (attempt < maxRetries)] loop.  It runs once per value of
    [attempt] from its start up to [maxRetries - 1]; [remaining] is that
    number of iterations, [Z.to_nat (maxRetries - attempt)].  With none
    left the condition is false and the trailing [throw error] runs. *)
Fixpoint backoff_loop (remaining : nat) (attempt : Z) (error : Thrown) : Async W T :=
  match remaining with
  | O => throw error
  | S remaining' =>
      try_catch fn (fun err =>
        if (attempt =? maxRetries - 1)%Z then throw err
        else
          effect (setTimeout (delay * 2 ^ attempt)%Z) ;;;
          backoff_loop remaining' (attempt + 1)%Z err)
  end.

Definition exponentialBackoff : Async W T :=
  backoff_loop (Z.to_nat maxRetries) 0%Z Undefined.

(** What attempt number [start + k] does when it takes place, that is
    when the attempts from [start] on before it failed: [fn] runs in the
    world those attempts and the waits after them left. *)
Fixpoint attemptFrom (start : Z) (k : nat) (w : W) : Completion T * W :=
  match k with
  | O => fn w
  | S k' =>
      fn (setTimeout (delay * 2 ^ (start + Z.of_nat k'))%Z (snd (attemptFrom start k' w)))
  end.

Definition attemptNo (k : nat) (w : W) : Completion T * W := attemptFrom 0%Z k w.
End ExponentialBackoff.

(** Counting the invocations of [fn]: the world is paired with a counter
    that every call of [fn] increments. *)
Definition counting {W T} (fn : Async W T) : Async (nat * W) T :=
  fun cw => let '(r, w') := fn (snd cw) in (r, (S (fst cw), w')).

Definition keeping_count {W} (setTimeout : Z -> W -> W) : Z -> nat * W -> nat * W :=
  fun ms cw => (fst cw, setTimeout ms (snd cw)).

End Request.

(** ** Strings

    A JavaScript string is modelled as a [string] of bytes (UTF-8).  The
    patterns applied below are literal texts, classes of ASCII characters
    and the white space of the language, for which matching on bytes and
    on code units agree. *)

Module Text.

Definition isDigit (c : ascii) : bool :=
  (48 <=? nat_of_ascii c)%nat && (nat_of_ascii c <=? 57)%nat.

(** The white space within ASCII: tab, line feed, vertical tab, form
    feed, carriage return, space. *)
Definition isSpace (c : ascii) : bool :=
  let n := nat_of_ascii c in
  ((9 <=? n)%nat && (n <=? 13)%nat) || (n =? 32)%nat.

Definition digitValue (c : ascii) : Z := Z.of_nat (nat_of_ascii c) - 48.

(** [s.startsWith(p)] *)
Fixpoint startsWith (p s : string) : bool :=
  match p, s with
  | EmptyString, _ => true
  | String a p', String b s' => if Ascii.eqb a b then startsWith p' s' else false
  | String _ _, EmptyString => false
  end.

(** [s.includes(p)] *)
Fixpoint includes (p s : string) : bool :=
  startsWith p s ||
  match s with
  | EmptyString => false
  | String _ s' => includes p s'
  end.

(** The first [n] characters of [s] when all of them are digits. *)
Fixpoint leadingDigits (n : nat) (s : string) : option string :=
  match n with
  | O => Some EmptyString
  | S n' =>
      match s with
      | String c s' =>
          if isDigit c then String c <$> leadingDigits n' s' else None
      | EmptyString => None
      end
  end.

(** [s.slice(n)] *)
Fixpoint drop (n : nat) (s : string) : string :=
  match n, s with
  | S n', String _ s' => drop n' s'
  | _, _ => s
  end.

Definition byte (c : ascii) : N := N_of_ascii c.

(** The white space and line terminators of the language, which [\s]
    matches and [trim] removes, in their UTF-8 encodings: U+0009 to
    U+000D, U+0020, U+00A0, U+1680, U+2000 to U+200A, U+2028, U+2029,
    U+202F, U+205F, U+3000 and U+FEFF.  The value is the number of bytes
    that the one at the head of the text takes, 0 when the text does not
    start with one. *)
Definition whiteSpace : string -> nat :=
  fun text =>
    match text with
    | String c rest =>
        if isSpace c then 1%nat
        else
          match rest with
          | String d rest' =>
              if (byte c =? 194)%N then (if (byte d =? 160)%N then 2%nat else 0%nat)
              else
                match rest' with
                | String e _ =>
                    if (byte c =? 225)%N
                    then (if (byte d =? 154)%N && (byte e =? 128)%N then 3%nat else 0%nat)
                    else if (byte c =? 226)%N
                    then
                      (if (byte d =? 128)%N
                       then
                         (if ((128 <=? byte e)%N && (byte e <=? 138)%N) ||
                             (byte e =? 168)%N || (byte e =? 169)%N || (byte e =? 175)%N
                          then 3%nat else 0%nat)
                       else if (byte d =? 129)%N && (byte e =? 159)%N then 3%nat else 0%nat)
                    else if (byte c =? 227)%N
                    then (if (byte d =? 128)%N && (byte e =? 128)%N then 3%nat else 0%nat)
                    else if (byte c =? 239)%N
                    then (if (byte d =? 187)%N && (byte e =? 191)%N then 3%nat else 0%nat)
                    else 0%nat
                | EmptyString => 0%nat
                end
          | EmptyString => 0%nat
          end
    | EmptyString => 0%nat
    end.

(** [s.trimStart()]: the white space at the head is removed, one
    character after the other. *)
Fixpoint trimStart_from (fuel : nat) (s : string) : string :=
  match fuel with
  | O => s
  | S fuel' =>
      match whiteSpace s with
      | O => s
      | n => trimStart_from fuel' (drop n s)
      end
  end.

Definition trimStart (s : string) : string := trimStart_from (String.length s) s.

(** Is the text made of white space only? *)
Definition isBlank (s : string) : bool :=
  match trimStart s with
  | EmptyString => true
  | String _ _ => false
  end.

(** [s.trimEnd()]: the text up to its longest end of white space. *)
Fixpoint trimEnd (s : string) : string :=
  match s with
  | String c s' => if isBlank s then EmptyString else String c (trimEnd s')
  | EmptyString => EmptyString
  end.

(** [s.trim()] *)
Definition trim (s : string) : string := trimEnd (trimStart s).

Fixpoint contains (c : ascii) (s : string) : bool :=
  match s with
  | String d s' => Ascii.eqb c d || contains c s'
  | EmptyString => false
  end.

(** [parseInt(d, 10)] on a string of decimal digits. *)
Definition parseDigits (d : string) : Z :=
  fold_left (fun acc c => 10 * acc + digitValue c)%Z (list_ascii_of_string d) 0%Z.

End Text.

(** ** misc/postal-code.ts *)

Module PostalCode.
Import Text.

(** [address.match(/\d{5}/)]: the leftmost five consecutive digits. *)
Fixpoint matchFiveDigits (address : string) : option string :=
  match leadingDigits 5 address with
  | Some postalCode => Some postalCode
  | None =>
      match address with
      | String _ rest => matchFiveDigits rest
      | EmptyString => None
      end
  end.

(** [null] and [undefined] are [None]. *)
Definition getPostalCodeFromAddress (address : option string) : option Z :=
  match address ≫= matchFiveDigits with
  | None => None
  | Some postalCode => Some (parseDigits postalCode)
  end.

End PostalCode.

(** ** misc/array.ts *)

Module ArrayUtil.

(** [array.reduce((result, item, index) => f(result, item, index), init)] *)
Fixpoint reduce_from {T R} (f : R -> T -> nat -> R) (array : list T) (index : nat) (result : R) : R :=
  match array with
  | [] => result
  | item :: rest => reduce_from f rest (S index) (f result item index)
  end.

(** The result object is a finite map from group keys to arrays; a group
    is created empty at its first item and every item is pushed at the
    end of its group. *)
Definition groupBy {T K} `{Countable K} (array : list T) (getGroup : T -> nat -> K)
    : gmap K (list T) :=
  reduce_from
    (fun result item index =>
       let groupKey := getGroup item index in
       let result :=
         match result !! groupKey with
         | None => <[groupKey := []]> result
         | Some _ => result
         end in
       alter (fun group => group ++ [item]) groupKey result)
    array 0%nat ∅.

End ArrayUtil.

(** ** misc/flow-control.ts *)

Module FlowControl.

Section WaitUntil.
Context {W T : Type}.
(** Truthiness of what [condition] resolves to. *)
Variable truthy : T -> bool.
Variable condition : Async W T.
(** The text of [`waitUntil timed out for ${condition}`]. *)
Variable timedOut : string.

(** The [setInterval] callback, every 25 ms.  [ticks] is the number of
    callbacks that find [Date.now() <= maxTime]; the world's clock and
    the [timeout] argument decide it.  Each of them awaits [condition()]:
    a truthy result resolves the promise, a falsy one leaves it to the
    next callback, and a rejection rejects the promise of the callback
    itself, which nothing handles.  The callback after those rejects the
    promise of [waitUntil] and, having no [return], awaits [condition()]
    once more; of that call only a rejection has an effect, the same
    one.  The callbacks are run one after the other, each to its end,
    as every call is in this model: a rejection of that last call ends
    the process before the caller sees the time-out. *)
Fixpoint poll (ticks : nat) : Async W (Outcome T) :=
  match ticks with
  | O =>
      fun w =>
        match condition w with
        | (Return _, w') => (Throw (Reason timedOut), w')
        | (Throw e, w') => (Return (Exits e), w')
        end
  | S ticks' =>
      fun w =>
        match condition w with
        | (Return result, w') =>
            if truthy result then (Return (Yields result), w') else poll ticks' w'
        | (Throw e, w') => (Return (Exits e), w')
        end
  end.

Definition waitUntil (ticks : nat) : Async W (Outcome T) :=
  result <- condition ;;
  if truthy result then ret (Yields result) else poll ticks.
End WaitUntil.

End FlowControl.

(** ** The rendering engine (Playwright), as the crawler consumes it

    [Engine] is the state of one browser process together with the site
    it renders; every call answers with a completion and a new engine
    state.  The theorems hold for every implementation of this interface. *)

Module Playwright.

(** [page.$(selector)] is called with two shapes of selector. *)
Inductive Selector : Type :=
  | ById (id : string)                  (* [`#${id}`] *)
  | ByTagAndId (tag id : string).       (* [`a[id="${id}"]`], [`button[id="${id}"]`] *)

(** [Promise.race([navigation, crashPromise])]: the crash event of the page
    fires first, or the navigation settles first. *)
Inductive Raced (A : Type) : Type :=
  | CrashedFirst
  | Settled (c : Completion A).
Arguments CrashedFirst {A}.
Arguments Settled {A} c.

Class Api : Type := {
  Engine : Type;
  Browser : Type;
  Page : Type;
  Handle : Type;
  (* pages *)
  page_isClosed : Page -> Engine -> bool;
  page_close : Page -> Async Engine unit;
  browser_newPage : Browser -> Async Engine Page;
  page_setViewportSize : Page -> Z -> Z -> Async Engine unit;
  page_addInitScript : Page -> Async Engine unit;
  (* [page.evaluate(() => document.readyState)] *)
  page_evaluate_readyState : Page -> Async Engine unit;
  (* [page.goto(url, {waitUntil: 'networkidle'})] raced against the crash
     event; the value is [response?.status()], [None] for no response *)
  page_goto : Page -> string -> Engine -> Raced (option Z) * Engine;
  (* the routing script, [waitForFunction] and [waitForLoadState] of the
     in-app navigation, raced against the crash event *)
  page_route : Page -> string -> Engine -> Raced unit * Engine;
  (* the timer-clearing script and [context.clearCookies()] *)
  page_evaluate_clearTimers : Page -> Async Engine unit;
  context_clearCookies : Page -> Async Engine unit;
  (* elements *)
  page_query : Page -> Selector -> Async Engine (option Handle);
  element_innerText : Handle -> Async Engine string;
  element_title : Handle -> Async Engine string;
  element_href : Handle -> Async Engine string;
  element_focus : Handle -> Async Engine unit;
  element_press_Enter : Handle -> Async Engine unit;
  (* [evaluateHandle(el => el.parentElement)] then [asElement()] *)
  element_parentElement : Handle -> Async Engine (option Handle);
  element_remove : Handle -> Async Engine unit
}.

End Playwright.

(** ** crawler.ts: one session *)

Module Session.
Import Playwright Text.

(** What a session leaves behind for an observer: its console lines, its
    timers, and marks for the calls the properties below speak about. *)
Inductive Event : Type :=
  | Probed (attempt : Z) (healthy : bool)        (* [isPageHealthy()] answered *)
  | Navigating (attempt : Z)                     (* the navigation was issued *)
  | WarnNavigationFailed (attempt total : Z) (url errorMessage : string)
  | Recreating (attempt : Z)                     (* [recreatePage()] was called *)
  | LogRecreated (attempt : Z)
  | ErrorFailedToRecreate (recreateError : Thrown)
  | WarnCleanupFailed (error : Thrown)
  | Slept (ms : Z).

Section WithEngine.
Context `{Api}.

(** The fields of a [Crawler] object, the engine behind its browser and
    the journal of what it did. *)
Record Crawler : Type := {
  browser : Browser;
  page : Page;
  engine : Engine;
  journal : list Event
}.

Definition with_engine (e : Engine) (c : Crawler) : Crawler :=
  {| browser := browser c; page := page c; engine := e; journal := journal c |}.

(** [(this as any).page = newPage] *)
Definition with_page (p : Page) (c : Crawler) : Crawler :=
  {| browser := browser c; page := p; engine := engine c; journal := journal c |}.

Definition record (ev : Event) (c : Crawler) : Crawler :=
  {| browser := browser c; page := page c; engine := engine c;
     journal := journal c ++ [ev] |}.

(** An engine call made by the session. *)
Definition call {A} (op : Async Engine A) : Async Crawler A :=
  fun c => let '(r, e) := op (engine c) in (r, with_engine e c).

Definition sleep (ms : Z) : Async Crawler unit := effect (record (Slept ms)).

Definition recreatePage : Async Crawler unit :=
  try_catch
    (this <- read id ;;
     if negb (page_isClosed (page this) (engine this))
     then call (page_close (page this))
     else ret tt)
    (fun _ => ret tt) ;;;
  this <- read id ;;
  newPage <- call (browser_newPage (browser this)) ;;
  call (page_setViewportSize newPage 1080 1440) ;;;
  call (page_addInitScript newPage) ;;;
  effect (with_page newPage).

Definition isPageHealthy : Async Crawler bool :=
  try_catch
    (this <- read id ;;
     if page_isClosed (page this) (engine this) then ret false
     else
       call (page_evaluate_readyState (page this)) ;;;
       ret true)
    (fun _ => ret false).

(** [Promise.race([navigationPromise, crashPromise])] for both ways of
    navigating. *)
Definition navigate (url : string) (useSpaNavigation : bool) : Async Crawler unit :=
  fun this =>
    if useSpaNavigation then
      match page_route (page this) url (engine this) with
      | (CrashedFirst, e) => (Throw (Error "Page crashed during navigation"), with_engine e this)
      | (Settled c, e) => (c, with_engine e this)
      end
    else
      match page_goto (page this) url (engine this) with
      | (CrashedFirst, e) => (Throw (Error "Page crashed during navigation"), with_engine e this)
      | (Settled (Throw err), e) => (Throw err, with_engine e this)
      | (Settled (Return response), e) =>
          if decide (response = Some 200%Z) then (Return tt, with_engine e this)
          else
            (Throw (Error ("Failed to load " +:+ url +:+ ": " +:+
                           match response with
                           | Some status => pretty status
                           | None => "undefined"
                           end)),
             with_engine e this)
      end.

Definition normalizeUrl (url : string) : string :=
  if startsWith "http" url then url else "http://" +:+ url.

Definition terminalMessage (url : string) (maxRetries : Z) (errorMessage : string) : string :=
  "Failed to navigate to " +:+ url +:+ " after " +:+ pretty (maxRetries + 1)%Z +:+
  " attempts: " +:+ errorMessage.

Definition needsRecreation (errorMessage : string) (this : Crawler) : bool :=
  includes "crashed" errorMessage || includes "closed" errorMessage ||
  includes "unhealthy" errorMessage || page_isClosed (page this) (engine this).

Section Goto.
Variable url : string.
Variable useSpaNavigation : bool.
Variable maxRetries : Z.

(** The [try] block of one attempt. *)
Definition attemptNavigation (attempt : Z) : Async Crawler unit :=
  healthy <- isPageHealthy ;;
  effect (record (Probed attempt healthy)) ;;;
  if negb healthy then throw (Error "Page is unhealthy, needs recreation")
  else
    effect (record (Navigating attempt)) ;;;
    navigate url useSpaNavigation.

(** The [catch] block of one attempt. *)
Definition recover (attempt : Z) (error : Thrown) : Async Crawler unit :=
  let errorMessage := messageOf error in
  effect (record (WarnNavigationFailed (attempt + 1) (maxRetries + 1) url errorMessage)) ;;;
  if (attempt =? maxRetries)%Z
  then throw (Error (terminalMessage url maxRetries errorMessage))
  else
    this <- read id ;;
    (if needsRecreation errorMessage this then
       try_catch
         (effect (record (Recreating attempt)) ;;;
          recreatePage ;;;
          effect (record (LogRecreated (attempt + 1))))
         (fun recreateError =>
            effect (record (ErrorFailedToRecreate recreateError)) ;;;
            if (attempt =? maxRetries)%Z then throw error else ret tt)
     else ret tt) ;;;
    sleep (1000 * 2 ^ attempt).

(** [for (let attempt = 0; attempt <= maxRetries; attempt++)]: the loop
    has one iteration per value of [attempt] up to [maxRetries];
    [remaining] counts them, [Z.to_nat (maxRetries + 1 - attempt)].
    A successful attempt returns from [goto]; with no iteration left
    the function falls off its end. *)
Fixpoint goto_loop (remaining : nat) (attempt : Z) : Async Crawler unit :=
  match remaining with
  | O => ret tt
  | S remaining' =>
      try_catch (attemptNavigation attempt)
        (fun error =>
           recover attempt error ;;;
           goto_loop remaining' (attempt + 1)%Z)
  end.

(** What attempt number [start + k] does when it takes place, that is
    when the attempts from [start] on before it failed: its [try]
    block runs in the session that those attempts and their [catch]
    blocks left. *)
Fixpoint navigationFrom (start : Z) (k : nat) (this : Crawler) : Completion unit * Crawler :=
  match k with
  | O => attemptNavigation start this
  | S k' =>
      match navigationFrom start k' this with
      | (Throw error, this') =>
          attemptNavigation (start + Z.of_nat (S k'))%Z
            (snd (recover (start + Z.of_nat k')%Z error this'))
      | (Return v, this') => (Return v, this')
      end
  end.
End Goto.

Definition goto (url : string) (useSpaNavigation : bool) (maxRetries : Z) : Async Crawler unit :=
  goto_loop (normalizeUrl url) useSpaNavigation maxRetries (Z.to_nat (maxRetries + 1)) 0%Z.

(** Attempt number [k] of [goto(url, useSpaNavigation, maxRetries)]. *)
Definition navigationNo (url : string) (useSpaNavigation : bool) (maxRetries : Z) (k : nat)
    (this : Crawler) : Completion unit * Crawler :=
  navigationFrom (normalizeUrl url) useSpaNavigation maxRetries 0%Z k this.

(** The health of the session as it last observed it: the answer of the
    latest probe. *)
Definition probeOf (ev : Event) : option bool :=
  match ev with Probed _ healthy => Some healthy | _ => None end.

Definition lastProbe (this : Crawler) : option bool :=
  last (omap probeOf (journal this)).

Definition isRecreating (ev : Event) : bool :=
  match ev with Recreating _ => true | _ => false end.

Definition isNavigating (ev : Event) : bool :=
  match ev with Navigating _ => true | _ => false end.

Definition cleanupMemory : Async Crawler unit :=
  try_catch
    (healthy <- isPageHealthy ;;
     if healthy then
       this <- read id ;;
       call (page_evaluate_clearTimers (page this)) ;;;
       call (context_clearCookies (page this))
     else ret tt)
    (fun error => effect (record (WarnCleanupFailed error))).

Definition query (selector : Selector) : Async Crawler (option Handle) :=
  this <- read id ;; call (page_query (page this) selector).

(** [element?.evaluate(f)] *)
Definition evaluateIfPresent {A} (f : Handle -> Async Engine A) (element : option Handle)
    : Async Crawler (option A) :=
  match element with
  | Some el => v <- call (f el) ;; ret (Some v)
  | None => ret None
  end.

Definition getTextWithId (id : string) : Async Crawler (option string) :=
  element <- query (ById id) ;;
  evaluateIfPresent element_innerText element.

Definition getTitleAttrWithId (id : string) : Async Crawler (option string) :=
  element <- query (ById id) ;;
  evaluateIfPresent element_title element.

Definition getLinkUrl (id : string) (canBeMissing : bool) : Async Crawler (option string) :=
  link <- query (ByTagAndId "a" id) ;;
  match link with
  | None =>
      if negb canBeMissing
      then throw (Error ("Link with selector " +:+ id +:+ " not found"))
      else ret None
  | Some el => href <- call (element_href el) ;; ret (Some href)
  end.

Definition getLinkItem (id : string) : Async Crawler Handle :=
  link <- query (ByTagAndId "a" id) ;;
  match link with
  | None => throw (Error ("Link with selector " +:+ id +:+ " not found"))
  | Some el => ret el
  end.

Definition clickButton (id : string) : Async Crawler unit :=
  button <- query (ByTagAndId "button" id) ;;
  match button with
  | None => throw (Error ("Button with selector " +:+ id +:+ " not found"))
  | Some el =>
      call (element_focus el) ;;;
      call (element_press_Enter el)
  end.

(** [for (let i = 0; i < parent; i++)], then [el.remove()]. *)
Fixpoint climb (levels : nat) (i : Z) (elementHandle : Handle) : Async Crawler Handle :=
  match levels with
  | O => ret elementHandle
  | S levels' =>
      parentEl <- call (element_parentElement elementHandle) ;;
      match parentEl with
      | None => throw (Error ("Parent element not found at depth " +:+ pretty (i + 1)%Z))
      | Some el => climb levels' (i + 1)%Z el
      end
  end.

Definition deleteOuterElement (item : Handle) (parent : Z) : Async Crawler unit :=
  elementHandle <- climb (Z.to_nat parent) 0%Z item ;;
  call (element_remove elementHandle).

End WithEngine.

Arguments Crawler : clear implicits.
Arguments Crawler {_}.

End Session.

(** ** arbeitsagentur-crawler.ts *)

Module Arbeitsagentur.
Import Playwright Text Session.

(** What [Math.round(+text)] can be. *)
Inductive Rounded : Type :=
  | Integer (z : Z)
  | NotANumber
  | Infinite (positive : bool).

(** The stateless helpers the crawl consumes as black boxes, and the
    clock.  Each is a function of its arguments only. *)
Class Helpers `{Api} : Type := {
  (* misc/email.ts and misc/phone.ts, on a non-empty text *)
  findEmailInText : string -> option string;
  findPhoneNumberInText : string -> option string;
  (* [Math.round(+text)] *)
  roundNumber : string -> Rounded;
  (* [new Date(+s.slice(6, 10), +s.slice(3, 5) - 1, +s.slice(0, 2)).toISOString()],
     which throws a RangeError on an invalid date *)
  germanDateToISOString : string -> Completion string;
  (* the number of 25 ms interval callbacks that find the deadline of a
     [waitUntil] with this timeout not yet passed *)
  intervalTicks : Z -> Crawler -> nat
}.

Record Posting : Type := {
  company_name : string;
  city : string;
  arbeitsagentur_id : string;
  start_date : option string;
  post_date : option string;
  raw_job_title : option string;
  postal_code : option Z;
  street : option string;
  email : option string;
  phone : option string;
  website : option string;
  company_size : option Rounded;
  from_search_url : option string
}.

Definition newline : string := String "010"%char EmptyString.

(** [text.replace(pattern, '')] for a non-empty string pattern: the first
    occurrence is removed. *)
Fixpoint removeFirst (pattern text : string) : string :=
  if startsWith pattern text then drop (String.length pattern) text
  else
    match text with
    | String c rest => String c (removeFirst pattern rest)
    | EmptyString => EmptyString
    end.

(** [text.split(separator)[0]] for a one-character separator. *)
Fixpoint firstField (separator : ascii) (text : string) : string :=
  match text with
  | String c rest => if Ascii.eqb c separator then EmptyString else String c (firstField separator rest)
  | EmptyString => EmptyString
  end.

(** [text.split(separator).pop()] for a one-character separator. *)
Fixpoint lastField (separator : ascii) (text : string) : string :=
  match text with
  | String c rest =>
      if contains separator text then lastField separator rest
      else text
  | EmptyString => EmptyString
  end.

(** Does [/, \d{4,}/] match at the head of [text]? *)
Definition postalTokenAtHead (text : string) : bool :=
  startsWith ", " text && bool_decide (is_Some (leadingDigits 4 (drop 2 text))).

(** [text.split(/, \d{4,}/)[0]]: what precedes the leftmost match, the
    whole text when there is none. *)
Fixpoint beforePostalToken (text : string) : string :=
  if postalTokenAtHead text then EmptyString
  else
    match text with
    | String c rest => String c (beforePostalToken rest)
    | EmptyString => EmptyString
    end.

(** [address?.split(/, \d{4,}/)[0]?.trim() ?? null] *)
Definition streetOfAddress (address : option string) : option string :=
  (fun a => trim (beforePostalToken a)) <$> address.

(** Truthiness of a [string | undefined]. *)
Definition truthy (text : option string) : bool :=
  match text with
  | Some (String _ _) => true
  | _ => false
  end.

Definition eintragId (i : nat) (field : string) : string :=
  "eintrag-" +:+ pretty i +:+ "-" +:+ field.

Definition itemId (i : nat) : string := "ergebnisliste-item-" +:+ pretty i.

Definition detailUrl (arbeitsagentur_id : string) : string :=
  "https://www.arbeitsagentur.de/jobsuche/jobdetail/" +:+ arbeitsagentur_id.

Section WithHelpers.
Context `{Helpers}.

(** *** readArbeitsagenturPosting *)

(** The object literal; its property values are evaluated in order, so
    a missing location throws before the date is converted. *)
Definition makePosting (companyName : string) (jobName companyLocation startDate : option string)
    (cleanPostDate : option string) (linkUrl : string) : Async Crawler Posting :=
  match companyLocation with
  | None => throw (Error "Cannot read properties of undefined (reading 'replace')")
  | Some location =>
      post_date <-
        match cleanPostDate with
        | Some (String c rest) =>
            iso <- (fun w => (germanDateToISOString (String c rest), w)) ;;
            ret (Some iso)
        | _ => ret None
        end ;;
      ret {| company_name := trim (removeFirst ("Arbeitgeber:" +:+ newline) companyName);
             city := trim (removeFirst ("Arbeitsort:" +:+ newline) location);
             arbeitsagentur_id := lastField "/"%char linkUrl;
             start_date := trim <$> startDate;
             post_date := post_date;
             raw_job_title := removeFirst ("Berufsbezeichnung:" +:+ newline) <$> jobName;
             postal_code := None;
             street := None;
             email := None;
             phone := None;
             website := None;
             company_size := None;
             from_search_url := None |}
  end.

Definition readArbeitsagenturPosting (i : nat) : Async Crawler (option Posting) :=
  companyName <- getTextWithId (eintragId i "firma") ;;
  match companyName with
  | None => ret None
  | Some companyName =>
      (* Promise.all *)
      jobName <- getTextWithId (eintragId i "beruf") ;;
      companyLocation <- getTextWithId (eintragId i "arbeitsort") ;;
      startDate <- getTextWithId (eintragId i "eintrittsdatum") ;;
      postDate <- getTitleAttrWithId (eintragId i "veroeffentlichungsdatum") ;;
      linkItem <- getLinkItem (itemId i) ;;
      let cleanPostDate :=
        if truthy postDate then removeFirst "Veröffentlichungsdatum: " <$> postDate else None in
      linkUrl <- call (element_href linkItem) ;;
      deleteOuterElement linkItem 2 ;;;
      posting <- makePosting companyName jobName companyLocation startDate cleanPostDate linkUrl ;;
      ret (Some posting)
  end.

(** *** loadNextPage *)

Definition clickAndPoll (i : nat) : Async Crawler (Outcome unit) :=
  clickButton "ergebnisliste-ladeweitere-button" ;;;
  w <- read id ;;
  found <- FlowControl.waitUntil truthy (getTextWithId (eintragId i "firma"))
             "waitUntil timed out" (intervalTicks 10000 w) ;;
  ret (passing (fun _ => tt) found).

Definition loadNextPage (i : nat) : Async Crawler (Outcome bool) :=
  try_catch
    (loaded <- Request.exponentialBackoff (fun ms => record (Slept ms)) (clickAndPoll i)
                 5 5000 ;;
     ret (passing (fun _ => true) loaded))
    (fun _ => ret (Yields false)).

(** *** addCompanyData *)

(** The pool while one batch is enriched: the company crawlers and the
    posting objects of the batch.  The batch array and the arrays that
    [groupBy] builds hold references to the same objects; a reference is
    the position of the object in [store]. *)
Record Pool : Type := {
  companyCrawlers : list Crawler;
  store : list Posting
}.

(** [i % this.companyCrawlers.length]; [None] is [NaN]. *)
Definition positionModulo (length i : nat) : option nat :=
  if decide (length = 0%nat) then None else Some (i mod length)%nat.

(** A method call on [this.companyCrawlers[+crawlerIndex]]; on
    [undefined] the call is a TypeError. *)
Definition onCrawler {A} (crawlerIndex : option nat) (method : Async Crawler A) : Async Pool A :=
  fun w =>
    match crawlerIndex ≫= (fun k => (fun c => (k, c)) <$> companyCrawlers w !! k) with
    | Some (k, crawler) =>
        let '(r, crawler') := method crawler in
        (r, {| companyCrawlers := <[k := crawler']> (companyCrawlers w); store := store w |})
    | None => (Throw (Error "Cannot read properties of undefined"), w)
    end.

(** An assignment to a property of the posting object. *)
Definition assign (posting : nat) (update : Posting -> Posting) : Async Pool unit :=
  effect (fun w =>
    {| companyCrawlers := companyCrawlers w;
       store := alter update posting (store w) |}).

Definition set_postal_code v (p : Posting) : Posting :=
  {| company_name := company_name p; city := city p; arbeitsagentur_id := arbeitsagentur_id p;
     start_date := start_date p; post_date := post_date p; raw_job_title := raw_job_title p;
     postal_code := v; street := street p; email := email p; phone := phone p;
     website := website p; company_size := company_size p;
     from_search_url := from_search_url p |}.

Definition set_street v (p : Posting) : Posting :=
  {| company_name := company_name p; city := city p; arbeitsagentur_id := arbeitsagentur_id p;
     start_date := start_date p; post_date := post_date p; raw_job_title := raw_job_title p;
     postal_code := postal_code p; street := v; email := email p; phone := phone p;
     website := website p; company_size := company_size p;
     from_search_url := from_search_url p |}.

Definition set_email v (p : Posting) : Posting :=
  {| company_name := company_name p; city := city p; arbeitsagentur_id := arbeitsagentur_id p;
     start_date := start_date p; post_date := post_date p; raw_job_title := raw_job_title p;
     postal_code := postal_code p; street := street p; email := v; phone := phone p;
     website := website p; company_size := company_size p;
     from_search_url := from_search_url p |}.

Definition set_phone v (p : Posting) : Posting :=
  {| company_name := company_name p; city := city p; arbeitsagentur_id := arbeitsagentur_id p;
     start_date := start_date p; post_date := post_date p; raw_job_title := raw_job_title p;
     postal_code := postal_code p; street := street p; email := email p; phone := v;
     website := website p; company_size := company_size p;
     from_search_url := from_search_url p |}.

Definition set_website v (p : Posting) : Posting :=
  {| company_name := company_name p; city := city p; arbeitsagentur_id := arbeitsagentur_id p;
     start_date := start_date p; post_date := post_date p; raw_job_title := raw_job_title p;
     postal_code := postal_code p; street := street p; email := email p; phone := phone p;
     website := v; company_size := company_size p;
     from_search_url := from_search_url p |}.

Definition set_company_size v (p : Posting) : Posting :=
  {| company_name := company_name p; city := city p; arbeitsagentur_id := arbeitsagentur_id p;
     start_date := start_date p; post_date := post_date p; raw_job_title := raw_job_title p;
     postal_code := postal_code p; street := street p; email := email p; phone := phone p;
     website := website p; company_size := v;
     from_search_url := from_search_url p |}.

Definition set_from_search_url (url : string) (p : Posting) : Posting :=
  {| company_name := company_name p; city := city p; arbeitsagentur_id := arbeitsagentur_id p;
     start_date := start_date p; post_date := post_date p; raw_job_title := raw_job_title p;
     postal_code := postal_code p; street := street p; email := email p; phone := phone p;
     website := website p; company_size := company_size p;
     from_search_url := Some url |}.

(** The first [try] block of the loop body: periodic cleanup, then the
    navigation with its fall-back, under the outer backoff. *)
Definition navigateToDetail (crawlerIndex : option nat) (url : string) (requestCount : Z)
    : Async Pool unit :=
  (if (requestCount mod 10 =? 0)%Z && (0 <? requestCount)%Z
   then onCrawler crawlerIndex cleanupMemory
   else ret tt) ;;;
  Request.exponentialBackoff (fun _ w => w)
    (try_catch (onCrawler crawlerIndex (goto url true 2))
       (fun _ => onCrawler crawlerIndex (goto url false 3)))
    2 3000.

(** The second [try] block: four reads, then the assignments. *)
Definition readDetails (crawlerIndex : option nat)
    : Async Pool (option string * option string * option string * option string) :=
  (* Promise.all *)
  address <- onCrawler crawlerIndex (getTextWithId "detail-arbeitsorte-arbeitsort-0") ;;
  beschreibung <- onCrawler crawlerIndex (getTextWithId "detail-beschreibung-beschreibung") ;;
  link <- onCrawler crawlerIndex (getLinkUrl "detail-agdarstellung-link-0" true) ;;
  companySize <- onCrawler crawlerIndex (getTextWithId "detail-agdarstellung-betriebsgroesse") ;;
  ret (address, beschreibung, link, companySize).

Definition assignDetails (posting : nat)
    (details : option string * option string * option string * option string)
    : Async Pool unit :=
  let '(address, beschreibung, link, companySize) := details in
  assign posting (set_postal_code
    match PostalCode.getPostalCodeFromAddress address with
    | Some code => Some code
    | None => PostalCode.getPostalCodeFromAddress beschreibung
    end) ;;;
  let street := streetOfAddress address in
  assign posting (set_website link) ;;;
  assign posting (set_company_size
    match companySize with
    | Some (String c rest) => Some (roundNumber (firstField " "%char (String c rest)))
    | _ => None
    end) ;;;
  assign posting (set_street street) ;;;
  match beschreibung with
  | Some (String c rest) =>
      assign posting (set_email (findEmailInText (String c rest))) ;;;
      assign posting (set_phone (findPhoneNumberInText (String c rest)))
  | _ => ret tt
  end.

Definition extractDetails (crawlerIndex : option nat) (posting : nat) : Async Pool unit :=
  details <- readDetails crawlerIndex ;;
  assignDetails posting details.

(** [for (const posting of postings)] with its [requestCount]. *)
Fixpoint workerLoop (crawlerIndex : option nat) (postings : list nat) (requestCount : Z)
    : Async Pool unit :=
  match postings with
  | [] => ret tt
  | posting :: rest =>
      fun w =>
        match store w !! posting with
        | None => (Throw (Error "Cannot read properties of undefined"), w)
        | Some object =>
            let url := detailUrl (arbeitsagentur_id object) in
            match navigateToDetail crawlerIndex url requestCount w with
            | (Throw _, w') =>
                (* console.error; continue *)
                workerLoop crawlerIndex rest requestCount w'
            | (Return _, w') =>
                (try_catch (extractDetails crawlerIndex posting) (fun _ => ret tt) ;;;
                 workerLoop crawlerIndex rest (requestCount + 1)%Z) w'
            end
        end
  end.

Definition worker (entry : option nat * list nat) : Async Pool unit :=
  workerLoop (fst entry) (snd entry) 0%Z.

(** [Promise.all(entries.map(worker))] *)
Fixpoint allWorkers (entries : list (option nat * list nat)) : Async Pool unit :=
  match entries with
  | [] => ret tt
  | entry :: rest => worker entry ;;; allWorkers rest
  end.

Definition groupedPostings (length count : nat) : gmap (option nat) (list nat) :=
  ArrayUtil.groupBy (seq 0 count) (fun _ i => positionModulo length i).

(** The workers run interleaved; each uses the crawler of its own key
    and the postings of its own group, so one worker after the other
    leaves the same pool.  The array returned is the one passed in. *)
Definition addCompanyData (postings : list Posting) : Async (list Crawler) (list Posting) :=
  fun crawlers =>
    let groups := groupedPostings (length crawlers) (length postings) in
    let '(r, w) := allWorkers (map_to_list groups)
                     {| companyCrawlers := crawlers; store := postings |} in
    (match r with Return _ => Return (store w) | Throw e => Throw e end,
     companyCrawlers w).

(** *** readPostings

    The loop of [readPostings] and the promise [finalizePromise] run
    interleaved on one thread.  The orchestrator is a transition system:
    a step of the loop runs from one of its [await]s to the next, a step
    of a hand-off promise runs one of its two stages, and a schedule
    chooses which is next.  An [await] of an unsettled promise is a loop
    step that is not enabled. *)

(** [addCompanyData(postings).then(postings => saveCallback(postings))] *)
Inductive HandOff : Type :=
  | Enriching (postings : list Posting)   (* [addCompanyData] is pending *)
  | Saving (enriched : list Posting)      (* the sink was invoked, its promise is pending *)
  | Fulfilled
  | Rejected (e : Thrown).

Inductive Position : Type :=
  | Entry                     (* before the navigations *)
  | LoopHead                  (* [while (true)] *)
  | BatchEnd (i : nat)        (* [!found], before [await finalizePromise] *)
  | NextPage (i : nat)        (* before [loadNextPage(i)] *)
  | LoopExit                  (* after [break], before [await finalizePromise] *)
  | Finished (result : Completion nat)
  | Exited (e : Thrown).      (* the process has ended *)

Section ReadPostings.
Context {Sink : Type}.
Variable url : string.
Variable saveCallback : list Posting -> Async Sink unit.

Record Run : Type := {
  position : Position;
  finalizePromise : option nat;       (* the promise, by its number *)
  count : nat;
  postings : list Posting;
  lastCleanup : nat;
  jobCrawler : Crawler;
  pool : list Crawler;                (* [this.companyCrawlers] *)
  promises : list HandOff;            (* every hand-off created, in order *)
  sink : Sink;
  (* for the observer: the number of the batch of each sink
     invocation with what it was given, and the batches closed *)
  invocations : list (nat * list Posting);
  closed : list (list Posting)
}.

Definition initial (jobCrawler : Crawler) (pool : list Crawler) (sink : Sink) : Run :=
  {| position := Entry; finalizePromise := None; count := 0; postings := [];
     lastCleanup := 0; jobCrawler := jobCrawler; pool := pool; promises := [];
     sink := sink; invocations := []; closed := [] |}.

(** [Promise.all(this.companyCrawlers.map(method))] *)
Fixpoint onAll (method : Async Crawler unit) (crawlers : list Crawler)
    : Completion unit * list Crawler :=
  match crawlers with
  | [] => (Return tt, [])
  | crawler :: rest =>
      let '(r, crawler') := method crawler in
      let '(rs, rest') := onAll method rest in
      (match r with Return _ => rs | Throw e => Throw e end, crawler' :: rest')
  end.

Definition at_position (p : Position) (s : Run) : Run :=
  {| position := p; finalizePromise := finalizePromise s; count := count s;
     postings := postings s; lastCleanup := lastCleanup s; jobCrawler := jobCrawler s;
     pool := pool s; promises := promises s; sink := sink s;
     invocations := invocations s; closed := closed s |}.

Definition with_crawlers (job : Crawler) (company : list Crawler) (s : Run) : Run :=
  {| position := position s; finalizePromise := finalizePromise s; count := count s;
     postings := postings s; lastCleanup := lastCleanup s; jobCrawler := job;
     pool := company; promises := promises s; sink := sink s;
     invocations := invocations s; closed := closed s |}.

(** [await finalizePromise] when it is set: [None] while the promise is
    unsettled, else how the [await] completes. *)
Definition awaitFinalize (s : Run) : option (Completion unit) :=
  match finalizePromise s with
  | None => Some (Return tt)
  | Some k =>
      match promises s !! k with
      | Some Fulfilled => Some (Return tt)
      | Some (Rejected e) => Some (Throw e)
      | _ => None
      end
  end.

(** One step of the loop. *)
Definition stepLoop (s : Run) : option Run :=
  match position s with
  | Entry =>
      match goto url false 3 (jobCrawler s) with
      | (Throw e, job) => Some (at_position (Finished (Throw e)) (with_crawlers job (pool s) s))
      | (Return _, job) =>
          match onAll (goto "https://www.arbeitsagentur.de/jobsuche/" false 3) (pool s) with
          | (Throw e, company) =>
              Some (at_position (Finished (Throw e)) (with_crawlers job company s))
          | (Return _, company) =>
              Some (at_position LoopHead (with_crawlers job company s))
          end
      end
  | LoopHead =>
      let i := count s in
      let cleaning := bool_decide (50 <= count s - lastCleanup s)%nat in
      let job := if cleaning then snd (cleanupMemory (jobCrawler s)) else jobCrawler s in
      let company := if cleaning then snd (onAll cleanupMemory (pool s)) else pool s in
      let lastCleanup' := if cleaning then count s else lastCleanup s in
      let '(found, job') := readArbeitsagenturPosting i job in
      let s' :=
        {| position := position s; finalizePromise := finalizePromise s; count := count s;
           postings := postings s; lastCleanup := lastCleanup'; jobCrawler := job';
           pool := company; promises := promises s; sink := sink s;
           invocations := invocations s; closed := closed s |} in
      match found with
      | Throw e => Some (at_position (Finished (Throw e)) s')
      | Return None => Some (at_position (BatchEnd i) s')
      | Return (Some posting) =>
          Some {| position := LoopHead; finalizePromise := finalizePromise s';
                  count := S (count s'); postings := postings s' ++ [posting];
                  lastCleanup := lastCleanup s'; jobCrawler := jobCrawler s';
                  pool := pool s'; promises := promises s'; sink := sink s';
                  invocations := invocations s'; closed := closed s' |}
      end
  | BatchEnd i =>
      match awaitFinalize s with
      | None => None
      | Some (Throw e) => Some (at_position (Finished (Throw e)) s)
      | Some (Return _) =>
          match postings s with
          | [] => Some (at_position (NextPage i) s)
          | _ :: _ =>
              let batch := set_from_search_url url <$> postings s in
              Some {| position := NextPage i;
                      finalizePromise := Some (length (promises s));
                      count := count s; postings := [];
                      lastCleanup := lastCleanup s; jobCrawler := jobCrawler s;
                      pool := pool s; promises := promises s ++ [Enriching batch];
                      sink := sink s; invocations := invocations s;
                      closed := closed s ++ [batch] |}
          end
      end
  | NextPage i =>
      match loadNextPage i (jobCrawler s) with
      | (Throw e, job) => Some (at_position (Finished (Throw e)) (with_crawlers job (pool s) s))
      | (Return (Yields true), job) =>
          Some (at_position LoopHead (with_crawlers job (pool s) s))
      | (Return (Yields false), job) =>
          Some (at_position LoopExit (with_crawlers job (pool s) s))
      | (Return (Exits e), job) =>
          Some (at_position (Exited e) (with_crawlers job (pool s) s))
      end
  | LoopExit =>
      match awaitFinalize s with
      | None => None
      | Some (Throw e) => Some (at_position (Finished (Throw e)) s)
      | Some (Return _) => Some (at_position (Finished (Return (count s))) s)
      end
  | Finished _ | Exited _ => None
  end.

(** Has an unhandled rejection ended the process? *)
Definition hasExited (s : Run) : bool :=
  match position s with
  | Exited _ => true
  | _ => false
  end.

(** One stage of hand-off promise [k]: the enrichment resolves and the
    sink is invoked with the batch; or the promise of the sink settles.
    Nothing runs in a process that has ended. *)
Definition stepHandOff (k : nat) (s : Run) : option Run :=
  if hasExited s then None else
  match promises s !! k with
  | Some (Enriching batch) =>
      match addCompanyData batch (pool s) with
      | (Return enriched, company) =>
          Some {| position := position s; finalizePromise := finalizePromise s;
                  count := count s; postings := postings s;
                  lastCleanup := lastCleanup s; jobCrawler := jobCrawler s;
                  pool := company; promises := <[k := Saving enriched]> (promises s);
                  sink := sink s;
                  invocations := invocations s ++ [(k, enriched)];
                  closed := closed s |}
      | (Throw e, company) =>
          Some {| position := position s; finalizePromise := finalizePromise s;
                  count := count s; postings := postings s;
                  lastCleanup := lastCleanup s; jobCrawler := jobCrawler s;
                  pool := company; promises := <[k := Rejected e]> (promises s);
                  sink := sink s; invocations := invocations s; closed := closed s |}
      end
  | Some (Saving enriched) =>
      let '(r, sink') := saveCallback enriched (sink s) in
      Some {| position := position s; finalizePromise := finalizePromise s;
              count := count s; postings := postings s;
              lastCleanup := lastCleanup s; jobCrawler := jobCrawler s;
              pool := pool s;
              promises := <[k := match r with
                                 | Return _ => Fulfilled
                                 | Throw e => Rejected e
                                 end]> (promises s);
              sink := sink'; invocations := invocations s; closed := closed s |}
  | _ => None
  end.

Inductive Choice : Type :=
  | TheLoop
  | ThePromise (k : nat).

Definition step (c : Choice) (s : Run) : option Run :=
  match c with
  | TheLoop => stepLoop s
  | ThePromise k => stepHandOff k s
  end.

(** A schedule is run choice by choice; a choice that is not enabled
    leaves the run as it is. *)
Definition exec (schedule : list Choice) (s : Run) : Run :=
  fold_left (fun s c => default s (step c s)) schedule s.

Definition readPostings (schedule : list Choice) (jobCrawler : Crawler) (pool : list Crawler)
    (sink : Sink) : Run :=
  exec schedule (initial jobCrawler pool sink).
End ReadPostings.

End WithHelpers.

End Arbeitsagentur.

(** ** A browser to run the crawler on

    An implementation of the engine interface for every site, a table
    from URLs to documents: a document tree with element handles that are
    paths, pages that can be closed or crash, and a forecast of how the
    coming navigations go.  Only the site makes a navigation succeed. *)

Module Sim.
Import Playwright Text Session Arbeitsagentur.

#[warnings="-register-all"]
Inductive Node : Type :=
  | Element (tag id innerText title href : string) (children : list Node).

Definition children (n : Node) : list Node :=
  match n with Element _ _ _ _ _ cs => cs end.

Definition selects (selector : Selector) (n : Node) : bool :=
  match n, selector with
  | Element _ id _ _ _ _, ById wanted => String.eqb id wanted
  | Element tag id _ _ _ _, ByTagAndId wantedTag wanted =>
      String.eqb tag wantedTag && String.eqb id wanted
  end.

(** The first element in document order that the selector matches, as the
    path of child positions leading to it. *)
Fixpoint findUnder (selector : Selector) (n : Node) : option (list nat) :=
  if selects selector n then Some []
  else
    (fix among (i : nat) (nodes : list Node) : option (list nat) :=
       match nodes with
       | [] => None
       | child :: rest =>
           match findUnder selector child with
           | Some path => Some (i :: path)
           | None => among (S i) rest
           end
       end) 0%nat (children n).

Fixpoint findAmong (selector : Selector) (i : nat) (nodes : list Node) : option (list nat) :=
  match nodes with
  | [] => None
  | child :: rest =>
      match findUnder selector child with
      | Some path => Some (i :: path)
      | None => findAmong selector (S i) rest
      end
  end.

Fixpoint nodeAt (path : list nat) (nodes : list Node) : option Node :=
  match path with
  | [] => None
  | [i] => nodes !! i
  | i :: rest => nodes !! i ≫= fun n => nodeAt rest (children n)
  end.

Definition with_children (cs : list Node) (n : Node) : Node :=
  match n with Element tag id text title href _ => Element tag id text title href cs end.

(** [el.remove()] *)
Fixpoint removeAt (path : list nat) (nodes : list Node) : list Node :=
  match path with
  | [] => nodes
  | [i] => delete i nodes
  | i :: rest => alter (fun n => with_children (removeAt rest (children n)) n) i nodes
  end.

Inductive Forecast : Type :=
  | Loads                 (* the site answers *)
  | TimesOut
  | Answers (status : Z)  (* a response with this status; 200 is the site's answer *)
  | Crashes.

Record Browser : Type := {
  document : list Node;
  forecast : list Forecast;
  more : list (list Node);       (* what each press on a button appends to the first element *)
  opened : nat;                  (* pages opened so far *)
  closedPages : list nat;
  crashedPages : list nat;
  pagesLeft : nat                (* how many more pages the browser can open *)
}.

Definition alive (p : nat) (b : Browser) : bool :=
  negb (bool_decide (p ∈ closedPages b)) && negb (bool_decide (p ∈ crashedPages b)).

Definition closedError : Thrown := Error "Target page, context or browser has been closed".
Definition crashedError : Thrown := Error "Target crashed".
Definition detachedError : Thrown := Error "Element is not attached to the DOM".

(** A page operation fails on a page that is closed or has crashed. *)
Definition onPage {A} (p : nat) (op : Async Browser A) : Async Browser A :=
  fun b =>
    if bool_decide (p ∈ closedPages b) then (Throw closedError, b)
    else if bool_decide (p ∈ crashedPages b) then (Throw crashedError, b)
    else op b.

Definition show (doc : list Node) (b : Browser) : Browser :=
  {| document := doc; forecast := forecast b; more := more b;
     opened := opened b; closedPages := closedPages b; crashedPages := crashedPages b;
     pagesLeft := pagesLeft b |}.

Section Site.
Variable site : list (string * list Node).

Definition lookupSite (url : string) : option (list Node) :=
  snd <$> List.find (fun entry => String.eqb (fst entry) url) site.

(** One navigation: the next forecast decides, and only the site makes it
    succeed. *)
Definition navigation (p : nat) (url : string) (b : Browser) : Raced (option Z) * Browser :=
  if bool_decide (p ∈ closedPages b) then (Settled (Throw closedError), b)
  else if bool_decide (p ∈ crashedPages b) then (Settled (Throw crashedError), b)
  else
    let b' :=
      {| document := document b; forecast := tail (forecast b); more := more b;
         opened := opened b; closedPages := closedPages b; crashedPages := crashedPages b;
         pagesLeft := pagesLeft b |} in
    let loaded :=
      match lookupSite url with
      | Some doc => (Settled (Return (Some 200%Z)), show doc b')
      | None => (Settled (Throw (Error "net::ERR_NAME_NOT_RESOLVED")), b')
      end in
    match head (forecast b) with
    | Some TimesOut => (Settled (Throw (Error "Timeout 30000ms exceeded")), b')
    | Some (Answers status) =>
        if decide (status = 200%Z) then loaded else (Settled (Return (Some status)), b')
    | Some Crashes =>
        (CrashedFirst,
         {| document := []; forecast := tail (forecast b); more := more b;
            opened := opened b; closedPages := closedPages b;
            crashedPages := p :: crashedPages b; pagesLeft := pagesLeft b |})
    | Some Loads | None => loaded
    end.

Definition route (p : nat) (url : string) (b : Browser) : Raced unit * Browser :=
  match navigation p url b with
  | (CrashedFirst, b') => (CrashedFirst, b')
  | (Settled (Throw e), b') => (Settled (Throw e), b')
  | (Settled (Return response), b') =>
      if decide (response = Some 200%Z) then (Settled (Return tt), b')
      else (Settled (Throw (Error "Timeout 30000ms exceeded")), b')
  end.

Definition closePage (p : nat) : Async Browser unit :=
  effect (fun b =>
    {| document := document b; forecast := forecast b; more := more b;
       opened := opened b; closedPages := p :: closedPages b; crashedPages := crashedPages b;
       pagesLeft := pagesLeft b |}).

Definition newPage : Async Browser nat :=
  fun b =>
    match pagesLeft b with
    | O => (Throw closedError, b)
    | S fewer =>
        (Return (opened b),
         {| document := []; forecast := forecast b; more := more b;
            opened := S (opened b); closedPages := closedPages b;
            crashedPages := crashedPages b; pagesLeft := fewer |})
    end.

Definition elementAt {A} (path : list nat) (f : Node -> A) : Async Browser A :=
  fun b =>
    match nodeAt path (document b) with
    | Some n => (Return (f n), b)
    | None => (Throw detachedError, b)
    end.

Definition innerTextOf (n : Node) : string :=
  match n with Element _ _ text _ _ _ => text end.
Definition titleOf (n : Node) : string :=
  match n with Element _ _ _ title _ _ => title end.
Definition hrefOf (n : Node) : string :=
  match n with Element _ _ _ _ href _ => href end.
Definition tagOf (n : Node) : string :=
  match n with Element tag _ _ _ _ _ => tag end.

Definition parentOf (path : list nat) : Async Browser (option (list nat)) :=
  elementAt path (fun _ =>
    match removelast path with
    | [] => None
    | parent => Some parent
    end).

(** A press on a button appends the next portion of rows to the first
    element of the document. *)
Definition pressEnter (path : list nat) : Async Browser unit :=
  fun b =>
    match nodeAt path (document b) with
    | None => (Throw detachedError, b)
    | Some n =>
        if String.eqb (tagOf n) "button" then
          match more b with
          | [] => (Return tt, b)
          | portion :: later =>
              (Return tt,
               {| document :=
                    alter (fun first => with_children (children first ++ portion) first) 0%nat
                      (document b);
                  forecast := forecast b; more := later;
                  opened := opened b; closedPages := closedPages b;
                  crashedPages := crashedPages b; pagesLeft := pagesLeft b |})
          end
        else (Return tt, b)
    end.

#[export] Instance api : Api := {|
  Engine := Browser;
  Playwright.Browser := unit;
  Page := nat;
  Handle := list nat;
  page_isClosed := fun p b => bool_decide (p ∈ closedPages b);
  page_close := closePage;
  browser_newPage := fun _ => newPage;
  page_setViewportSize := fun p _ _ => onPage p (ret tt);
  page_addInitScript := fun p => onPage p (ret tt);
  page_evaluate_readyState := fun p => onPage p (ret tt);
  page_goto := navigation;
  page_route := route;
  page_evaluate_clearTimers := fun p => onPage p (ret tt);
  context_clearCookies := fun p => onPage p (ret tt);
  page_query := fun p selector => onPage p (read (fun b => findAmong selector 0 (document b)));
  element_innerText := fun h => elementAt h innerTextOf;
  element_title := fun h => elementAt h titleOf;
  element_href := fun h => elementAt h hrefOf;
  element_focus := fun h => elementAt h (fun _ => tt);
  element_press_Enter := pressEnter;
  element_parentElement := parentOf;
  element_remove := fun h => effect (fun b => show (removeAt h (document b)) b)
|}.

(** Stand-ins for the helper functions. *)
#[export] Instance helpers : Helpers := {|
  findEmailInText := fun _ => None;
  findPhoneNumberInText := fun _ => None;
  roundNumber := fun text =>
    match text with
    | EmptyString => Integer 0
    | _ => if bool_decide (leadingDigits (String.length text) text = Some text)
           then Integer (parseDigits text) else NotANumber
    end;
  germanDateToISOString := fun text =>
    match leadingDigits 2 text with
    | Some _ => Return text
    | None => Throw (Error "Invalid time value")
    end;
  intervalTicks := fun _ _ => 2%nat
|}.

(** A crawler on its first page. *)
Definition crawlerOn (b : Browser) : Crawler :=
  {| browser := tt; page := 0%nat; engine := b; journal := [] |}.

Definition blank : Browser :=
  {| document := []; forecast := []; more := []; opened := 1;
     closedPages := []; crashedPages := []; pagesLeft := 3 |}.

End Site.

(** *** The listing page and the detail page *)

Record Row : Type := {
  firma : string;
  beruf : string;
  arbeitsort : string;
  eintrittsdatum : string;
  veroeffentlicht : string;
  link : string
}.

Definition span (id text title : string) : Node :=
  Element "span" id text title "" [].

Definition rowNode (i : nat) (r : Row) : Node :=
  Element "li" "" "" "" ""
    [Element "div" "" "" "" ""
       [Element "a" (itemId i) "" "" (link r)
          [span (eintragId i "firma") (firma r) "";
           span (eintragId i "beruf") (beruf r) "";
           span (eintragId i "arbeitsort") (arbeitsort r) "";
           span (eintragId i "eintrittsdatum") (eintrittsdatum r) "";
           span (eintragId i "veroeffentlichungsdatum") "" (veroeffentlicht r)]]].

Definition rowNodes (rows : list (nat * Row)) : list Node :=
  (fun entry => rowNode (fst entry) (snd entry)) <$> rows.

(** The rows, each with its index, and the button that loads more. *)
Definition listing (rows : list (nat * Row)) : list Node :=
  [Element "ul" "ergebnisliste" "" "" "" (rowNodes rows);
   Element "button" "ergebnisliste-ladeweitere-button" "" "" "" []].

Definition numbered (from : nat) (rows : list Row) : list (nat * Row) :=
  zip (seq from (length rows)) rows.

Definition detailPage (address beschreibung size : string) : list Node :=
  [span "detail-arbeitsorte-arbeitsort-0" address "";
   span "detail-beschreibung-beschreibung" beschreibung "";
   span "detail-agdarstellung-betriebsgroesse" size ""].

End Sim.

(** ** Regular expressions, as far as the helpers use them

    A pattern is a sequence of pieces: an alternation of literal texts,
    one character of a class, or a greedy repetition of a class.  The
    matcher backtracks as the runtime does: every piece offers its
    ways to match at the head of the text in the order of preference
    (the alternatives from left to right, the longest repetition
    first), and the first way for which the rest of the pattern matches
    is taken. *)

Module Regex.

(** A character class: the number of bytes that one character of the
    class takes at the head of the text, 0 when the text does not start
    with one. *)
Definition Class : Type := string -> nat.

(** A class of ASCII characters. *)
Definition asciiClass (member : ascii -> bool) : Class :=
  fun text =>
    match text with
    | String c _ => if member c then 1%nat else 0%nat
    | EmptyString => 0%nat
    end.

Inductive Piece : Type :=
  | OneOf (alternatives : list string)        (* [(a|b|c)] of literal texts *)
  | Once (class : Class)                      (* [[...]] *)
  | AtLeast (min : nat) (class : Class).      (* [[...]{min,}], [+] for 1, [*] for 0 *)

(** Where the runs of 1, 2, 3, .. characters of the class end that start
    at the head of the text. *)
Fixpoint runs (fuel : nat) (class : Class) (text : string) : list nat :=
  match fuel with
  | O => []
  | S fuel' =>
      match class text with
      | O => []
      | n => n :: (Nat.add n <$> runs fuel' class (Text.drop n text))
      end
  end.

(** The lengths a piece can match at the head of the text, the
    preferred first. *)
Definition candidates (piece : Piece) (text : string) : list nat :=
  match piece with
  | OneOf alternatives =>
      String.length <$> List.filter (fun a => Text.startsWith a text) alternatives
  | Once class =>
      match class text with
      | O => []
      | n => [n]
      end
  | AtLeast min class =>
      rev (drop min (0%nat :: runs (String.length text) class text))
  end.

(** The length of the match of the pattern at the head of the text. *)
Fixpoint matchPieces (pieces : list Piece) (text : string) : option nat :=
  match pieces with
  | [] => Some 0%nat
  | piece :: rest =>
      (fix try (lengths : list nat) : option nat :=
         match lengths with
         | [] => None
         | n :: others =>
             match matchPieces rest (Text.drop n text) with
             | Some m => Some (n + m)%nat
             | None => try others
             end
         end) (candidates piece text)
  end.

(** [pattern.exec(text)]: the leftmost position at which the pattern
    matches, and the length of the match.  The patterns begin with ASCII
    characters, so no match starts inside a character. *)
Fixpoint search (pieces : list Piece) (text : string) : option (nat * nat) :=
  match matchPieces pieces text with
  | Some n => Some (0%nat, n)
  | None =>
      match text with
      | String _ rest =>
          (fun found => (S (fst found), snd found)) <$> search pieces rest
      | EmptyString => None
      end
  end.

(** [text.match(pattern)] with the flag [g], for a pattern that matches no
    empty text: the matches from left to right, each searched after the
    end of the one before. *)
Fixpoint matchAll (fuel : nat) (pieces : list Piece) (text : string) : list string :=
  match fuel with
  | O => []
  | S fuel' =>
      match search pieces text with
      | None => []
      | Some (index, length) =>
          substring index length text ::
          matchAll fuel' pieces (Text.drop (index + length) text)
      end
  end.

End Regex.

(** ** misc/email.ts *)

Module Email.
Import Text Regex.

Definition isLetter (c : ascii) : bool :=
  let n := nat_of_ascii c in
  ((65 <=? n)%nat && (n <=? 90)%nat) || ((97 <=? n)%nat && (n <=? 122)%nat).

Definition among (chars : string) (c : ascii) : bool := contains c chars.

(** [[a-zA-Z0-9._%+-]] *)
Definition localChar (c : ascii) : bool := isLetter c || isDigit c || among "._%+-" c.

(** [[a-zA-Z0-9.-]] *)
Definition domainChar (c : ascii) : bool := isLetter c || isDigit c || among ".-" c.

(** [/[a-zA-Z0-9._%+-]+@[a-zA-Z0-9.-]+\.[a-zA-Z]{2,}/] *)
Definition EMAIL_REGEX : list Piece :=
  [AtLeast 1 (asciiClass localChar);
   Once (asciiClass (among "@"));
   AtLeast 1 (asciiClass domainChar);
   Once (asciiClass (among "."));
   AtLeast 2 (asciiClass isLetter)].

(** [s.toLowerCase()] on the ASCII letters; a match of [EMAIL_REGEX] is
    ASCII throughout. *)
Definition lowerCase (c : ascii) : ascii :=
  let n := nat_of_ascii c in
  if (65 <=? n)%nat && (n <=? 90)%nat then ascii_of_nat (n + 32) else c.

Fixpoint toLowerCase (s : string) : string :=
  match s with
  | String c rest => String (lowerCase c) (toLowerCase rest)
  | EmptyString => EmptyString
  end.

Definition findEmailInText (text : option string) : option string :=
  match text with
  | None | Some EmptyString => None
  | Some text =>
      match search EMAIL_REGEX text with
      | None => None
      | Some (index, length) =>
          let email := toLowerCase (trim (substring index length text)) in
          if (0 <? String.length email)%nat && (String.length email <? 256)%nat
          then Some email
          else None
      end
  end.

End Email.

(** ** misc/phone.ts *)

Module Phone.
Import Text Regex.

(** [text.replace(/\s/g, '')] *)
Fixpoint removeSpaces_within (fuel : nat) (text : string) : string :=
  match fuel with
  | O => EmptyString
  | S fuel' =>
      match whiteSpace text with
      | O =>
          match text with
          | String c rest => String c (removeSpaces_within fuel' rest)
          | EmptyString => EmptyString
          end
      | n => removeSpaces_within fuel' (Text.drop n text)
      end
  end.

Definition removeSpaces (text : string) : string :=
  removeSpaces_within (String.length text) text.

(** [text.replace(/^old/g, replacement)] for a literal [old] *)
Definition replacePrefix (old replacement text : string) : string :=
  if startsWith old text
  then replacement +:+ Text.drop (String.length old) text
  else text.

Definition cleanPhoneNumber (phoneNumber : option string) : option string :=
  match phoneNumber with
  | None | Some EmptyString => None
  | Some phoneNumber =>
      let phoneNumber := removeSpaces phoneNumber in
      let phoneNumber := replacePrefix "+49" "0" phoneNumber in
      let phoneNumber := replacePrefix "0049" "0" phoneNumber in
      let phoneNumber := replacePrefix "+43" "0043" phoneNumber in
      let phoneNumber := replacePrefix "0043" "0043" phoneNumber in
      let phoneNumber := replacePrefix "+41" "0041" phoneNumber in
      let phoneNumber := replacePrefix "0041" "0041" phoneNumber in
      Some phoneNumber
  end.

Definition isNonZeroDigit (c : ascii) : bool :=
  (49 <=? nat_of_ascii c)%nat && (nat_of_ascii c <=? 57)%nat.

(** [[0-9\s\/\-\(\)]] *)
Definition phoneBody : Class :=
  fun text =>
    match asciiClass (fun c => isDigit c || Email.among "/-()" c) text with
    | O => whiteSpace text
    | n => n
    end.

(** [/(\+49|0049|\+43|0043|\+41|0041|0)\s*[1-9][0-9\s\/\-\(\)]{4,}/g] *)
Definition phoneRegex : list Piece :=
  [OneOf ["+49"; "0049"; "+43"; "0043"; "+41"; "0041"; "0"];
   AtLeast 0 whiteSpace;
   Once (asciiClass isNonZeroDigit);
   AtLeast 4 phoneBody].

Definition findPhoneNumberInText (text : option string) : option string :=
  match text with
  | None | Some EmptyString => None
  | Some text =>
      match matchAll (S (String.length text)) phoneRegex text with
      | [] => None
      | matches =>
          let cleanedNumbers := omap (fun found => cleanPhoneNumber (Some found)) matches in
          head cleanedNumbers
      end
  end.

End Phone.

(** * Properties *)

(** ** Completions *)

Module JsFacts.

Lemma raises_returns {A} (c : Completion A) : raises c = negb (returns c).
Proof. reflexivity. Qed.

Lemma raises_Throw {A} (c : Completion A) : raises c = true <-> exists e, c = Throw e.
Proof. destruct c; simpl; split; intros; try discriminate; eauto. destruct H; discriminate. Qed.

Lemma returns_Return {A} (c : Completion A) : returns c = true <-> exists v, c = Return v.
Proof. destruct c; simpl; split; intros; try discriminate; eauto. destruct H; discriminate. Qed.

End JsFacts.

(** ** misc/request.ts *)

Module RequestFacts.
Import Request JsFacts.

Section Backoff.
Context {W T : Type}.
Variable setTimeout : Z -> W -> W.
Variable fn : Async W T.
Variables maxRetries delay : Z.

Local Abbreviation loop := (backoff_loop setTimeout fn maxRetries delay).
Local Abbreviation from := (attemptFrom setTimeout fn delay).

(** The recursion on the number of iterations is the [while] loop: it
    satisfies the equation of the loop with its test. *)
Lemma backoff_loop_while (attempt : Z) (error : Thrown) (w : W) :
  loop (Z.to_nat (maxRetries - attempt)) attempt error w =
  if (attempt <? maxRetries)%Z then
    match fn w with
    | (Return v, w') => (Return v, w')
    | (Throw err, w') =>
        if (attempt =? maxRetries - 1)%Z then (Throw err, w')
        else loop (Z.to_nat (maxRetries - (attempt + 1))) (attempt + 1)%Z err
               (setTimeout (delay * 2 ^ attempt)%Z w')
    end
  else (Throw error, w).
Proof.
  destruct (Z.ltb_spec attempt maxRetries) as [Hlt | Hge].
  - replace (Z.to_nat (maxRetries - attempt))
      with (S (Z.to_nat (maxRetries - (attempt + 1)))) by lia.
    cbn [backoff_loop]. unfold try_catch.
    destruct (fn w) as [[v | err] w']; [reflexivity |].
    destruct (attempt =? maxRetries - 1)%Z; reflexivity.
  - replace (Z.to_nat (maxRetries - attempt)) with 0%nat by lia. reflexivity.
Qed.


Lemma attemptFrom_shift (a : Z) (k : nat) (w : W) :
  from a (S k) w = from (a + 1) k (setTimeout (delay * 2 ^ a)%Z (snd (fn w))).
Proof.
  induction k as [| k IH].
  - cbn [attemptFrom]. replace (a + Z.of_nat 0)%Z with a by lia. reflexivity.
  - change (from a (S (S k)) w)
      with (fn (setTimeout (delay * 2 ^ (a + Z.of_nat (S k)))%Z (snd (from a (S k) w)))).
    rewrite IH. cbn [attemptFrom].
    replace (a + 1 + Z.of_nat k)%Z with (a + Z.of_nat (S k))%Z by lia. reflexivity.
Qed.

Lemma backoff_loop_returns (remaining : nat) (a : Z) (error : Thrown) (w : W) v w' :
  fn w = (Return v, w') -> loop (S remaining) a error w = (Return v, w').
Proof. intros E. cbn [backoff_loop]. unfold try_catch. rewrite E. reflexivity. Qed.

Lemma backoff_loop_last (remaining : nat) (a : Z) (error : Thrown) (w : W) e w' :
  fn w = (Throw e, w') -> a = (maxRetries - 1)%Z ->
  loop (S remaining) a error w = (Throw e, w').
Proof.
  intros E Ha. cbn [backoff_loop]. unfold try_catch. rewrite E.
  destruct (Z.eqb_spec a (maxRetries - 1)); [reflexivity | contradiction].
Qed.

Lemma backoff_loop_retries (remaining : nat) (a : Z) (error : Thrown) (w : W) e w' :
  fn w = (Throw e, w') -> a <> (maxRetries - 1)%Z ->
  loop (S remaining) a error w =
  loop remaining (a + 1)%Z e (setTimeout (delay * 2 ^ a)%Z w').
Proof.
  intros E Ha. cbn [backoff_loop]. unfold try_catch. rewrite E.
  destruct (Z.eqb_spec a (maxRetries - 1)); [contradiction | reflexivity].
Qed.

(** When an attempt succeeds after failures only, the loop ends there. *)
Lemma backoff_loop_success (remaining : nat) : forall (k : nat) (a : Z) (error : Thrown) (w : W),
  (k < remaining)%nat ->
  (a + Z.of_nat remaining = maxRetries)%Z ->
  returns (fst (from a k w)) = true ->
  (forall j, (j < k)%nat -> raises (fst (from a j w)) = true) ->
  loop remaining a error w = from a k w.
Proof.
  induction remaining as [| remaining IH]; intros k a error w Hk Ha Hret Hfail; [lia |].
  destruct k as [| k].
  - cbn in Hret. destruct (fn w) as [[v | e] w'] eqn:E; cbn in Hret; [|discriminate].
    cbn [attemptFrom]. rewrite E. apply backoff_loop_returns. exact E.
  - pose proof (Hfail 0%nat ltac:(lia)) as H0. cbn in H0.
    rewrite attemptFrom_shift in Hret |- *.
    destruct (fn w) as [[v | e] w'] eqn:E; cbn in H0; [discriminate |].
    rewrite (backoff_loop_retries _ _ _ _ _ _ E) by lia. cbn [snd] in *.
    apply IH; [lia | lia | exact Hret |].
    intros j Hj. specialize (Hfail (S j) ltac:(lia)).
    rewrite attemptFrom_shift, E in Hfail. exact Hfail.
Qed.

(** When every attempt fails, the loop ends as the last attempt does. *)
Lemma backoff_loop_exhausted (remaining : nat) : forall (a : Z) (error : Thrown) (w : W),
  (a + Z.of_nat (S remaining) = maxRetries)%Z ->
  (forall j, (j <= remaining)%nat -> raises (fst (from a j w)) = true) ->
  loop (S remaining) a error w = from a remaining w.
Proof.
  induction remaining as [| remaining IH]; intros a error w Ha Hfail.
  - pose proof (Hfail 0%nat ltac:(lia)) as H0. cbn in H0. cbn [attemptFrom].
    destruct (fn w) as [[v | e] w'] eqn:E; cbn in H0; [discriminate |].
    apply backoff_loop_last; [exact E | lia].
  - pose proof (Hfail 0%nat ltac:(lia)) as H0. cbn in H0.
    rewrite attemptFrom_shift.
    destruct (fn w) as [[v | e] w'] eqn:E; cbn in H0; [discriminate |].
    rewrite (backoff_loop_retries _ _ _ _ _ _ E) by lia. cbn [snd].
    apply IH; [lia |].
    intros j Hj. specialize (Hfail (S j) ltac:(lia)).
    rewrite attemptFrom_shift, E in Hfail. exact Hfail.
Qed.

(** Some attempt is the first to succeed, or all of them fail. *)
Lemma attempts_cases (remaining : nat) : forall (a : Z) (w : W),
  (exists k, (k < remaining)%nat /\ returns (fst (from a k w)) = true /\
             (forall j, (j < k)%nat -> raises (fst (from a j w)) = true)) \/
  (forall j, (j < remaining)%nat -> raises (fst (from a j w)) = true).
Proof.
  induction remaining as [| remaining IH]; intros a w.
  - right. intros j Hj. lia.
  - destruct (fn w) as [[v | e] w'] eqn:E.
    + left. exists 0%nat. cbn. rewrite E. repeat split; [lia | intros; lia].
    + destruct (IH (a + 1)%Z (setTimeout (delay * 2 ^ a)%Z w'))
        as [(k & Hk & Hret & Hfail) | Hall].
      * left. exists (S k). rewrite attemptFrom_shift, E. cbn [snd].
        repeat split; [lia | exact Hret |].
        intros [| j] Hj; [cbn; rewrite E; reflexivity |].
        rewrite attemptFrom_shift, E. apply Hfail. lia.
      * right. intros [| j] Hj; [cbn; rewrite E; reflexivity |].
        rewrite attemptFrom_shift, E. apply Hall. lia.
Qed.
End Backoff.

(** Every run of [fn] inside the backoff adds one to the counter, and the
    counter changes nothing else. *)
Lemma backoff_loop_count {W T} (setTimeout : Z -> W -> W) (fn : Async W T) (n d : Z)
    (remaining : nat) : forall (attempt : Z) (error : Thrown) (cw : nat * W),
  (fst (snd (backoff_loop (keeping_count setTimeout) (counting fn) n d remaining attempt error cw))
   <= fst cw + remaining)%nat.
Proof.
  induction remaining as [| remaining IH]; intros attempt error [c w]; cbn; [lia |].
  unfold try_catch, counting. cbn.
  destruct (fn w) as [[v | e] w']; cbn; [lia |].
  destruct (attempt =? n - 1)%Z; cbn; [lia |].
  unfold bind, effect, keeping_count. cbn.
  etransitivity; [apply IH |]. cbn. lia.
Qed.

Lemma backoff_loop_erase {W T} (setTimeout : Z -> W -> W) (fn : Async W T) (n d : Z)
    (remaining : nat) : forall (attempt : Z) (error : Thrown) (cw : nat * W),
  let counted := backoff_loop (keeping_count setTimeout) (counting fn) n d remaining attempt error cw in
  (fst counted, snd (snd counted)) = backoff_loop setTimeout fn n d remaining attempt error (snd cw).
Proof.
  induction remaining as [| remaining IH]; intros attempt error [c w]; cbn; [reflexivity |].
  unfold try_catch, counting. cbn.
  destruct (fn w) as [[v | e] w']; cbn; [reflexivity |].
  destruct (attempt =? n - 1)%Z; cbn; [reflexivity |].
  unfold bind, effect, keeping_count. cbn.
  apply (IH _ _ (S c, setTimeout (d * 2 ^ attempt)%Z w')).
Qed.

(** C10. For every [fn] and every base delay, [exponentialBackoff(fn, n, d)]
    runs [fn] at most [max(n, 0)] times; the count does not change what
    the call does; and for [n <= 0] it throws the never-assigned
    [undefined] without running [fn] or touching the world. *)
Theorem exponentialBackoff_invocations {W T} (setTimeout : Z -> W -> W) (fn : Async W T)
    (n d : Z) (w : W) :
  let counted :=
    exponentialBackoff (keeping_count setTimeout) (counting fn) n d (0%nat, w) in
  (Z.of_nat (fst (snd counted)) <= Z.max n 0)%Z /\
  (fst counted, snd (snd counted)) = exponentialBackoff setTimeout fn n d w /\
  ((n <= 0)%Z -> counted = (Throw Undefined, (0%nat, w))).
Proof.
  cbn zeta. unfold exponentialBackoff. repeat split.
  - pose proof (backoff_loop_count setTimeout fn n d (Z.to_nat n) 0%Z Undefined (0%nat, w)) as H.
    cbn [fst] in H. lia.
  - apply (backoff_loop_erase setTimeout fn n d (Z.to_nat n) 0%Z Undefined (0%nat, w)).
  - intros Hn. replace (Z.to_nat n) with 0%nat by lia. reflexivity.
Qed.

(** The bound is met, and the case [n <= 0] occurs: a function that always
    fails is run exactly three times by a backoff of three, and never by a
    backoff of minus two. *)
Lemma exponentialBackoff_invocations_witness :
  exponentialBackoff (keeping_count (fun _ (w : unit) => w))
    (counting (throw (Error "no") : Async unit nat)) (-2) 500 (0%nat, tt)
  = (Throw Undefined, (0%nat, tt)) /\
  fst (snd (exponentialBackoff (keeping_count (fun _ (w : unit) => w))
    (counting (throw (Error "no") : Async unit nat)) 3 500 (0%nat, tt))) = 3%nat.
Proof.
  split.
  - apply (exponentialBackoff_invocations (fun _ (w : unit) => w)
             (throw (Error "no") : Async unit nat) (-2) 500 tt). lia.
  - reflexivity.
Defined.

End RequestFacts.

(** ** misc/postal-code.ts *)

Module PostalCodeFacts.
Import Text PostalCode.

Lemma digitValue_range (c : ascii) : isDigit c = true -> (0 <= digitValue c <= 9)%Z.
Proof.
  unfold isDigit, digitValue. intros H.
  apply andb_true_iff in H as [H1 H2].
  apply Nat.leb_le in H1, H2. lia.
Qed.

Lemma leadingDigits_digits (n : nat) : forall (s d : string),
  leadingDigits n s = Some d ->
  length (list_ascii_of_string d) = n /\
  Forall (fun c => isDigit c = true) (list_ascii_of_string d).
Proof.
  induction n as [| n IH]; intros s d H; cbn in H.
  - injection H as <-. split; [reflexivity | constructor].
  - destruct s as [| c s]; [discriminate |].
    destruct (isDigit c) eqn:Hc; [| discriminate].
    destruct (leadingDigits n s) as [d' |] eqn:Hd; [| discriminate].
    injection H as <-. destruct (IH _ _ Hd) as [Hlen Hall]. cbn.
    split; [congruence | constructor; assumption].
Qed.

Lemma parse_range (digits : list ascii) : forall (acc : Z),
  Forall (fun c => isDigit c = true) digits ->
  (0 <= acc)%Z ->
  (acc * 10 ^ Z.of_nat (length digits)
   <= fold_left (fun acc c => 10 * acc + digitValue c) digits acc
   < (acc + 1) * 10 ^ Z.of_nat (length digits))%Z.
Proof.
  induction digits as [| c digits IH]; intros acc Hall Hacc.
  - cbn. lia.
  - apply Forall_cons in Hall as [Hc Hall].
    pose proof (digitValue_range c Hc) as Hd.
    cbn [fold_left length].
    specialize (IH (10 * acc + digitValue c)%Z Hall ltac:(lia)).
    rewrite Nat2Z.inj_succ, Z.pow_succ_r by lia.
    assert (0 < 10 ^ Z.of_nat (length digits))%Z by (apply Z.pow_pos_nonneg; lia).
    nia.
Qed.

Lemma matchFiveDigits_digits (address d : string) :
  matchFiveDigits address = Some d ->
  length (list_ascii_of_string d) = 5%nat /\
  Forall (fun c => isDigit c = true) (list_ascii_of_string d).
Proof.
  induction address as [| c rest IH]; cbn [matchFiveDigits]; intros H.
  - destruct (leadingDigits 5 "") eqn:E; [discriminate E | discriminate H].
  - destruct (leadingDigits 5 (String c rest)) as [d' |] eqn:E.
    + injection H as <-. eapply leadingDigits_digits, E.
    + apply IH, H.
Qed.

(** Whenever [getPostalCodeFromAddress] does not return [null] it
    returns the value of five decimal digits, an integer from 0 to
    99999. *)
Theorem getPostalCodeFromAddress_range (address : option string) :
  match getPostalCodeFromAddress address with
  | None => True
  | Some code => (0 <= code <= 99999)%Z
  end.
Proof.
  unfold getPostalCodeFromAddress.
  destruct (address ≫= matchFiveDigits) as [d |] eqn:E; [| exact I].
  destruct address as [a |]; [| discriminate]. cbn in E.
  destruct (matchFiveDigits_digits _ _ E) as [Hlen Hall].
  pose proof (parse_range _ 0%Z Hall ltac:(lia)) as H.
  rewrite Hlen in H. unfold parseDigits. cbn in H. lia.
Qed.

(** C8 as stated fails: a text whose first five digits are all zero gives
    the postal code 0, which is not [null] and not positive. *)
Lemma getPostalCodeFromAddress_zero :
  ~ (forall address : option string,
       match getPostalCodeFromAddress address with
       | None => True
       | Some code => (0 < code)%Z
       end).
Proof.
  intros H. specialize (H (Some "Postfach 00000")). vm_compute in H. discriminate H.
Qed.

End PostalCodeFacts.

(** ** Reasoning about asynchronous code *)

Module AsyncFacts.

Section Keeps.
Context {W : Type} (R : W -> W -> Prop) `{!Reflexive R, !Transitive R}.

(** [m] leaves every world related by [R] to the one it started in. *)
Definition keeps {A} (m : Async W A) : Prop := forall w, R w (snd (m w)).

Lemma keeps_ret {A} (v : A) : keeps (ret v).
Proof. intros w. reflexivity. Qed.

Lemma keeps_throw {A} (e : Thrown) : keeps (throw e : Async W A).
Proof. intros w. reflexivity. Qed.

Lemma keeps_read {A} (f : W -> A) : keeps (read f).
Proof. intros w. reflexivity. Qed.

Lemma keeps_effect (f : W -> W) : (forall w, R w (f w)) -> keeps (effect f).
Proof. intros Hf w. apply Hf. Qed.

Lemma keeps_bind {A B} (m : Async W A) (k : A -> Async W B) :
  keeps m -> (forall v, keeps (k v)) -> keeps (bind m k).
Proof.
  intros Hm Hk w. unfold bind. specialize (Hm w).
  destruct (m w) as [[v | e] w']; cbn in *; [| exact Hm].
  etransitivity; [exact Hm | apply Hk].
Qed.

Lemma keeps_try_catch {A} (m : Async W A) (h : Thrown -> Async W A) :
  keeps m -> (forall e, keeps (h e)) -> keeps (try_catch m h).
Proof.
  intros Hm Hh w. unfold try_catch. specialize (Hm w).
  destruct (m w) as [[v | e] w']; cbn in *; [exact Hm |].
  etransitivity; [exact Hm | apply Hh].
Qed.
End Keeps.

Ltac keeps_step :=
  first
    [ apply keeps_bind; try typeclasses eauto; [| intros ?]
    | apply keeps_try_catch; try typeclasses eauto; [| intros ?]
    | apply keeps_ret; typeclasses eauto
    | apply keeps_throw; typeclasses eauto
    | apply keeps_read; typeclasses eauto
    | match goal with |- keeps _ (if ?b then _ else _) => destruct b end
    | match goal with |- keeps _ (match ?b with _ => _ end) => destruct b end ].

(** [m] never throws. *)
Definition settles {W A} (m : Async W A) : Prop := forall w, exists v, fst (m w) = Return v.

Lemma settles_ret {W A} (v : A) : settles (ret v : Async W A).
Proof. intros w. eexists. reflexivity. Qed.

Lemma settles_effect {W} (f : W -> W) : settles (effect f).
Proof. intros w. eexists. reflexivity. Qed.

Lemma settles_read {W A} (f : W -> A) : settles (read f).
Proof. intros w. eexists. reflexivity. Qed.

Lemma settles_bind {W A B} (m : Async W A) (k : A -> Async W B) :
  settles m -> (forall v, settles (k v)) -> settles (bind m k).
Proof.
  intros Hm Hk w. unfold bind. destruct (Hm w) as [v Hv].
  destruct (m w) as [r w']. cbn in Hv. subst r. apply Hk.
Qed.

Lemma settles_try_catch {W A} (m : Async W A) (h : Thrown -> Async W A) :
  (forall e, settles (h e)) -> settles (try_catch m h).
Proof.
  intros Hh w. unfold try_catch.
  destruct (m w) as [[v | e] w']; [eexists; reflexivity | apply Hh].
Qed.

End AsyncFacts.

(** ** crawler.ts *)

Module SessionFacts.
Import Playwright Text Session JsFacts AsyncFacts.

Section WithEngine.
Context `{Api}.

(** *** What the steps of [goto] leave untouched *)

(** Same browser and same journal. *)
Definition sameSession (c c' : Crawler) : Prop :=
  browser c' = browser c /\ journal c' = journal c.

(** Same browser, same page and same journal. *)
Definition samePage (c c' : Crawler) : Prop :=
  browser c' = browser c /\ page c' = page c /\ journal c' = journal c.

#[local] Instance sameSession_refl : Reflexive sameSession.
Proof. intros c. split; reflexivity. Qed.
#[local] Instance sameSession_trans : Transitive sameSession.
Proof. intros a b c [] []. split; congruence. Qed.
#[local] Instance samePage_refl : Reflexive samePage.
Proof. intros c. repeat split; reflexivity. Qed.
#[local] Instance samePage_trans : Transitive samePage.
Proof. intros a b c (? & ? & ?) (? & ? & ?). repeat split; congruence. Qed.

Lemma samePage_sameSession (c c' : Crawler) : samePage c c' -> sameSession c c'.
Proof. intros (? & ? & ?). split; assumption. Qed.

Lemma call_samePage {A} (op : Async Engine A) : keeps samePage (call op).
Proof. intros c. unfold call. destruct (op (engine c)) as [r e]. repeat split. Qed.

Lemma isPageHealthy_samePage : keeps samePage isPageHealthy.
Proof.
  unfold isPageHealthy. repeat keeps_step. apply call_samePage.
Qed.

Lemma isPageHealthy_settles : settles isPageHealthy.
Proof.
  unfold isPageHealthy. apply settles_try_catch. intros; apply settles_ret.
Qed.

Lemma navigate_samePage (url : string) (spa : bool) : keeps samePage (navigate url spa).
Proof.
  intros c. unfold navigate. destruct spa.
  - destruct (page_route (page c) url (engine c)) as [[| r] e]; repeat split.
  - destruct (page_goto (page c) url (engine c)) as [[| [response | err]] e];
      [repeat split | | repeat split].
    destruct (decide (response = Some 200%Z)); repeat split.
Qed.

Lemma recreatePage_sameSession : keeps sameSession recreatePage.
Proof.
  assert (Hcall : forall A (op : Async Engine A), keeps sameSession (call op)).
  { intros A op c. apply samePage_sameSession, call_samePage. }
  unfold recreatePage.
  repeat keeps_step; try apply Hcall.
  all: try (apply keeps_effect; intros ?; split; reflexivity).
Qed.

(** *** The attempts of [goto] *)

Section Goto.
Variables (url : string) (spa : bool) (maxRetries : Z).

Local Abbreviation attemptOnce := (attemptNavigation url spa).
Local Abbreviation recovery := (recover url maxRetries).
Local Abbreviation loop := (goto_loop url spa maxRetries).
Local Abbreviation from := (navigationFrom url spa maxRetries).

Lemma recover_terminal (e : Thrown) (c : Crawler) :
  recovery maxRetries e c =
  (Throw (Error (terminalMessage url maxRetries (messageOf e))),
   record (WarnNavigationFailed (maxRetries + 1) (maxRetries + 1) url (messageOf e)) c).
Proof.
  unfold recover, bind, effect, throw. cbn. rewrite Z.eqb_refl. reflexivity.
Qed.

Lemma recover_settles (a : Z) (e : Thrown) : a <> maxRetries -> settles (recovery a e).
Proof.
  intros Ha. unfold recover.
  apply settles_bind; [apply settles_effect | intros _].
  destruct (Z.eqb_spec a maxRetries) as [| _]; [contradiction |].
  apply settles_bind; [apply settles_read | intros this].
  apply settles_bind; [| intros _; apply settles_effect].
  destruct (needsRecreation _ _); [| apply settles_ret].
  apply settles_try_catch. intros recreateError.
  apply settles_bind; [apply settles_effect | intros _].
  destruct (Z.eqb_spec a maxRetries) as [| _]; [contradiction | apply settles_ret].
Qed.

Lemma recover_continues (a : Z) (e : Thrown) (c : Crawler) :
  a <> maxRetries -> fst (recovery a e c) = Return tt.
Proof.
  intros Ha. destruct (recover_settles a e Ha c) as [[] Hv]. exact Hv.
Qed.

Lemma goto_loop_returns (remaining : nat) (a : Z) (c c' : Crawler) v :
  attemptOnce a c = (Return v, c') -> loop (S remaining) a c = (Return v, c').
Proof. intros E. cbn [goto_loop]. unfold try_catch. rewrite E. reflexivity. Qed.

Lemma goto_loop_last (remaining : nat) (c c' : Crawler) e :
  attemptOnce maxRetries c = (Throw e, c') ->
  loop (S remaining) maxRetries c = recovery maxRetries e c'.
Proof.
  intros E. cbn [goto_loop]. unfold try_catch. rewrite E.
  unfold bind at 1. rewrite recover_terminal. reflexivity.
Qed.

Lemma goto_loop_retries (remaining : nat) (a : Z) (c c' : Crawler) e :
  attemptOnce a c = (Throw e, c') -> a <> maxRetries ->
  loop (S remaining) a c = loop remaining (a + 1)%Z (snd (recovery a e c')).
Proof.
  intros E Ha. cbn [goto_loop]. unfold try_catch. rewrite E.
  unfold bind at 1. pose proof (recover_continues a e c' Ha) as Hr.
  destruct (recovery a e c') as [r c'']. cbn in Hr. subst r. reflexivity.
Qed.

Lemma navigationFrom_shift (a : Z) (k : nat) (c : Crawler) :
  from a (S k) c =
  match attemptOnce a c with
  | (Throw e, c') => from (a + 1)%Z k (snd (recovery a e c'))
  | (Return v, c') => (Return v, c')
  end.
Proof.
  induction k as [| k IH].
  - cbn [navigationFrom].
    replace (a + Z.of_nat 0)%Z with a by lia.
    replace (a + Z.of_nat 1)%Z with (a + 1)%Z by lia.
    destruct (attemptOnce a c) as [[v | e] c']; reflexivity.
  - change (from a (S (S k)) c) with
      (match from a (S k) c with
       | (Throw error, this') =>
           attemptOnce (a + Z.of_nat (S (S k)))%Z
             (snd (recovery (a + Z.of_nat (S k))%Z error this'))
       | (Return v, this') => (Return v, this')
       end).
    rewrite IH. destruct (attemptOnce a c) as [[v | e] c']; [reflexivity |].
    cbn [navigationFrom].
    replace (a + 1 + Z.of_nat (S k))%Z with (a + Z.of_nat (S (S k)))%Z by lia.
    replace (a + 1 + Z.of_nat k)%Z with (a + Z.of_nat (S k))%Z by lia.
    reflexivity.
Qed.

(** When an attempt succeeds after failures only, [goto] returns there. *)
Lemma goto_loop_success (remaining : nat) : forall (k : nat) (a : Z) (c : Crawler),
  (k < remaining)%nat ->
  (a + Z.of_nat remaining = maxRetries + 1)%Z ->
  returns (fst (from a k c)) = true ->
  (forall j, (j < k)%nat -> raises (fst (from a j c)) = true) ->
  loop remaining a c = from a k c.
Proof.
  induction remaining as [| remaining IH]; intros k a c Hk Ha Hret Hfail; [lia |].
  destruct k as [| k].
  - cbn in Hret. cbn [navigationFrom].
    destruct (attemptOnce a c) as [[v | e] c'] eqn:E; cbn in Hret; [| discriminate].
    apply goto_loop_returns. exact E.
  - pose proof (Hfail 0%nat ltac:(lia)) as H0. cbn in H0.
    rewrite navigationFrom_shift in Hret |- *.
    destruct (attemptOnce a c) as [[v | e] c'] eqn:E; cbn in H0; [discriminate |].
    rewrite (goto_loop_retries _ _ _ _ _ E) by lia.
    apply IH; [lia | lia | exact Hret |].
    intros j Hj. specialize (Hfail (S j) ltac:(lia)).
    rewrite navigationFrom_shift, E in Hfail. exact Hfail.
Qed.

(** When every attempt fails, [goto] ends in the [catch] block of the
    last one, which throws the terminal error. *)
Lemma goto_loop_exhausted (remaining : nat) : forall (a : Z) (c : Crawler),
  (a + Z.of_nat (S remaining) = maxRetries + 1)%Z ->
  (forall j, (j <= remaining)%nat -> raises (fst (from a j c)) = true) ->
  exists e c', from a remaining c = (Throw e, c') /\
               loop (S remaining) a c = recovery maxRetries e c'.
Proof.
  induction remaining as [| remaining IH]; intros a c Ha Hfail.
  - pose proof (Hfail 0%nat ltac:(lia)) as H0. cbn in H0. cbn [navigationFrom].
    replace a with maxRetries in * by lia.
    destruct (attemptOnce maxRetries c) as [[v | e] c'] eqn:E; cbn in H0; [discriminate |].
    exists e, c'. split; [reflexivity |].
    apply goto_loop_last. exact E.
  - pose proof (Hfail 0%nat ltac:(lia)) as H0. cbn in H0.
    rewrite navigationFrom_shift.
    destruct (attemptOnce a c) as [[v | e] c'] eqn:E; cbn in H0; [discriminate |].
    rewrite (goto_loop_retries _ _ _ _ _ E) by lia.
    apply IH; [lia |].
    intros j Hj. specialize (Hfail (S j) ltac:(lia)).
    rewrite navigationFrom_shift, E in Hfail. exact Hfail.
Qed.

(** Some attempt is the first to succeed, or all of them fail. *)
Lemma navigations_cases (remaining : nat) : forall (a : Z) (c : Crawler),
  (exists k, (k < remaining)%nat /\ returns (fst (from a k c)) = true /\
             (forall j, (j < k)%nat -> raises (fst (from a j c)) = true)) \/
  (forall j, (j < remaining)%nat -> raises (fst (from a j c)) = true).
Proof.
  induction remaining as [| remaining IH]; intros a c.
  - right. intros j Hj. lia.
  - destruct (attemptOnce a c) as [[v | e] c'] eqn:E.
    + left. exists 0%nat. cbn. rewrite E. repeat split; [lia | intros; lia].
    + destruct (IH (a + 1)%Z (snd (recovery a e c')))
        as [(k & Hk & Hret & Hfail) | Hall].
      * left. exists (S k). rewrite navigationFrom_shift, E.
        repeat split; [lia | exact Hret |].
        intros [| j] Hj; [cbn; rewrite E; reflexivity |].
        rewrite navigationFrom_shift, E. apply Hfail. lia.
      * right. intros [| j] Hj; [cbn; rewrite E; reflexivity |].
        rewrite navigationFrom_shift, E. apply Hall. lia.
Qed.

(** A successful attempt was probed healthy and then navigated. *)
Lemma attemptNavigation_returns (a : Z) (c c' : Crawler) v :
  attemptOnce a c = (Return v, c') ->
  journal c' = journal c ++ [Probed a true; Navigating a] /\
  browser c' = browser c /\ page c' = page c.
Proof.
  unfold attemptNavigation. unfold bind at 1.
  pose proof (isPageHealthy_samePage c) as (Hb & Hp & Hj).
  destruct (isPageHealthy_settles c) as [healthy Hh].
  destruct (isPageHealthy c) as [r c1]. cbn in Hb, Hp, Hj, Hh. subst r.
  unfold bind at 1, effect at 1. cbn.
  destruct healthy; cbn; [| discriminate].
  unfold bind, effect. cbn.
  pose proof (navigate_samePage url spa (record (Navigating a) (record (Probed a true) c1)))
    as (Hb' & Hp' & Hj').
  destruct (navigate url spa _) as [r c2]. cbn in *.
  intros [= -> ->]. repeat split; [| congruence | congruence].
  etransitivity; [exact Hj' |]. rewrite Hj, <- app_assoc. reflexivity.
Qed.

Lemma lastProbe_after (c c' : Crawler) (a : Z) :
  journal c' = journal c ++ [Probed a true; Navigating a] -> lastProbe c' = Some true.
Proof.
  intros Hj. unfold lastProbe. rewrite Hj, omap_app. cbn.
  apply last_snoc.
Qed.
End Goto.

Lemma navigationFrom_returns (url : string) (spa : bool) (maxRetries : Z) (k : nat) :
  forall (a : Z) (c : Crawler),
  returns (fst (navigationFrom url spa maxRetries a k c)) = true ->
  (forall j, (j < k)%nat -> raises (fst (navigationFrom url spa maxRetries a j c)) = true) ->
  lastProbe (snd (navigationFrom url spa maxRetries a k c)) = Some true.
Proof.
  destruct k as [| k]; intros a c Hret Hfail.
  - cbn in *. destruct (attemptNavigation url spa a c) as [[v | e] c'] eqn:E;
      cbn in Hret; [| discriminate].
    eapply lastProbe_after, attemptNavigation_returns, E.
  - specialize (Hfail k ltac:(lia)). cbn [navigationFrom] in *.
    destruct (navigationFrom url spa maxRetries a k c) as [[v | e] c'];
      cbn in Hfail; [discriminate |].
    destruct (attemptNavigation _ _ _ _) as [[v | e'] c''] eqn:E;
      cbn in Hret; [| discriminate].
    eapply lastProbe_after, attemptNavigation_returns, E.
Qed.

(** C2, for the retry counts that give [goto] an attempt to make. For
    every URL and every [maxRetries >= 0], [goto] throws exactly when
    all [maxRetries + 1] attempts fail; what it throws then is the
    terminal error, whose message names the number of attempts and ends
    in the message of the last failure; and when an attempt succeeds
    after failures only (two failures and a success at the third, say),
    [goto] returns normally at that attempt with the session last probed
    healthy. *)
Theorem goto_raises_iff_all_attempts_fail (url : string) (spa : bool) (maxRetries : Z)
    (c : Crawler) :
  (0 <= maxRetries)%Z ->
  let attempt k := navigationNo url spa maxRetries k c in
  let n := Z.to_nat maxRetries in
  (raises (fst (goto url spa maxRetries c)) = true <->
   forall k, (k <= n)%nat -> raises (fst (attempt k)) = true) /\
  (raises (fst (goto url spa maxRetries c)) = true ->
   exists e, fst (attempt n) = Throw e /\
     fst (goto url spa maxRetries c) =
     Throw (Error ("Failed to navigate to " +:+ normalizeUrl url +:+ " after " +:+
                   pretty (maxRetries + 1)%Z +:+ " attempts: " +:+ messageOf e))) /\
  (forall k, (k <= n)%nat -> returns (fst (attempt k)) = true ->
     (forall j, (j < k)%nat -> raises (fst (attempt j)) = true) ->
     goto url spa maxRetries c = attempt k /\
     returns (fst (goto url spa maxRetries c)) = true /\
     lastProbe (snd (goto url spa maxRetries c)) = Some true).
Proof.
  intros Hm attempt n. subst attempt n. unfold goto, navigationNo.
  set (u := normalizeUrl url).
  replace (Z.to_nat (maxRetries + 1)) with (S (Z.to_nat maxRetries)) by lia.
  assert (Hexhausted :
    (forall k, (k <= Z.to_nat maxRetries)%nat ->
       raises (fst (navigationFrom u spa maxRetries 0 k c)) = true) ->
    exists e c', navigationFrom u spa maxRetries 0 (Z.to_nat maxRetries) c = (Throw e, c') /\
      goto_loop u spa maxRetries (S (Z.to_nat maxRetries)) 0 c =
      recover u maxRetries maxRetries e c').
  { intros Hall. apply goto_loop_exhausted; [lia | exact Hall]. }
  assert (Hsuccess : forall k, (k <= Z.to_nat maxRetries)%nat ->
    returns (fst (navigationFrom u spa maxRetries 0 k c)) = true ->
    (forall j, (j < k)%nat -> raises (fst (navigationFrom u spa maxRetries 0 j c)) = true) ->
    goto_loop u spa maxRetries (S (Z.to_nat maxRetries)) 0 c =
    navigationFrom u spa maxRetries 0 k c).
  { intros k Hk Hret Hfail. apply goto_loop_success; [lia | lia | exact Hret | exact Hfail]. }
  assert (Hiff :
    raises (fst (goto_loop u spa maxRetries (S (Z.to_nat maxRetries)) 0 c)) = true <->
    forall k, (k <= Z.to_nat maxRetries)%nat ->
      raises (fst (navigationFrom u spa maxRetries 0 k c)) = true).
  { split.
    - intros Hraises.
      destruct (navigations_cases u spa maxRetries (S (Z.to_nat maxRetries)) 0 c)
        as [(k & Hk & Hret & Hfail) | Hall].
      + rewrite (Hsuccess k ltac:(lia) Hret Hfail) in Hraises.
        unfold raises in Hraises. rewrite Hret in Hraises. discriminate.
      + intros k Hk. apply Hall. lia.
    - intros Hall. destruct (Hexhausted Hall) as (e & c' & _ & ->).
      rewrite recover_terminal. reflexivity. }
  split; [exact Hiff |]. split.
  - intros Hraises. pose proof (proj1 Hiff Hraises) as Hall.
    destruct (Hexhausted Hall) as (e & c' & Hlast & ->).
    exists e. rewrite Hlast, recover_terminal. split; reflexivity.
  - intros k Hk Hret Hfail. rewrite (Hsuccess k Hk Hret Hfail).
    split; [reflexivity |]. split; [exact Hret |].
    apply navigationFrom_returns; assumption.
Qed.

(** *** The journal of [goto] *)

Definition unhealthyError : Thrown := Error "Page is unhealthy, needs recreation".

Lemma needsRecreation_unhealthy (c : Crawler) :
  needsRecreation (messageOf unhealthyError) c = true.
Proof. reflexivity. Qed.

Section Journal.
Variables (url : string) (spa : bool) (maxRetries : Z).

(** The [try] block writes the probe and, when healthy, the mark of
    the navigation; an unhealthy probe throws at once. *)
Lemma attemptNavigation_journal (a : Z) (c : Crawler) :
  let '(r, c') := attemptNavigation url spa a c in
  browser c' = browser c /\
  ((journal c' = journal c ++ [Probed a true; Navigating a]) \/
   (journal c' = journal c ++ [Probed a false] /\ r = Throw unhealthyError)).
Proof.
  unfold attemptNavigation. unfold bind at 1.
  pose proof (isPageHealthy_samePage c) as (Hb & Hp & Hj).
  destruct (isPageHealthy_settles c) as [healthy Hh].
  destruct (isPageHealthy c) as [r c1]. cbn in Hb, Hp, Hj, Hh. subst r.
  unfold bind at 1, effect at 1. cbn.
  destruct healthy; cbn.
  - unfold bind, effect. cbn.
    pose proof (navigate_samePage url spa
                  (record (Navigating a) (record (Probed a true) c1)))
      as (Hb' & Hp' & Hj').
    destruct (navigate url spa _) as [r c2]. cbn in *.
    split; [congruence |]. left.
    etransitivity; [exact Hj' |]. rewrite Hj, <- app_assoc. reflexivity.
  - split; [exact Hb |]. right. rewrite Hj. split; reflexivity.
Qed.

(** The [catch] block writes the warning, at most one recreation, and
    the wait; exactly one recreation when the error asks for it and
    another attempt is to follow. *)
Lemma recover_journal (a : Z) (e : Thrown) (c : Crawler) :
  let c' := snd (recover url maxRetries a e c) in
  browser c' = browser c /\
  exists events, journal c' = journal c ++ events /\
    filter isNavigating events = [] /\
    omap probeOf events = [] /\
    (a <> maxRetries ->
     needsRecreation (messageOf e) c = true ->
     length (filter isRecreating events) = 1%nat).
Proof.
  cbn zeta.
  match goal with
  | |- ?B (snd ?run) = _ /\ ?rest =>
      pattern (snd run);
      match goal with |- ?P _ => set (shape := P) end
  end.
  unfold recover, bind, try_catch, effect, read, ret, throw, sleep, id.
  destruct (Z.eqb_spec a maxRetries) as [-> | Ha].
  - subst shape. cbn. split; [reflexivity |]. eexists. split; [reflexivity |].
    repeat split. intros Hne. contradiction.
  - change (needsRecreation (messageOf e) (record _ c))
      with (needsRecreation (messageOf e) c).
    destruct (needsRecreation (messageOf e) c).
    + match goal with
      | |- context [recreatePage ?x] =>
          pose proof (recreatePage_sameSession x) as (Hb & Hj);
          destruct (recreatePage x) as [[[] | recreateError] c1]
      end; subst shape; cbn in Hb, Hj |- *.
      * split; [exact Hb |].
        exists [WarnNavigationFailed (a + 1) (maxRetries + 1) url (messageOf e);
                Recreating a; LogRecreated (a + 1); Slept (1000 * 2 ^ a)].
        split; [| repeat split].
        rewrite Hj, <- !app_assoc. reflexivity.
      * split; [exact Hb |].
        exists [WarnNavigationFailed (a + 1) (maxRetries + 1) url (messageOf e);
                Recreating a; ErrorFailedToRecreate recreateError; Slept (1000 * 2 ^ a)].
        split; [| repeat split].
        rewrite Hj, <- !app_assoc. reflexivity.
    + subst shape. cbn. split; [reflexivity |].
      exists [WarnNavigationFailed (a + 1) (maxRetries + 1) url (messageOf e);
              Slept (1000 * 2 ^ a)].
      split; [| repeat split].
      * rewrite <- app_assoc. reflexivity.
      * intros _ Hfalse. discriminate Hfalse.
Qed.

(** What the events of attempt [k] have to look like. *)
Definition attemptEvents (k : Z) (segment : list Event) : Prop :=
  exists healthy rest,
    segment = Probed k healthy :: rest /\
    omap probeOf rest = [] /\
    if healthy
    then exists rest', rest = Navigating k :: rest' /\ filter isNavigating rest' = []
    else filter isNavigating rest = [] /\
         ((k < maxRetries)%Z -> length (filter isRecreating rest) = 1%nat).

(** From [c] to [c']: the same browser, and the journal grown by one
    segment per attempt, numbered from [a]. *)
Definition attempted (a : nat) (c c' : Crawler) : Prop :=
  browser c' = browser c /\
  exists segments : list (list Event),
    journal c' = journal c ++ concat segments /\
    forall (k : nat) segment, segments !! k = Some segment ->
      attemptEvents (Z.of_nat (a + k)) segment.

Lemma goto_loop_journal (remaining : nat) : forall (a : nat) (c : Crawler),
  (Z.of_nat a + Z.of_nat remaining = maxRetries + 1)%Z ->
  attempted a c (snd (goto_loop url spa maxRetries remaining (Z.of_nat a) c)).
Proof.
  induction remaining as [| remaining IH]; intros a c Ha.
  - cbn. split; [reflexivity |]. exists []. cbn. rewrite ?app_nil_r.
    split; [reflexivity |]. intros k segment Hk. discriminate Hk.
  - cbn [goto_loop]. unfold try_catch.
    pose proof (attemptNavigation_journal (Z.of_nat a) c) as Htry.
    destruct (attemptNavigation url spa (Z.of_nat a) c) as [[v | e] c1].
    + (* the attempt succeeds *)
      destruct Htry as [Hb [Hj | [_ Hr]]]; [| discriminate Hr].
      cbn. split; [exact Hb |].
      exists [[Probed (Z.of_nat a) true; Navigating (Z.of_nat a)]].
      cbn. rewrite ?app_nil_r. split; [exact Hj |].
      intros [| k] segment Hk; [| discriminate Hk].
      injection Hk as <-. rewrite Nat.add_0_r.
      exists true, [Navigating (Z.of_nat a)]. repeat split. eexists. split; reflexivity.
    + (* the attempt fails *)
      destruct Htry as [Hb Hshape].
      pose proof (recover_journal (Z.of_nat a) e c1)
        as (Hb2 & events & Hj2 & Hnav & Hprobe & Hrec).
      assert (Hsegment : exists first,
                journal (snd (recover url maxRetries (Z.of_nat a) e c1)) = journal c ++ first /\
                attemptEvents (Z.of_nat a) first).
      { destruct Hshape as [Hj | [Hj [= ->]]].
        - exists ([Probed (Z.of_nat a) true; Navigating (Z.of_nat a)] ++ events).
          split; [rewrite Hj2, Hj, <- app_assoc; reflexivity |].
          exists true, (Navigating (Z.of_nat a) :: events). repeat split; [exact Hprobe |].
          eexists. split; [reflexivity | exact Hnav].
        - exists ([Probed (Z.of_nat a) false] ++ events).
          split; [rewrite Hj2, Hj, <- app_assoc; reflexivity |].
          exists false, events. repeat split; [exact Hprobe | exact Hnav |].
          intros Hlt. apply Hrec; [lia | apply needsRecreation_unhealthy]. }
      destruct Hsegment as (first & Hfirst & Hevents).
      unfold bind.
      destruct (recover url maxRetries (Z.of_nat a) e c1) as [r c2] eqn:Erecover.
      cbn [snd] in Hb2, Hfirst.
      destruct (Z.eq_dec (Z.of_nat a) maxRetries) as [Hlast | Hmore].
      * (* the last attempt: the terminal error *)
        rewrite Hlast, recover_terminal in Erecover. injection Erecover as <- _.
        cbn [snd]. split; [congruence |].
        exists [first]. cbn. rewrite ?app_nil_r. split; [exact Hfirst |].
        intros [| k] segment Hk; [| discriminate Hk].
        injection Hk as <-. rewrite Nat.add_0_r. exact Hevents.
      * pose proof (recover_continues url maxRetries _ e c1 Hmore) as Hcont.
        rewrite Erecover in Hcont. cbn in Hcont. subst r.
        replace (Z.of_nat a + 1)%Z with (Z.of_nat (S a)) by lia.
        destruct (IH (S a) c2 ltac:(lia)) as (Hb3 & segments & Hj3 & Hall).
        split; [congruence |].
        exists (first :: segments). cbn [concat].
        split; [rewrite Hj3, Hfirst, <- app_assoc; reflexivity |].
        intros [| k] segment Hk.
        -- injection Hk as <-. rewrite Nat.add_0_r. exact Hevents.
        -- replace (a + S k)%nat with (S a + k)%nat by lia. apply Hall. exact Hk.
Qed.
End Journal.

(** The session in which attempt [k] of [goto] starts when the attempts
    before it failed: the one [goto] was called on, or the one that the
    [catch] block of attempt [k - 1] left. *)
Definition beforeAttempt (url : string) (spa : bool) (maxRetries : Z) (k : nat) (c : Crawler)
    : Crawler :=
  match k with
  | O => c
  | S k' =>
      match navigationNo url spa maxRetries k' c with
      | (Throw error, failed) =>
          snd (recover (normalizeUrl url) maxRetries (Z.of_nat k') error failed)
      | (Return _, done) => done
      end
  end.

(** The call of [recreatePage] in the [catch] block of an attempt, made
    after the warning. *)
Definition recreation (url : string) (maxRetries attempt : Z) (error : Thrown)
    (failed : Crawler) : Completion unit * Crawler :=
  recreatePage
    (record (Recreating attempt)
       (record (WarnNavigationFailed (attempt + 1) (maxRetries + 1) url (messageOf error))
          failed)).

Lemma navigationNo_beforeAttempt (url : string) (spa : bool) (maxRetries : Z) (k : nat)
    (c : Crawler) :
  (forall j, (j < k)%nat -> raises (fst (navigationNo url spa maxRetries j c)) = true) ->
  navigationNo url spa maxRetries k c =
  attemptNavigation (normalizeUrl url) spa (Z.of_nat k) (beforeAttempt url spa maxRetries k c).
Proof.
  intros Hfail. destruct k as [| k]; [reflexivity |].
  specialize (Hfail k ltac:(lia)). unfold beforeAttempt.
  unfold navigationNo in *. cbn [navigationFrom].
  destruct (navigationFrom _ _ _ _ k c) as [[v | e] failed]; [discriminate Hfail |].
  rewrite !Z.add_0_l. reflexivity.
Qed.

(** An unhealthy probe: the attempt throws at once, on the page it had,
    and navigates nowhere. *)
Lemma attemptNavigation_unhealthy (url : string) (spa : bool) (a : Z) (this : Crawler) :
  fst (isPageHealthy this) = Return false ->
  exists failed,
    attemptNavigation url spa a this = (Throw unhealthyError, failed) /\
    browser failed = browser this /\ page failed = page this /\
    journal failed = journal this ++ [Probed a false].
Proof.
  intros Hprobe. unfold attemptNavigation, bind, effect, throw.
  pose proof (isPageHealthy_samePage this) as (Hb & Hp & Hj).
  destruct (isPageHealthy this) as [r probed]. cbn in Hprobe, Hb, Hp, Hj. subst r. cbn.
  eexists. split; [reflexivity |]. cbn. rewrite Hj. auto.
Qed.

(** What [recreatePage] leaves: on success a page that [browser.newPage()]
    returned in this call, on failure the page the session had. *)
Lemma recreatePage_outcome (c : Crawler) :
  match recreatePage c with
  | (Return _, c') =>
      browser c' = browser c /\ journal c' = journal c /\
      exists closed opened,
        browser_newPage (browser c) closed = (Return (page c'), opened)
  | (Throw _, c') =>
      browser c' = browser c /\ journal c' = journal c /\ page c' = page c
  end.
Proof.
  unfold recreatePage. unfold bind at 1.
  assert (Hclose : keeps samePage
            (try_catch
               (this <- read id ;;
                if negb (page_isClosed (page this) (engine this))
                then call (page_close (page this))
                else ret tt)
               (fun _ => ret tt))).
  { repeat keeps_step. apply call_samePage. }
  assert (Hsettles : settles
            (try_catch
               (this <- read id ;;
                if negb (page_isClosed (page this) (engine this))
                then call (page_close (page this))
                else ret tt)
               (fun _ => ret tt : Async Crawler unit))).
  { apply settles_try_catch. intros _. apply settles_ret. }
  specialize (Hclose c). destruct (Hsettles c) as [[] Hr].
  destruct (try_catch _ _ c) as [r c1]. cbn in Hclose, Hr. subst r.
  destruct Hclose as (Hb & Hp & Hj).
  unfold bind, read, call, effect, id. cbn. rewrite Hb.
  destruct (browser_newPage (browser c) (engine c1)) as [[newPage | thrown] e1] eqn:Hnew; cbn.
  - destruct (page_setViewportSize newPage 1080 1440 e1) as [[[] | thrown] e2]; cbn.
    + destruct (page_addInitScript newPage e2) as [[[] | thrown] e3]; cbn; eauto 6.
    + auto.
  - auto.
Qed.

(** The [catch] block of an attempt that is not the last, for an error
    that asks for recreation: [recreatePage] is called once; the next
    attempt follows whether it succeeds or not. *)
Lemma recover_recreates (url : string) (maxRetries a : Z) (e : Thrown) (c : Crawler) :
  a <> maxRetries ->
  needsRecreation (messageOf e) c = true ->
  recover url maxRetries a e c =
  match recreation url maxRetries a e c with
  | (Return _, recreated) =>
      (Return tt, record (Slept (1000 * 2 ^ a)) (record (LogRecreated (a + 1)) recreated))
  | (Throw recreateError, old) =>
      (Return tt,
       record (Slept (1000 * 2 ^ a)) (record (ErrorFailedToRecreate recreateError) old))
  end.
Proof.
  intros Ha Hneeds. unfold recover, recreation, bind, try_catch, effect, read, ret, throw, sleep, id.
  destruct (Z.eqb_spec a maxRetries) as [Heq | _]; [contradiction |].
  change (needsRecreation (messageOf e) (record _ c)) with (needsRecreation (messageOf e) c).
  rewrite Hneeds.
  destruct (recreatePage _) as [[[] | recreateError] c1]; reflexivity.
Qed.

(** C3, as the code has it.  Every attempt of [goto] starts with the health probe;
    an attempt whose probe answers unhealthy issues no navigation and
    throws at once, on the page it had.  When another attempt is to
    follow, [recreatePage] is called exactly once before it: if the call
    returns, the next attempt starts on the page that
    [browser.newPage()] returned in it; if the call throws (the browser
    opens no page, say), the failure is logged and the next attempt
    starts on the page the session had.  Either way the crawler stays
    bound to the browser it had.  The journal [goto] adds is one
    segment per attempt, attempt [k] in position [k]. *)
Theorem goto_probes_and_recreates_once (url : string) (spa : bool) (maxRetries : Z)
    (c : Crawler) :
  let c' := snd (goto url spa maxRetries c) in
  (browser c' = browser c /\
   exists segments : list (list Event),
     journal c' = journal c ++ concat segments /\
     forall (k : nat) segment, segments !! k = Some segment ->
       exists healthy rest,
         segment = Probed (Z.of_nat k) healthy :: rest /\
         omap probeOf rest = [] /\
         if healthy
         then exists rest', rest = Navigating (Z.of_nat k) :: rest' /\
                            filter isNavigating rest' = []
         else filter isNavigating rest = [] /\
              ((Z.of_nat k < maxRetries)%Z ->
               length (filter isRecreating rest) = 1%nat)) /\
  (forall k : nat,
     (forall j, (j < k)%nat -> raises (fst (navigationNo url spa maxRetries j c)) = true) ->
     navigationNo url spa maxRetries k c =
     attemptNavigation (normalizeUrl url) spa (Z.of_nat k)
       (beforeAttempt url spa maxRetries k c)) /\
  (forall k : nat,
     (Z.of_nat k < maxRetries)%Z ->
     (forall j, (j < k)%nat -> raises (fst (navigationNo url spa maxRetries j c)) = true) ->
     fst (isPageHealthy (beforeAttempt url spa maxRetries k c)) = Return false ->
     let this := beforeAttempt url spa maxRetries k c in
     let next := beforeAttempt url spa maxRetries (S k) c in
     let warning :=
       WarnNavigationFailed (Z.of_nat k + 1) (maxRetries + 1) (normalizeUrl url)
         (messageOf unhealthyError) in
     let wait := Slept (1000 * 2 ^ Z.of_nat k) in
     exists failed,
       navigationNo url spa maxRetries k c = (Throw unhealthyError, failed) /\
       page failed = page this /\
       journal failed = journal this ++ [Probed (Z.of_nat k) false] /\
       browser next = browser this /\
       match recreation (normalizeUrl url) maxRetries (Z.of_nat k) unhealthyError failed with
       | (Return _, recreated) =>
           page next = page recreated /\
           (exists closed opened,
              browser_newPage (browser this) closed = (Return (page next), opened)) /\
           journal next = journal this ++
             [Probed (Z.of_nat k) false; warning; Recreating (Z.of_nat k);
              LogRecreated (Z.of_nat k + 1); wait]
       | (Throw recreateError, _) =>
           page next = page this /\
           journal next = journal this ++
             [Probed (Z.of_nat k) false; warning; Recreating (Z.of_nat k);
              ErrorFailedToRecreate recreateError; wait]
       end).
Proof.
  split; [| split].
  - unfold goto.
    destruct (Z_lt_le_dec maxRetries 0) as [Hneg | Hpos].
    + replace (Z.to_nat (maxRetries + 1)) with 0%nat by lia. cbn.
      split; [reflexivity |]. exists []. cbn. rewrite ?app_nil_r.
      split; [reflexivity |]. intros k segment Hk. discriminate Hk.
    + apply (goto_loop_journal (normalizeUrl url) spa maxRetries
               (Z.to_nat (maxRetries + 1)) 0%nat c). lia.
  - intros k. apply navigationNo_beforeAttempt.
  - intros k Hk Hfail Hprobe this next warning wait.
    destruct (attemptNavigation_unhealthy (normalizeUrl url) spa (Z.of_nat k) this Hprobe)
      as (failed & Htry & Hb & Hp & Hj).
    exists failed.
    assert (Hno : navigationNo url spa maxRetries k c = (Throw unhealthyError, failed)).
    { rewrite (navigationNo_beforeAttempt url spa maxRetries k c Hfail). exact Htry. }
    split; [exact Hno |]. split; [exact Hp |]. split; [exact Hj |].
    assert (Hnext : next = snd (recover (normalizeUrl url) maxRetries (Z.of_nat k)
                                  unhealthyError failed)).
    { subst next. cbn [beforeAttempt]. rewrite Hno. reflexivity. }
    clearbody next. subst next.
    rewrite (recover_recreates (normalizeUrl url) maxRetries (Z.of_nat k) unhealthyError failed)
      by (try lia; apply needsRecreation_unhealthy).
    pose proof (recreatePage_outcome
                  (record (Recreating (Z.of_nat k))
                     (record (WarnNavigationFailed (Z.of_nat k + 1) (maxRetries + 1)
                                (normalizeUrl url) (messageOf unhealthyError)) failed)))
      as Houtcome.
    unfold recreation.
    destruct (recreatePage _) as [[[] | recreateError] c1]; cbn [snd] in *.
    + destruct Houtcome as (Hb1 & Hj1 & closed & opened & Hnew).
      cbn in Hb1, Hj1, Hnew |- *.
      split; [rewrite Hb1; exact Hb |]. split; [reflexivity |].
      split; [exists closed, opened; rewrite <- Hb; exact Hnew |].
      rewrite Hj1, Hj, <- !app_assoc. reflexivity.
    + destruct Houtcome as (Hb1 & Hj1 & Hp1). cbn in Hb1, Hj1, Hp1 |- *.
      split; [rewrite Hb1; exact Hb |]. split; [rewrite Hp1; exact Hp |].
      rewrite Hj1, Hj, <- !app_assoc. reflexivity.
Qed.

End WithEngine.

(** With two transient failures forecast and [maxRetries = 3], the third
    attempt succeeds: [goto] returns normally, on the page it started on,
    last probed healthy. *)
Lemma goto_raises_iff_all_attempts_fail_witness :
  let c := Sim.crawlerOn [("http://example.org", [])]
    {| Sim.document := []; Sim.forecast := [Sim.TimesOut; Sim.TimesOut];
       Sim.more := []; Sim.opened := 1; Sim.closedPages := [];
       Sim.crashedPages := []; Sim.pagesLeft := 3 |} in
  goto "example.org" false 3 c = navigationNo "example.org" false 3 2 c /\
  returns (fst (goto "example.org" false 3 c)) = true /\
  lastProbe (snd (goto "example.org" false 3 c)) = Some true.
Proof.
  intros c.
  apply (proj2 (proj2 (goto_raises_iff_all_attempts_fail "example.org" false 3 c ltac:(lia)))).
  - vm_compute. lia.
  - vm_compute. reflexivity.
  - intros [| [| j]] Hj; [vm_compute; reflexivity | vm_compute; reflexivity | lia].
Defined.

(** A crawler whose page has crashed: the first probe is unhealthy, the
    page is recreated once, and the second attempt navigates on the new
    page. *)
Lemma goto_probes_and_recreates_once_witness :
  let c := Sim.crawlerOn [("https://example.org", [])]
    {| Sim.document := []; Sim.forecast := []; Sim.more := []; Sim.opened := 1;
       Sim.closedPages := []; Sim.crashedPages := [0%nat]; Sim.pagesLeft := 3 |} in
  let c' := snd (goto "https://example.org" false 3 c) in
  (journal c' =
     [Probed 0 false;
      WarnNavigationFailed 1 4 "https://example.org" "Page is unhealthy, needs recreation";
      Recreating 0; LogRecreated 1; Slept 1000; Probed 1 true; Navigating 1] /\
   page c' = 1%nat) /\
  fst (isPageHealthy (beforeAttempt "https://example.org" false 3 0 c)) = Return false /\
  exists failed,
    navigationNo "https://example.org" false 3 0 c = (Throw unhealthyError, failed) /\
    page failed = page c /\
    page (beforeAttempt "https://example.org" false 3 1 c) = 1%nat.
Proof.
  intros c c'. split; [vm_compute; split; reflexivity |].
  split; [vm_compute; reflexivity |].
  destruct (proj2 (proj2 (goto_probes_and_recreates_once "https://example.org" false 3 c))
              0%nat ltac:(lia) ltac:(intros j Hj; lia) ltac:(vm_compute; reflexivity))
    as (failed & Hfailed & Hpage & _).
  exists failed. split; [exact Hfailed |]. split; [exact Hpage |].
  vm_compute. reflexivity.
Defined.

(** C2 as stated fails for a negative [maxRetries]: the loop makes no
    attempt, so all [maxRetries + 1] attempts fail, and [goto] returns
    normally instead of throwing. *)
Lemma goto_negative_maxRetries_returns :
  ~ (forall (engine : Api) (url : string) (spa : bool) (maxRetries : Z) (c : Crawler),
       raises (fst (goto url spa maxRetries c)) = true <->
       forall k, (Z.of_nat k <= maxRetries)%Z ->
         raises (fst (navigationNo url spa maxRetries k c)) = true).
Proof.
  intros H.
  destruct (H (Sim.api []) "https://www.arbeitsagentur.de/jobsuche/" false (-1)%Z
              (Sim.crawlerOn [] Sim.blank)) as [_ Hraise].
  assert (Hfalse : raises (fst (goto "https://www.arbeitsagentur.de/jobsuche/" false (-1)
                                  (Sim.crawlerOn [] Sim.blank))) = true).
  { apply Hraise. intros k Hk. lia. }
  vm_compute in Hfalse. discriminate Hfalse.
Qed.

(** A crawler whose page has crashed and whose browser opens no further
    page. *)
Definition deadBrowser : Crawler :=
  Sim.crawlerOn [("https://example.org", [])]
    {| Sim.document := []; Sim.forecast := []; Sim.more := []; Sim.opened := 1;
       Sim.closedPages := []; Sim.crashedPages := [0%nat]; Sim.pagesLeft := 0 |}.

(** C3 as stated fails when the browser opens no page: every probe is
    unhealthy, [recreatePage] is called after each of the first three
    and throws each time, no page is opened, and every attempt starts
    on the page the session had; so an unhealthy probe is not always
    followed by a page recreation. *)
Lemma goto_unhealthy_without_recreation :
  (let c' := snd (goto "https://example.org" false 3 deadBrowser) in
   omap probeOf (journal c') = [false; false; false; false] /\
   filter isRecreating (journal c') = [Recreating 0; Recreating 1; Recreating 2] /\
   page c' = page deadBrowser /\
   Sim.opened (engine c') = Sim.opened (engine deadBrowser)) /\
  ~ (forall (engine : Api) (url : string) (spa : bool) (maxRetries : Z) (c : Crawler) (k : nat),
       (Z.of_nat k < maxRetries)%Z ->
       (forall j, (j < k)%nat -> raises (fst (navigationNo url spa maxRetries j c)) = true) ->
       fst (isPageHealthy (beforeAttempt url spa maxRetries k c)) = Return false ->
       exists failed recreated,
         navigationNo url spa maxRetries k c = (Throw unhealthyError, failed) /\
         recreation (normalizeUrl url) maxRetries (Z.of_nat k) unhealthyError failed
         = (Return tt, recreated) /\
         page (beforeAttempt url spa maxRetries (S k) c) = page recreated).
Proof.
  split; [vm_compute; repeat split; reflexivity |].
  intros Hclaim.
  destruct (Hclaim (Sim.api [("https://example.org", [])]) "https://example.org" false 3%Z
              deadBrowser 0%nat ltac:(lia) ltac:(intros j Hj; lia)
              ltac:(vm_compute; reflexivity))
    as (failed & recreated & Hfailed & Hrecreation & _).
  vm_compute in Hfailed. injection Hfailed as <-.
  vm_compute in Hrecreation. discriminate Hrecreation.
Qed.

End SessionFacts.

(** ** arbeitsagentur-crawler.ts: pagination *)

Module PaginationFacts.
Import Playwright Text Session Arbeitsagentur JsFacts AsyncFacts RequestFacts SessionFacts.

Section Pagination.
Context `{Helpers}.








End Pagination.




End PaginationFacts.

(** ** Reading the rows of the listing *)

Module ListingFacts.
Import Playwright Text Session Arbeitsagentur Sim JsFacts.

(** *** On every engine: absent exactly when the company name is missing *)

Section Absent.
Context `{Helpers}.

(** [m] never resolves to [undefined]. *)
Definition present {A} (m : Async Crawler (option A)) : Prop :=
  forall c, fst (m c) <> Return None.

Lemma present_bind {A B} (m : Async Crawler A) (k : A -> Async Crawler (option B)) :
  (forall v, present (k v)) -> present (bind m k).
Proof.
  intros Hk c. unfold bind. destruct (m c) as [[v | e] c']; [apply Hk | discriminate].
Qed.

Lemma present_ret {A} (v : A) : present (ret (Some v)).
Proof. intros c. discriminate. Qed.

Lemma readArbeitsagenturPosting_absent_iff (i : nat) (c : Crawler) :
  fst (readArbeitsagenturPosting i c) = Return None <->
  fst (getTextWithId (eintragId i "firma") c) = Return None.
Proof.
  unfold readArbeitsagenturPosting. unfold bind at 1.
  destruct (getTextWithId (eintragId i "firma") c) as [[[companyName |] | e] c1];
    cbn [fst]; [| tauto | split; discriminate].
  split; [| discriminate]. intros Habsent. exfalso. revert Habsent.
  repeat (apply present_bind; intros ?). apply present_ret.
Qed.

End Absent.

(** *** Identifiers of rows are distinct *)

Definition digits (s : string) : Prop :=
  Forall (fun c => isDigit c = true) (list_ascii_of_string s).

Lemma pretty_N_char_digit (x : N) : isDigit (pretty_N_char x) = true.
Proof. unfold pretty_N_char. repeat case_match; reflexivity. Qed.

Lemma pretty_N_go_digits (x : N) : forall s, digits s -> digits (pretty_N_go x s).
Proof.
  induction (N.lt_wf_0 x) as [x _ IH]. intros s Hs.
  destruct (decide (x = 0)%N) as [-> | Hx].
  - rewrite pretty_N_go_0. exact Hs.
  - rewrite pretty_N_go_step by lia. apply IH.
    + apply N.div_lt; lia.
    + constructor; [apply pretty_N_char_digit | exact Hs].
Qed.

Lemma pretty_nat_digits (n : nat) : digits (pretty n).
Proof.
  unfold pretty, pretty_nat, pretty, pretty_N.
  case_decide.
  - repeat constructor.
  - apply pretty_N_go_digits. constructor.
Qed.

Lemma append_inv_head (p s t : string) : p +:+ s = p +:+ t -> s = t.
Proof. induction p as [| c p IH]; cbn; [auto | intros [= Heq]; auto]. Qed.

(** Two strings of digits followed by a dash and a suffix are equal only
    when the digits and the suffixes are. *)
Lemma digits_dash_inj (s1 : string) : forall (s2 t1 t2 : string),
  digits s1 -> digits s2 ->
  s1 +:+ "-" +:+ t1 = s2 +:+ "-" +:+ t2 -> s1 = s2 /\ t1 = t2.
Proof.
  induction s1 as [| c1 s1 IH]; intros [| c2 s2] t1 t2 H1 H2 Heq; cbn in Heq.
  - injection Heq as Heq. cbn in Heq. auto.
  - injection Heq as Hc _. subst c2. apply Forall_cons in H2 as [Hc _]. discriminate Hc.
  - injection Heq as Hc _. subst c1. apply Forall_cons in H1 as [Hc _]. discriminate Hc.
  - injection Heq as Hc Heq. subst c2.
    apply Forall_cons in H1 as [_ H1]. apply Forall_cons in H2 as [_ H2].
    destruct (IH _ _ _ H1 H2 Heq) as [-> ->]. auto.
Qed.

Lemma eintragId_inj (i j : nat) (f g : string) :
  eintragId i f = eintragId j g -> i = j /\ f = g.
Proof.
  unfold eintragId. intros Heq. apply append_inv_head in Heq.
  apply digits_dash_inj in Heq as [Hp ->]; [| apply pretty_nat_digits ..].
  apply (inj pretty) in Hp. auto.
Qed.

Lemma itemId_inj (i j : nat) : itemId i = itemId j -> i = j.
Proof.
  unfold itemId. intros Heq. apply append_inv_head in Heq.
  apply (inj pretty) in Heq. exact Heq.
Qed.

Lemma eintragId_eqb (i j : nat) (f g : string) :
  String.eqb (eintragId j g) (eintragId i f) = bool_decide (j = i /\ g = f).
Proof.
  case_bool_decide as Hd.
  - destruct Hd as [-> ->]. apply String.eqb_refl.
  - apply String.eqb_neq. intros Heq. apply Hd, eintragId_inj, Heq.
Qed.

Lemma itemId_eqb (i j : nat) : String.eqb (itemId j) (itemId i) = bool_decide (j = i).
Proof.
  case_bool_decide as Hd.
  - subst. apply String.eqb_refl.
  - apply String.eqb_neq. intros Heq. apply Hd, itemId_inj, Heq.
Qed.

Lemma itemId_eintragId_eqb (i j : nat) (f : string) :
  String.eqb (itemId j) (eintragId i f) = false.
Proof. reflexivity. Qed.

Lemma empty_eintragId_eqb (i : nat) (f : string) : String.eqb "" (eintragId i f) = false.
Proof. reflexivity. Qed.

Lemma list_eintragId_eqb (i : nat) (f : string) :
  String.eqb "ergebnisliste" (eintragId i f) = false.
Proof. reflexivity. Qed.

Lemma button_eintragId_eqb (i : nat) (f : string) :
  String.eqb "ergebnisliste-ladeweitere-button" (eintragId i f) = false.
Proof. reflexivity. Qed.

Lemma empty_itemId_eqb (i : nat) : String.eqb "" (itemId i) = false.
Proof. reflexivity. Qed.

#[local] Arguments eintragId : simpl never.
#[local] Arguments itemId : simpl never.

(** *** Finding the elements of a row *)

Lemma findUnder_unfold (selector : Selector) (n : Node) :
  findUnder selector n =
  if selects selector n then Some [] else findAmong selector 0 (children n).
Proof.
  destruct n as [tag id text title href cs]. cbn [findUnder children].
  destruct (selects selector _); [reflexivity |].
  generalize 0%nat. induction cs as [| child rest IH]; intros k; [reflexivity |].
  cbn [findAmong]. destruct (findUnder selector child); [reflexivity | apply IH].
Qed.

(** The child position of each field of a row under its link. *)
Definition fieldPosition (field : string) (position : nat) : Prop :=
  In (field, position)
    [("firma", 0%nat); ("beruf", 1%nat); ("arbeitsort", 2%nat);
     ("eintrittsdatum", 3%nat); ("veroeffentlichungsdatum", 4%nat)].

Lemma findUnder_field (i j : nat) (r : Row) (field : string) (position : nat) :
  fieldPosition field position ->
  findUnder (ById (eintragId i field)) (rowNode j r) =
  if decide (j = i) then Some [0%nat; 0%nat; position] else None.
Proof.
  unfold fieldPosition. cbn [In]. intros Hfield.
  unfold rowNode, span. rewrite !findUnder_unfold.
  cbn [selects children findAmong].
  rewrite !findUnder_unfold. cbn [selects children findAmong].
  rewrite !findUnder_unfold. cbn [selects children findAmong].
  rewrite !findUnder_unfold. cbn [selects children findAmong].
  rewrite !empty_eintragId_eqb, !itemId_eintragId_eqb, !eintragId_eqb.
  destruct (decide (j = i)) as [-> | Hne].
  - destruct Hfield as [[= <- <-] | [[= <- <-] | [[= <- <-] | [[= <- <-] | [[= <- <-] | []]]]]];
      repeat first
        [ rewrite bool_decide_eq_false_2 by (intros [_ Hf]; discriminate Hf)
        | rewrite bool_decide_eq_true_2 by (split; reflexivity) ];
      reflexivity.
  - rewrite !bool_decide_eq_false_2 by (intros [Hj _]; contradiction). reflexivity.
Qed.

Lemma findUnder_item (i j : nat) (r : Row) :
  findUnder (ByTagAndId "a" (itemId i)) (rowNode j r) =
  if decide (j = i) then Some [0%nat; 0%nat] else None.
Proof.
  unfold rowNode, span. rewrite !findUnder_unfold.
  cbn [selects children findAmong].
  rewrite !findUnder_unfold. cbn [selects children findAmong].
  rewrite !findUnder_unfold. cbn [selects children findAmong].
  rewrite !findUnder_unfold. cbn [selects children findAmong].
  rewrite !itemId_eqb.
  change (String.eqb "li" "a") with false.
  change (String.eqb "div" "a") with false.
  change (String.eqb "a" "a") with true.
  change (String.eqb "span" "a") with false.
  cbn [andb].
  destruct (decide (j = i)) as [-> | Hne].
  - rewrite bool_decide_eq_true_2 by reflexivity. reflexivity.
  - rewrite bool_decide_eq_false_2 by assumption. reflexivity.
Qed.

(** Among the rows, a selector that finds its element in the row of index
    [i] only, finds it in the first such row. *)
Lemma findAmong_rows (selector : Selector) (i : nat) (inRow : list nat) (rows : list (nat * Row)) :
  (forall j r, findUnder selector (rowNode j r) = if decide (j = i) then Some inRow else None) ->
  forall k,
  findAmong selector k (rowNodes rows) =
  (fun found => (k + fst found)%nat :: inRow) <$> list_find (fun entry => fst entry = i) rows.
Proof.
  intros Hrow. induction rows as [| [j r] rows IH]; intros k; [reflexivity |].
  cbn [rowNodes fmap list_fmap findAmong fst snd]. rewrite Hrow.
  cbn [list_find fst]. destruct (decide (j = i)) as [-> | Hne].
  - cbn. rewrite Nat.add_0_r. reflexivity.
  - fold (rowNodes rows). rewrite IH.
    destruct (list_find _ rows) as [[n e] |]; cbn; [| reflexivity].
    repeat f_equal. lia.
Qed.

Lemma findAmong_listing_field (i : nat) (field : string) (position : nat) (rows : list (nat * Row)) :
  fieldPosition field position ->
  findAmong (ById (eintragId i field)) 0 (listing rows) =
  (fun found => [0%nat; fst found; 0%nat; 0%nat; position]) <$>
    list_find (fun entry => fst entry = i) rows.
Proof.
  intros Hfield. unfold listing. cbn [findAmong].
  rewrite !findUnder_unfold. cbn [selects children].
  rewrite list_eintragId_eqb, button_eintragId_eqb.
  rewrite (findAmong_rows _ i [0%nat; 0%nat; position]).
  - destruct (list_find _ rows) as [[n e] |]; reflexivity.
  - intros j r. apply findUnder_field, Hfield.
Qed.

Lemma findAmong_listing_item (i : nat) (rows : list (nat * Row)) :
  findAmong (ByTagAndId "a" (itemId i)) 0 (listing rows) =
  (fun found => [0%nat; fst found; 0%nat; 0%nat]) <$>
    list_find (fun entry => fst entry = i) rows.
Proof.
  unfold listing. cbn [findAmong].
  rewrite !findUnder_unfold. cbn [selects children].
  change (String.eqb "ul" "a") with false.
  change (String.eqb "button" "a") with false.
  cbn [andb].
  rewrite (findAmong_rows _ i [0%nat; 0%nat]).
  - destruct (list_find _ rows) as [[n e] |]; reflexivity.
  - intros j r. apply findUnder_item.
Qed.

(** *** Reading from a page that is alive *)

Section OnListing.
Variable site : list (string * list Node).
Context {helpers : @Helpers (api site)}.
Variable c : @Crawler (api site).
Hypothesis page_alive : alive (page c) (engine c) = true.

Lemma with_engine_same : with_engine (engine c) c = c.
Proof. destruct c. reflexivity. Qed.

Lemma query_alive (selector : Selector) :
  query selector c = (Return (findAmong selector 0 (document (engine c))), c).
Proof.
  unfold query, bind, read, call. cbn. unfold onPage.
  pose proof page_alive as Ha.
  unfold alive in Ha. apply andb_true_iff in Ha as [Hc Hd].
  apply negb_true_iff in Hc, Hd. rewrite Hc, Hd. cbn.
  rewrite with_engine_same. reflexivity.
Qed.

Lemma getTextWithId_alive (id : string) :
  getTextWithId id c =
  match findAmong (ById id) 0 (document (engine c)) with
  | None => (Return None, c)
  | Some path =>
      match nodeAt path (document (engine c)) with
      | Some n => (Return (Some (innerTextOf n)), c)
      | None => (Throw detachedError, c)
      end
  end.
Proof.
  unfold getTextWithId. unfold bind at 1. rewrite query_alive.
  destruct (findAmong _ _ _) as [path |]; [| reflexivity].
  unfold evaluateIfPresent, bind, call, ret. cbn. unfold elementAt.
  destruct (nodeAt path _); rewrite with_engine_same; reflexivity.
Qed.

Lemma getTitleAttrWithId_alive (id : string) :
  getTitleAttrWithId id c =
  match findAmong (ById id) 0 (document (engine c)) with
  | None => (Return None, c)
  | Some path =>
      match nodeAt path (document (engine c)) with
      | Some n => (Return (Some (titleOf n)), c)
      | None => (Throw detachedError, c)
      end
  end.
Proof.
  unfold getTitleAttrWithId. unfold bind at 1. rewrite query_alive.
  destruct (findAmong _ _ _) as [path |]; [| reflexivity].
  unfold evaluateIfPresent, bind, call, ret. cbn. unfold elementAt.
  destruct (nodeAt path _); rewrite with_engine_same; reflexivity.
Qed.

Lemma getLinkItem_alive (id : string) :
  getLinkItem id c =
  match findAmong (ByTagAndId "a" id) 0 (document (engine c)) with
  | None => (Throw (Error ("Link with selector " +:+ id +:+ " not found")), c)
  | Some path => (Return path, c)
  end.
Proof.
  unfold getLinkItem. unfold bind at 1. rewrite query_alive.
  destruct (findAmong _ _ _); reflexivity.
Qed.

Variable rows : list (nat * Row).
Hypothesis on_listing : document (engine c) = listing rows.

Lemma nodeAt_row (n : nat) (i : nat) (r : Row) (p : nat) (path : list nat) :
  rows !! n = Some (i, r) ->
  nodeAt (0%nat :: n :: p :: path) (listing rows) =
  nodeAt (p :: path) (children (rowNode i r)).
Proof.
  intros Hn. unfold listing. cbn [nodeAt lookup list_lookup mbind option_bind children].
  unfold rowNodes. rewrite list_lookup_fmap, Hn. reflexivity.
Qed.

Lemma nodeAt_row_itself (n : nat) (i : nat) (r : Row) :
  rows !! n = Some (i, r) ->
  nodeAt [0%nat; n] (listing rows) = Some (rowNode i r).
Proof.
  intros Hn. unfold listing. cbn [nodeAt lookup list_lookup mbind option_bind children].
  unfold rowNodes. rewrite list_lookup_fmap, Hn. reflexivity.
Qed.

Lemma removeAt_row (n : nat) : removeAt [0%nat; n] (listing rows) = listing (delete n rows).
Proof.
  unfold listing. cbn. unfold rowNodes. rewrite list_fmap_delete. reflexivity.
Qed.

(** Reading an index no row has: absent, and nothing changes. *)
Lemma readArbeitsagenturPosting_absent (i : nat) :
  list_find (fun entry => fst entry = i) rows = None ->
  readArbeitsagenturPosting i c = (Return None, c).
Proof.
  intros Hnone. unfold readArbeitsagenturPosting. unfold bind at 1.
  rewrite getTextWithId_alive, on_listing.
  rewrite (findAmong_listing_field i "firma" 0) by (left; reflexivity).
  rewrite Hnone. reflexivity.
Qed.

(** The page once the row at position [n] was removed. *)
Definition without (n : nat) : @Crawler (api site) :=
  @with_engine (api site) (show (listing (delete n rows)) (engine c)) c.

Lemma element_href_row (n i : nat) (r : Row) :
  rows !! n = Some (i, r) ->
  call (@element_href (api site) [0%nat; n; 0%nat; 0%nat]) c = (Return (link r), c).
Proof.
  intros Hrow. unfold call. cbn [element_href api]. unfold elementAt.
  rewrite on_listing, (nodeAt_row n i r) by exact Hrow.
  cbn. rewrite with_engine_same. reflexivity.
Qed.

Lemma deleteOuterElement_row (n i : nat) (r : Row) :
  rows !! n = Some (i, r) ->
  @deleteOuterElement (api site) [0%nat; n; 0%nat; 0%nat] 2 c = (Return tt, without n).
Proof.
  intros Hrow. unfold deleteOuterElement. change (Z.to_nat 2) with 2%nat.
  cbn [climb]. unfold bind at 1. unfold bind at 1.
  unfold call at 1. cbn [element_parentElement api]. unfold parentOf at 1, elementAt.
  rewrite on_listing, (nodeAt_row n i r) by exact Hrow.
  cbn [nodeAt rowNode children lookup list_lookup mbind option_bind removelast].
  rewrite with_engine_same.
  unfold bind at 1. unfold call at 1. cbn [element_parentElement api].
  unfold parentOf, elementAt.
  rewrite on_listing, (nodeAt_row n i r) by exact Hrow.
  cbn [nodeAt rowNode children lookup list_lookup mbind option_bind removelast].
  rewrite with_engine_same. cbn [climb ret].
  unfold call. cbn [element_remove api]. unfold effect.
  rewrite on_listing, removeAt_row. reflexivity.
Qed.

(** Reading the index of a row: its five fields and its link are read,
    the row is removed, and the posting is made of what was read. *)
Lemma readArbeitsagenturPosting_present (i n : nat) (r : Row) :
  list_find (fun entry => fst entry = i) rows = Some (n, (i, r)) ->
  readArbeitsagenturPosting i c =
  match
    makePosting (firma r) (Some (beruf r)) (Some (arbeitsort r)) (Some (eintrittsdatum r))
      (if truthy (Some (veroeffentlicht r))
       then Some (removeFirst "Veröffentlichungsdatum: " (veroeffentlicht r)) else None)
      (link r) (without n)
  with
  | (Return posting, c') => (Return (Some posting), c')
  | (Throw e, c') => (Throw e, c')
  end.
Proof.
  intros Hfind. pose proof Hfind as Hrow. apply list_find_Some in Hrow as (Hrow & _ & _).
  unfold readArbeitsagenturPosting.
  unfold bind at 1. rewrite getTextWithId_alive, on_listing.
  rewrite (findAmong_listing_field i "firma" 0) by (cbv; tauto).
  rewrite Hfind. cbn [fmap option_fmap option_map fst].
  rewrite (nodeAt_row n i r) by exact Hrow. cbn [nodeAt rowNode children lookup list_lookup mbind option_bind span innerTextOf].
  unfold bind at 1. rewrite getTextWithId_alive, on_listing.
  rewrite (findAmong_listing_field i "beruf" 1) by (cbv; tauto).
  rewrite Hfind. cbn [fmap option_fmap option_map fst].
  rewrite (nodeAt_row n i r) by exact Hrow. cbn [nodeAt rowNode children lookup list_lookup mbind option_bind span innerTextOf].
  unfold bind at 1. rewrite getTextWithId_alive, on_listing.
  rewrite (findAmong_listing_field i "arbeitsort" 2) by (cbv; tauto).
  rewrite Hfind. cbn [fmap option_fmap option_map fst].
  rewrite (nodeAt_row n i r) by exact Hrow. cbn [nodeAt rowNode children lookup list_lookup mbind option_bind span innerTextOf].
  unfold bind at 1. rewrite getTextWithId_alive, on_listing.
  rewrite (findAmong_listing_field i "eintrittsdatum" 3) by (cbv; tauto).
  rewrite Hfind. cbn [fmap option_fmap option_map fst].
  rewrite (nodeAt_row n i r) by exact Hrow. cbn [nodeAt rowNode children lookup list_lookup mbind option_bind span innerTextOf].
  unfold bind at 1. rewrite getTitleAttrWithId_alive, on_listing.
  rewrite (findAmong_listing_field i "veroeffentlichungsdatum" 4) by (cbv; tauto).
  rewrite Hfind. cbn [fmap option_fmap option_map fst].
  rewrite (nodeAt_row n i r) by exact Hrow. cbn [nodeAt rowNode children lookup list_lookup mbind option_bind span titleOf].
  unfold bind at 1. rewrite getLinkItem_alive, on_listing.
  rewrite findAmong_listing_item, Hfind. cbn [fmap option_fmap option_map fst].
  unfold bind at 1. rewrite (element_href_row n i r) by exact Hrow.
  unfold bind at 1. rewrite (deleteOuterElement_row n i r) by exact Hrow.
  unfold bind, ret.
  destruct (makePosting _ _ _ _ _ _ _) as [[posting | e] c']; reflexivity.
Qed.

End OnListing.

(** *** A listing that holds the rows 0 .. N-1 *)

Lemma lookup_numbered (from : nat) (rows : list Row) (n : nat) :
  numbered from rows !! n = (fun r => ((from + n)%nat, r)) <$> rows !! n.
Proof.
  unfold numbered. rewrite lookup_zip_with.
  destruct (rows !! n) as [r |] eqn:Hr.
  - rewrite lookup_seq_lt by (apply lookup_lt_Some in Hr; exact Hr). reflexivity.
  - destruct (seq from (length rows) !! n); reflexivity.
Qed.

Lemma list_find_numbered (rows : list Row) (i : nat) (r : Row) :
  rows !! i = Some r ->
  list_find (fun entry => fst entry = i) (numbered 0 rows) = Some (i, (i, r)).
Proof.
  intros Hr. apply list_find_Some. split; [| split].
  - rewrite lookup_numbered, Hr. reflexivity.
  - reflexivity.
  - intros j [k r'] Hj Hlt Heq. cbn in Heq. subst k.
    rewrite lookup_numbered in Hj. destruct (rows !! j); [| discriminate Hj].
    injection Hj as Hj _. cbn in Hj. lia.
Qed.

Lemma list_find_numbered_none (rows : list Row) (i : nat) :
  (length rows <= i)%nat ->
  list_find (fun entry => fst entry = i) (numbered 0 rows) = None.
Proof.
  intros Hi. apply list_find_None. apply Forall_forall. intros [k r] Hin Heq.
  cbn in Heq. subst k. apply list_elem_of_lookup in Hin as [n Hn].
  rewrite lookup_numbered in Hn. destruct (rows !! n) eqn:Hr; [| discriminate Hn].
  apply lookup_lt_Some in Hr. injection Hn as Hn _. cbn in Hn. lia.
Qed.

(** What becomes of the publication date of a row: [null] when the title
    or what is left of it is empty, else its conversion, which throws on
    what is no date. *)
Definition postDateOf {site} {helpers : @Helpers (api site)} (r : Row)
    : Completion (option string) :=
  if truthy (Some (veroeffentlicht r)) then
    match removeFirst "Veröffentlichungsdatum: " (veroeffentlicht r) with
    | EmptyString => Return None
    | cleanPostDate =>
        match @germanDateToISOString (api site) helpers cleanPostDate with
        | Return iso => Return (Some iso)
        | Throw e => Throw e
        end
    end
  else Return None.

Lemma makePosting_row {site} {helpers : @Helpers (api site)} (r : Row)
    (c : @Crawler (api site)) :
  match postDateOf r with
  | Return date =>
      exists posting,
        makePosting (firma r) (Some (beruf r)) (Some (arbeitsort r)) (Some (eintrittsdatum r))
          (if truthy (Some (veroeffentlicht r))
           then Some (removeFirst "Veröffentlichungsdatum: " (veroeffentlicht r)) else None)
          (link r) c = (Return posting, c) /\
        company_name posting = trim (removeFirst ("Arbeitgeber:" +:+ newline) (firma r)) /\
        arbeitsagentur_id posting = lastField "/" (link r) /\
        post_date posting = date
  | Throw e =>
      makePosting (firma r) (Some (beruf r)) (Some (arbeitsort r)) (Some (eintrittsdatum r))
        (if truthy (Some (veroeffentlicht r))
         then Some (removeFirst "Veröffentlichungsdatum: " (veroeffentlicht r)) else None)
        (link r) c = (Throw e, c)
  end.
Proof.
  unfold postDateOf, makePosting.
  destruct (truthy (Some (veroeffentlicht r))).
  - destruct (removeFirst _ (veroeffentlicht r)) as [| ch rest].
    + unfold bind, ret. eexists. repeat split.
    + unfold bind, ret. destruct (germanDateToISOString _) as [iso | e]; [| reflexivity].
      eexists. repeat split.
  - unfold bind, ret. eexists. repeat split.
Qed.

(** C7, as the code has it.  On every engine, [readArbeitsagenturPosting(i)]
    resolves to the absent result exactly when the lookup of the
    company-name element of row [i] finds nothing.  On a listing page
    that holds the rows 0 .. N-1, reading an index below N removes the
    row from the page; it returns the posting of that row when the
    publication date of the row is empty or convertible, and throws
    what the conversion threw when it is not.  Reading index N returns
    absent, throws nothing and changes nothing. *)
Theorem readArbeitsagenturPosting_absent_exactly_when_missing :
  (forall (engine : Api) (helpers : Helpers) (i : nat) (c : Crawler),
     fst (readArbeitsagenturPosting i c) = Return None <->
     fst (getTextWithId (eintragId i "firma") c) = Return None) /\
  (forall (site : list (string * list Node)) (helpers : @Helpers (api site))
          (rows : list Row) (c : @Crawler (api site)),
     alive (page c) (engine c) = true ->
     document (engine c) = listing (numbered 0 rows) ->
     (forall i r, rows !! i = Some r ->
        exists c' : @Crawler (api site),
          document (engine c') = listing (delete i (numbered 0 rows)) /\
          match postDateOf r with
          | Return date =>
              exists posting,
                readArbeitsagenturPosting i c = (Return (Some posting), c') /\
                company_name posting
                = trim (removeFirst ("Arbeitgeber:" +:+ newline) (firma r)) /\
                arbeitsagentur_id posting = lastField "/" (link r) /\
                post_date posting = date
          | Throw e => readArbeitsagenturPosting i c = (Throw e, c')
          end) /\
     readArbeitsagenturPosting (length rows) c = (Return None, c)).
Proof.
  split.
  - intros engine helpers i c. apply readArbeitsagenturPosting_absent_iff.
  - intros site helpers rows c Halive Hdoc. split.
    + intros i r Hr. exists (without site c (numbered 0 rows) i). split; [reflexivity |].
      rewrite (readArbeitsagenturPosting_present site c Halive _ Hdoc i i r)
        by (apply list_find_numbered, Hr).
      pose proof (makePosting_row r (without site c (numbered 0 rows) i)) as Hmade.
      destruct (postDateOf r) as [date | e].
      * destruct Hmade as (posting & -> & Hname & Hid & Hdate).
        exists posting. repeat split; assumption.
      * rewrite Hmade. reflexivity.
    + apply (readArbeitsagenturPosting_absent site c Halive _ Hdoc).
      apply list_find_numbered_none. lia.
Qed.

(** A page with two rows: index 1 reads as a posting, index 2 as absent. *)
Lemma readArbeitsagenturPosting_absent_exactly_when_missing_witness :
  let row := {| firma := "Arbeitgeber:" +:+ newline +:+ "ACME GmbH"; beruf := "Koch";
                arbeitsort := "Berlin"; eintrittsdatum := "ab sofort";
                veroeffentlicht := "Veröffentlichungsdatum: 01.02.2024";
                link := "https://www.arbeitsagentur.de/jobsuche/jobdetail/10000-1-S" |} in
  let c := crawlerOn [] (show (listing (numbered 0 [row; row])) blank) in
  (exists posting c',
     @readArbeitsagenturPosting _ (Sim.helpers []) 1 c = (Return (Some posting), c') /\
     company_name posting = "ACME GmbH" /\
     arbeitsagentur_id posting = "10000-1-S" /\
     document (engine c') = listing (numbered 0 [row])) /\
  @readArbeitsagenturPosting _ (Sim.helpers []) 2 c = (Return None, c).
Proof.
  intros row c.
  destruct (proj2 readArbeitsagenturPosting_absent_exactly_when_missing
              [] (Sim.helpers []) [row; row] c eq_refl eq_refl) as [Hrows Habsent].
  split; [| exact Habsent].
  destruct (Hrows 1%nat row eq_refl) as (c' & Hdoc & Hread).
  change (@postDateOf [] (Sim.helpers []) row) with (Return (Some "01.02.2024") : Completion (option string)) in Hread.
  destruct Hread as (posting & Hread & Hname & Hid & _).
  exists posting, c'. split; [exact Hread |].
  split; [rewrite Hname; vm_compute; reflexivity |].
  split; [rewrite Hid; vm_compute; reflexivity | exact Hdoc].
Defined.

(** C7 as stated fails on a row whose publication date is no date: the
    row is read and removed from the page, then the conversion of the
    date throws; reading an index below N does not return a posting. *)
Lemma readArbeitsagenturPosting_throws_on_the_date :
  (let row := {| firma := "Arbeitgeber:" +:+ newline +:+ "ACME GmbH"; beruf := "Koch";
                 arbeitsort := "Berlin"; eintrittsdatum := "ab sofort";
                 veroeffentlicht := "Veröffentlichungsdatum: heute";
                 link := "https://www.arbeitsagentur.de/jobsuche/jobdetail/10000-1-S" |} in
   let c := crawlerOn [] (show (listing (numbered 0 [row])) blank) in
   exists c' : @Crawler (api []),
     @readArbeitsagenturPosting _ (Sim.helpers []) 0 c = (Throw (Error "Invalid time value"), c') /\
     document (engine c') = listing []) /\
  ~ (forall (site : list (string * list Node)) (helpers : @Helpers (api site))
            (rows : list Row) (c : @Crawler (api site)),
       alive (page c) (engine c) = true ->
       document (engine c) = listing (numbered 0 rows) ->
       forall i r, rows !! i = Some r ->
         exists posting c', readArbeitsagenturPosting i c = (Return (Some posting), c')).
Proof.
  split.
  - intros row c. eexists. split; vm_compute; reflexivity.
  - intros Hclaim.
    set (row := {| firma := "A"; beruf := "Koch"; arbeitsort := "Berlin";
                   eintrittsdatum := ""; veroeffentlicht := "heute"; link := "/1" |}).
    destruct (Hclaim [] (Sim.helpers []) [row]
                (crawlerOn [] (show (listing (numbered 0 [row])) blank))
                eq_refl eq_refl 0%nat row eq_refl) as (posting & c' & Hread).
    vm_compute in Hread. discriminate Hread.
Qed.

End ListingFacts.


(** ** arbeitsagentur-crawler.ts: enrichment *)

Module EnrichmentFacts.
Import Playwright Text Session Arbeitsagentur JsFacts AsyncFacts RequestFacts SessionFacts.

(** *** groupBy *)

(** The items of [array], numbered from [index], whose group is [key]. *)
Fixpoint members {T K} `{EqDecision K} (getGroup : T -> nat -> K) (key : K)
    (array : list T) (index : nat) : list T :=
  match array with
  | [] => []
  | item :: rest =>
      (if decide (getGroup item index = key) then [item] else []) ++
      members getGroup key rest (S index)
  end.

Definition push {T K} `{Countable K} (getGroup : T -> nat -> K)
    (result : gmap K (list T)) (item : T) (index : nat) : gmap K (list T) :=
  let groupKey := getGroup item index in
  let result :=
    match result !! groupKey with
    | None => <[groupKey := []]> result
    | Some _ => result
    end in
  alter (fun group => group ++ [item]) groupKey result.

Lemma push_lookup {T K} `{Countable K} (getGroup : T -> nat -> K)
    (result : gmap K (list T)) (item : T) (index : nat) (key : K) :
  push getGroup result item index !! key =
  if decide (getGroup item index = key)
  then Some (default [] (result !! key) ++ [item])
  else result !! key.
Proof.
  unfold push. destruct (decide (getGroup item index = key)) as [<- | Hne].
  - rewrite lookup_alter_eq. destruct (result !! getGroup item index) as [group |] eqn:E.
    + rewrite E. reflexivity.
    + rewrite lookup_insert_eq. reflexivity.
  - rewrite lookup_alter_ne by exact Hne.
    destruct (result !! getGroup item index); [reflexivity |].
    apply lookup_insert_ne. exact Hne.
Qed.

Lemma reduce_from_push {T K} `{Countable K} (getGroup : T -> nat -> K) (key : K)
    (array : list T) : forall (index : nat) (result : gmap K (list T)),
  ArrayUtil.reduce_from (push getGroup) array index result !! key =
  match result !! key, members getGroup key array index with
  | None, [] => None
  | group, found => Some (default [] group ++ found)
  end.
Proof.
  induction array as [| item rest IH]; intros index result; cbn [ArrayUtil.reduce_from members].
  - destruct (result !! key); cbn; rewrite ?app_nil_r; reflexivity.
  - rewrite IH, push_lookup.
    destruct (decide (getGroup item index = key)); cbn [app].
    + destruct (result !! key) as [group |]; simpl;
        rewrite <- ?app_assoc; simpl; reflexivity.
    + reflexivity.
Qed.

(** The group of a key holds the items of that key in the order of the
    array; a key of no item has no group. *)
Lemma groupBy_lookup {T K} `{Countable K} (array : list T) (getGroup : T -> nat -> K) (key : K) :
  ArrayUtil.groupBy array getGroup !! key =
  match members getGroup key array 0 with
  | [] => None
  | found => Some found
  end.
Proof.
  unfold ArrayUtil.groupBy. change (fun result item index => _) with (push getGroup).
  rewrite reduce_from_push, lookup_empty. destruct (members _ _ _ _); reflexivity.
Qed.

Lemma members_seq {K} `{EqDecision K} (group : nat -> K) (key : K) (count : nat) :
  forall from,
  members (fun (_ : nat) i => group i) key (seq from count) from =
  filter (fun i => group i = key) (seq from count).
Proof.
  induction count as [| count IH]; intros from; [reflexivity |].
  cbn [seq members]. rewrite IH, filter_cons.
  destruct (decide (group from = key)); reflexivity.
Qed.

(** The partition of a batch: position [i] is in the group of
    [i % length]. *)
Lemma groupedPostings_lookup (length count : nat) (key : option nat) :
  groupedPostings length count !! key =
  match filter (fun i => positionModulo length i = key) (seq 0 count) with
  | [] => None
  | found => Some found
  end.
Proof.
  unfold groupedPostings. rewrite groupBy_lookup, members_seq. reflexivity.
Qed.

Lemma groupedPostings_ten_over_three :
  groupedPostings 3 10 =
  {[ Some 0%nat := [0; 3; 6; 9]%nat; Some 1%nat := [1; 4; 7]%nat; Some 2%nat := [2; 5; 8]%nat ]}.
Proof. vm_compute. reflexivity. Qed.

(** *** What the steps of a worker leave untouched *)

Lemma backoff_loop_keeps {W T} (R : W -> W -> Prop) `{!Reflexive R, !Transitive R}
    (setTimeout : Z -> W -> W) (fn : Async W T) (n d : Z) :
  (forall ms w, R w (setTimeout ms w)) ->
  keeps R fn ->
  forall remaining attempt error,
    keeps R (Request.backoff_loop setTimeout fn n d remaining attempt error).
Proof.
  intros Hsleep Hfn. induction remaining as [| remaining IH]; intros attempt error;
    cbn [Request.backoff_loop].
  - apply keeps_throw; assumption.
  - apply keeps_try_catch; try assumption. intros err.
    destruct (attempt =? n - 1)%Z; [apply keeps_throw; assumption |].
    apply keeps_bind; try assumption; [apply keeps_effect, Hsleep | intros _; apply IH].
Qed.

Lemma backoff_loop_always_fails {W T} (setTimeout : Z -> W -> W) (fn : Async W T) (n d : Z) :
  (forall w, raises (fst (fn w)) = true) ->
  forall remaining attempt error w,
    raises (fst (Request.backoff_loop setTimeout fn n d remaining attempt error w)) = true.
Proof.
  intros Hfn. induction remaining as [| remaining IH]; intros attempt error w;
    cbn [Request.backoff_loop]; [reflexivity |].
  unfold try_catch. specialize (Hfn w).
  destruct (fn w) as [[v | err] w']; cbn in Hfn; [discriminate Hfn |].
  destruct (attempt =? n - 1)%Z; [reflexivity |].
  unfold bind, effect. apply IH.
Qed.

Section Pool.
Context `{Helpers}.

(** The objects of the batch are as they were. *)
Definition sameStore (w w' : Pool) : Prop := store w' = store w.

(** The object at position [j] is as it was, and no object came or went. *)
Definition untouched (j : nat) (w w' : Pool) : Prop :=
  store w' !! j = store w !! j /\ length (store w') = length (store w).

#[local] Instance sameStore_refl : Reflexive sameStore.
Proof. intros w. reflexivity. Qed.
#[local] Instance sameStore_trans : Transitive sameStore.
Proof. intros a b c Hab Hbc. unfold sameStore in *. congruence. Qed.
#[local] Instance untouched_refl j : Reflexive (untouched j).
Proof. intros w. split; reflexivity. Qed.
#[local] Instance untouched_trans j : Transitive (untouched j).
Proof. intros a b c [] []. split; congruence. Qed.

Lemma sameStore_untouched (j : nat) {A} (m : Async Pool A) :
  keeps sameStore m -> keeps (untouched j) m.
Proof. intros Hm w. specialize (Hm w). unfold sameStore in Hm. split; rewrite Hm; reflexivity. Qed.

Lemma onCrawler_sameStore {A} (crawlerIndex : option nat) (method : Async Crawler A) :
  keeps sameStore (onCrawler crawlerIndex method).
Proof.
  intros w. unfold onCrawler.
  destruct (crawlerIndex ≫= _) as [[k crawler] |]; [| reflexivity].
  destruct (method crawler); reflexivity.
Qed.

Lemma navigateToDetail_sameStore (crawlerIndex : option nat) (url : string) (requestCount : Z) :
  keeps sameStore (navigateToDetail crawlerIndex url requestCount).
Proof.
  unfold navigateToDetail, Request.exponentialBackoff.
  apply keeps_bind; try typeclasses eauto.
  - destruct (_ && _); [apply onCrawler_sameStore | apply keeps_ret; typeclasses eauto].
  - intros _. apply backoff_loop_keeps; try typeclasses eauto.
    + intros ms w. reflexivity.
    + apply keeps_try_catch; try typeclasses eauto;
        [| intros _]; apply onCrawler_sameStore.
Qed.

Lemma readDetails_sameStore (crawlerIndex : option nat) :
  keeps sameStore (readDetails crawlerIndex).
Proof.
  unfold readDetails.
  repeat (apply keeps_bind; try typeclasses eauto; [apply onCrawler_sameStore | intros ?]).
  apply keeps_ret; typeclasses eauto.
Qed.

Lemma assign_untouched (j posting : nat) (update : Posting -> Posting) :
  j <> posting -> keeps (untouched j) (assign posting update).
Proof.
  intros Hne w. unfold assign, effect, untouched. cbn.
  split; [apply list_lookup_alter_ne; congruence | apply length_alter].
Qed.

Lemma assign_settles (posting : nat) (update : Posting -> Posting) :
  settles (assign posting update).
Proof. apply settles_effect. Qed.

Lemma assignDetails_settles (posting : nat) details : settles (assignDetails posting details).
Proof.
  destruct details as [[[address beschreibung] link] companySize]. unfold assignDetails.
  repeat (apply settles_bind; [apply assign_settles | intros _]).
  destruct beschreibung as [[| ch rest] |];
    repeat first
      [ apply settles_ret
      | apply assign_settles
      | apply settles_bind; [apply assign_settles | intros _] ].
Qed.

Lemma assignDetails_untouched (j posting : nat) details :
  j <> posting -> keeps (untouched j) (assignDetails posting details).
Proof.
  intros Hne. destruct details as [[[address beschreibung] link] companySize].
  unfold assignDetails.
  repeat (apply keeps_bind; try typeclasses eauto; [apply assign_untouched, Hne | intros _]).
  destruct beschreibung as [[| ch rest] |];
    repeat first
      [ apply keeps_ret; typeclasses eauto
      | apply assign_untouched, Hne
      | apply keeps_bind; try typeclasses eauto; [apply assign_untouched, Hne | intros _] ].
Qed.

(** The assignments are to the six fields that enrichment owns and keep
    the number of objects. *)
Definition sameSize (w w' : Pool) : Prop := length (store w') = length (store w).

#[local] Instance sameSize_refl : Reflexive sameSize.
Proof. intros w. reflexivity. Qed.
#[local] Instance sameSize_trans : Transitive sameSize.
Proof. intros a b c Hab Hbc. unfold sameSize in *. congruence. Qed.

Lemma sameStore_sameSize {A} (m : Async Pool A) : keeps sameStore m -> keeps sameSize m.
Proof. intros Hm w. specialize (Hm w). unfold sameStore, sameSize in *. congruence. Qed.

Lemma extractDetails_sameSize (crawlerIndex : option nat) (posting : nat) :
  keeps sameSize (extractDetails crawlerIndex posting).
Proof.
  unfold extractDetails. apply keeps_bind; try typeclasses eauto.
  - apply sameStore_sameSize, readDetails_sameStore.
  - intros [[[address beschreibung] link] companySize]. unfold assignDetails.
    assert (Hassign : forall update, keeps sameSize (assign posting update)).
    { intros update w. unfold assign, effect, sameSize. cbn. apply length_alter. }
    repeat (apply keeps_bind; try typeclasses eauto; [apply Hassign | intros _]).
    destruct beschreibung as [[| ch rest] |];
      repeat first
        [ apply keeps_ret; typeclasses eauto
        | apply Hassign
        | apply keeps_bind; try typeclasses eauto; [apply Hassign | intros _] ].
Qed.

Lemma extractDetails_untouched (crawlerIndex : option nat) (j posting : nat) :
  j <> posting -> keeps (untouched j) (extractDetails crawlerIndex posting).
Proof.
  intros Hne. unfold extractDetails. apply keeps_bind; try typeclasses eauto.
  - apply sameStore_untouched, readDetails_sameStore.
  - intros details. apply assignDetails_untouched, Hne.
Qed.

(** A failed extraction threw while reading, before any assignment. *)
Lemma extractDetails_throws (crawlerIndex : option nat) (posting : nat) (w : Pool) :
  raises (fst (extractDetails crawlerIndex posting w)) = true ->
  store (snd (extractDetails crawlerIndex posting w)) = store w.
Proof.
  unfold extractDetails, bind.
  pose proof (readDetails_sameStore crawlerIndex w) as Hread.
  destruct (readDetails crawlerIndex w) as [[details | e] w']; cbn in Hread.
  - destruct (assignDetails_settles posting details w') as [v Hv].
    rewrite Hv. discriminate.
  - intros _. exact Hread.
Qed.

(** *** The loop of a worker *)

(** The second [try] statement of the loop body. *)
Definition tryExtract (crawlerIndex : option nat) (posting : nat) : Async Pool unit :=
  try_catch (extractDetails crawlerIndex posting) (fun _ => ret tt).

Lemma tryExtract_returns (crawlerIndex : option nat) (posting : nat) (w : Pool) :
  fst (tryExtract crawlerIndex posting w) = Return tt.
Proof.
  unfold tryExtract, try_catch.
  destruct (extractDetails crawlerIndex posting w) as [[[] | e] w']; reflexivity.
Qed.

Lemma tryExtract_sameSize (crawlerIndex : option nat) (posting : nat) :
  keeps sameSize (tryExtract crawlerIndex posting).
Proof.
  unfold tryExtract. apply keeps_try_catch; try typeclasses eauto.
  - apply extractDetails_sameSize.
  - intros _. apply keeps_ret; typeclasses eauto.
Qed.

Lemma tryExtract_untouched (crawlerIndex : option nat) (j posting : nat) :
  j <> posting -> keeps (untouched j) (tryExtract crawlerIndex posting).
Proof.
  intros Hne. unfold tryExtract. apply keeps_try_catch; try typeclasses eauto.
  - apply extractDetails_untouched, Hne.
  - intros _. apply keeps_ret; typeclasses eauto.
Qed.

(** One iteration: the navigation fails and the loop goes on with the
    next posting, or the extraction is tried and the loop goes on. *)
Lemma workerLoop_cons (crawlerIndex : option nat) (posting : nat) (rest : list nat)
    (requestCount : Z) (w : Pool) (object : Posting) :
  store w !! posting = Some object ->
  workerLoop crawlerIndex (posting :: rest) requestCount w =
  match navigateToDetail crawlerIndex (detailUrl (arbeitsagentur_id object)) requestCount w with
  | (Throw _, w') => workerLoop crawlerIndex rest requestCount w'
  | (Return _, w') =>
      workerLoop crawlerIndex rest (requestCount + 1)%Z (snd (tryExtract crawlerIndex posting w'))
  end.
Proof.
  intros Hobject. cbn [workerLoop]. rewrite Hobject.
  destruct (navigateToDetail _ _ _ _) as [[[] | e] w']; [| reflexivity].
  unfold bind. fold (tryExtract crawlerIndex posting).
  pose proof (tryExtract_returns crawlerIndex posting w') as Hret.
  destruct (tryExtract crawlerIndex posting w') as [r w'']. cbn in Hret. subst r. reflexivity.
Qed.

(** No failure of a posting ends the loop: on postings that exist, the
    loop of the partition returns normally. *)
Lemma workerLoop_returns (crawlerIndex : option nat) (postings : list nat) :
  forall (requestCount : Z) (w : Pool),
  Forall (fun posting => (posting < length (store w))%nat) postings ->
  fst (workerLoop crawlerIndex postings requestCount w) = Return tt /\
  length (store (snd (workerLoop crawlerIndex postings requestCount w))) = length (store w).
Proof.
  induction postings as [| posting rest IH]; intros requestCount w Hvalid.
  - split; reflexivity.
  - apply Forall_cons in Hvalid as [Hposting Hrest].
    destruct (lookup_lt_is_Some_2 _ _ Hposting) as [object Hobject].
    rewrite (workerLoop_cons _ _ _ _ _ _ Hobject).
    pose proof (navigateToDetail_sameStore crawlerIndex
                  (detailUrl (arbeitsagentur_id object)) requestCount w) as Hnav.
    destruct (navigateToDetail _ _ _ _) as [[[] | e] w']; unfold sameStore in Hnav; cbn in Hnav.
    + pose proof (tryExtract_sameSize crawlerIndex posting w') as Hsize.
      unfold sameSize in Hsize.
      destruct (IH (requestCount + 1)%Z (snd (tryExtract crawlerIndex posting w'))) as [Hr Hl].
      { rewrite Hsize, Hnav. exact Hrest. }
      split; [exact Hr | congruence].
    + destruct (IH requestCount w') as [Hr Hl].
      { rewrite Hnav. exact Hrest. }
      split; [exact Hr | congruence].
Qed.

(** The loop touches the objects of its own postings only. *)
Lemma workerLoop_untouched (crawlerIndex : option nat) (j : nat) (postings : list nat) :
  forall (requestCount : Z) (w : Pool),
  j ∉ postings ->
  untouched j w (snd (workerLoop crawlerIndex postings requestCount w)).
Proof.
  induction postings as [| posting rest IH]; intros requestCount w Hj.
  - split; reflexivity.
  - apply not_elem_of_cons in Hj as [Hne Hrest].
    destruct (store w !! posting) as [object |] eqn:Hobject.
    + rewrite (workerLoop_cons _ _ _ _ _ _ Hobject).
      pose proof (sameStore_untouched j _
                    (navigateToDetail_sameStore crawlerIndex
                       (detailUrl (arbeitsagentur_id object)) requestCount) w) as Hnav.
      destruct (navigateToDetail _ _ _ _) as [[[] | e] w']; cbn [snd] in Hnav.
      * pose proof (tryExtract_untouched crawlerIndex j posting Hne w') as Hextract.
        etransitivity; [exact Hnav |]. etransitivity; [exact Hextract |].
        apply IH, Hrest.
      * etransitivity; [exact Hnav |]. apply IH, Hrest.
    + cbn [workerLoop]. rewrite Hobject. split; reflexivity.
Qed.

(** *** A navigation that fails permanently *)

(** The engine never completes a navigation to [url], whatever the page
    and whatever state the browser is in. *)
Definition neverReaches (url : string) : Prop :=
  forall (p : Page) (e : Engine),
    fst (page_goto p url e) <> Settled (Return (Some 200%Z)) /\
    fst (page_route p url e) <> Settled (Return tt).

Lemma navigate_fails (url : string) (spa : bool) (c : Crawler) :
  neverReaches url -> raises (fst (navigate url spa c)) = true.
Proof.
  intros Hnever. destruct (Hnever (page c) (engine c)) as [Hgoto Hroute].
  unfold navigate. destruct spa.
  - destruct (page_route (page c) url (engine c)) as [[| [[] | e]] e']; cbn in *;
      try reflexivity. contradiction.
  - destruct (page_goto (page c) url (engine c)) as [[| [response | e]] e']; cbn in *;
      try reflexivity.
    destruct (decide (response = Some 200%Z)) as [-> | Hne]; [contradiction | reflexivity].
Qed.

Lemma attemptNavigation_fails (url : string) (spa : bool) (a : Z) (c : Crawler) :
  neverReaches url -> raises (fst (attemptNavigation url spa a c)) = true.
Proof.
  intros Hnever. unfold attemptNavigation. unfold bind at 1.
  destruct (isPageHealthy c) as [[healthy | e] c1]; [| reflexivity].
  unfold bind at 1, effect at 1. destruct healthy; cbn; [| reflexivity].
  unfold bind, effect. apply navigate_fails, Hnever.
Qed.

Lemma navigationFrom_fails (url : string) (spa : bool) (maxRetries a : Z) (k : nat) (c : Crawler) :
  neverReaches url -> raises (fst (navigationFrom url spa maxRetries a k c)) = true.
Proof.
  intros Hnever. induction k as [| k IH]; cbn [navigationFrom].
  - apply attemptNavigation_fails, Hnever.
  - destruct (navigationFrom url spa maxRetries a k c) as [[v | e] c'];
      [discriminate IH |].
    apply attemptNavigation_fails, Hnever.
Qed.

Lemma goto_fails (url : string) (spa : bool) (maxRetries : Z) (c : Crawler) :
  (0 <= maxRetries)%Z ->
  neverReaches (normalizeUrl url) ->
  raises (fst (goto url spa maxRetries c)) = true.
Proof.
  intros Hm Hnever. unfold goto.
  replace (Z.to_nat (maxRetries + 1)) with (S (Z.to_nat maxRetries)) by lia.
  destruct (goto_loop_exhausted (normalizeUrl url) spa maxRetries (Z.to_nat maxRetries) 0 c)
    as (e & c' & _ & ->); [lia | |].
  - intros j _. apply navigationFrom_fails, Hnever.
  - rewrite recover_terminal. reflexivity.
Qed.

Lemma onCrawler_fails {A} (crawlerIndex : option nat) (method : Async Crawler A) :
  (forall c, raises (fst (method c)) = true) ->
  forall w, raises (fst (onCrawler crawlerIndex method w)) = true.
Proof.
  intros Hm w. unfold onCrawler.
  destruct (crawlerIndex ≫= _) as [[k crawler] |]; [| reflexivity].
  specialize (Hm crawler). destruct (method crawler) as [[v | e] c']; [discriminate Hm | reflexivity].
Qed.

(** The navigation block of the loop body fails when the detail page can
    never be reached: both ways of navigating fail at every attempt of
    both rounds of the outer backoff. *)
Lemma navigateToDetail_fails (crawlerIndex : option nat) (id : string) (requestCount : Z)
    (w : Pool) :
  neverReaches (detailUrl id) ->
  raises (fst (navigateToDetail crawlerIndex (detailUrl id) requestCount w)) = true.
Proof.
  intros Hnever.
  assert (Hnormal : neverReaches (normalizeUrl (detailUrl id))) by exact Hnever.
  unfold navigateToDetail. unfold bind at 1.
  assert (Hcleanup : exists r w', (if (requestCount mod 10 =? 0)%Z && (0 <? requestCount)%Z
                                   then onCrawler crawlerIndex cleanupMemory
                                   else ret tt) w = (r, w')) by (destruct (_ w); eauto).
  destruct Hcleanup as ([[] | e] & w' & ->); [| reflexivity].
  apply backoff_loop_always_fails. intros w0. unfold try_catch.
  assert (Hspa : raises (fst (onCrawler crawlerIndex (goto (detailUrl id) true 2) w0)) = true).
  { apply onCrawler_fails. intros c. apply goto_fails; [lia | exact Hnormal]. }
  destruct (onCrawler crawlerIndex (goto (detailUrl id) true 2) w0) as [[v | e] w1];
    [discriminate Hspa |].
  apply onCrawler_fails. intros c. apply goto_fails; [lia | exact Hnormal].
Qed.

(** A posting whose detail page can never be reached is left as it was
    by the loop, whatever else the loop enriches. *)
Lemma workerLoop_failing (crawlerIndex : option nat) (j : nat) (object : Posting)
    (postings : list nat) :
  neverReaches (detailUrl (arbeitsagentur_id object)) ->
  forall (requestCount : Z) (w : Pool),
  store w !! j = Some object ->
  store (snd (workerLoop crawlerIndex postings requestCount w)) !! j = Some object.
Proof.
  intros Hnever. induction postings as [| posting rest IH]; intros requestCount w Hj.
  - exact Hj.
  - destruct (store w !! posting) as [other |] eqn:Hother.
    + rewrite (workerLoop_cons _ _ _ _ _ _ Hother).
      pose proof (navigateToDetail_sameStore crawlerIndex
                    (detailUrl (arbeitsagentur_id other)) requestCount w) as Hnav.
      pose proof (navigateToDetail_fails crawlerIndex (arbeitsagentur_id other)
                    requestCount w) as Hfails.
      destruct (navigateToDetail _ _ _ _) as [[[] | e] w']; unfold sameStore in Hnav;
        cbn [snd fst] in Hnav, Hfails.
      * destruct (decide (j = posting)) as [-> | Hne].
        -- rewrite Hj in Hother. injection Hother as <-.
           specialize (Hfails Hnever). discriminate Hfails.
        -- apply IH.
           destruct (tryExtract_untouched crawlerIndex j posting Hne w') as [Hsame _].
           rewrite Hsame, Hnav. exact Hj.
      * apply IH. rewrite Hnav. exact Hj.
    + cbn [workerLoop]. rewrite Hother. exact Hj.
Qed.

(** *** All workers *)

Lemma groupedPostings_members (length count : nat) (key : option nat) (group : list nat) :
  groupedPostings length count !! key = Some group ->
  group = filter (fun i => positionModulo length i = key) (seq 0 count).
Proof.
  rewrite groupedPostings_lookup. destruct (filter _ _); [discriminate | congruence].
Qed.

Lemma groupedPostings_valid (length count : nat) (key : option nat) (group : list nat) :
  groupedPostings length count !! key = Some group ->
  Forall (fun posting => (posting < count)%nat) group.
Proof.
  intros Hgroup. apply groupedPostings_members in Hgroup as ->.
  apply Forall_forall. intros i Hi. apply list_elem_of_filter in Hi as [_ Hi].
  apply elem_of_seq in Hi. lia.
Qed.

Lemma allWorkers_returns (entries : list (option nat * list nat)) : forall (w : Pool),
  Forall (fun entry => Forall (fun posting => (posting < length (store w))%nat) (snd entry))
    entries ->
  fst (allWorkers entries w) = Return tt /\
  length (store (snd (allWorkers entries w))) = length (store w).
Proof.
  induction entries as [| [key group] rest IH]; intros w Hvalid.
  - split; reflexivity.
  - apply Forall_cons in Hvalid as [Hgroup Hrest]. cbn [allWorkers].
    unfold bind, worker. cbn [fst snd] in *.
    destruct (workerLoop_returns key group 0 w Hgroup) as [Hr Hl].
    destruct (workerLoop key group 0 w) as [r w']. cbn in Hr, Hl. subst r.
    destruct (IH w') as [Hr' Hl'].
    { rewrite Hl. exact Hrest. }
    split; [exact Hr' | congruence].
Qed.

Lemma allWorkers_failing (j : nat) (object : Posting) (entries : list (option nat * list nat)) :
  neverReaches (detailUrl (arbeitsagentur_id object)) ->
  forall (w : Pool),
  store w !! j = Some object ->
  store (snd (allWorkers entries w)) !! j = Some object.
Proof.
  intros Hnever. induction entries as [| [key group] rest IH]; intros w Hj.
  - exact Hj.
  - cbn [allWorkers]. unfold bind, worker. cbn [fst snd].
    pose proof (workerLoop_failing key j object group Hnever 0 w Hj) as Hloop.
    destruct (workerLoop key group 0 w) as [[[] | e] w']; cbn [snd] in *.
    + apply IH, Hloop.
    + exact Hloop.
Qed.

(** Enrichment of a batch always completes, returns as many postings as
    it was given, and leaves a posting whose detail page can never be
    reached exactly as it was. *)
Lemma addCompanyData_completes (postings : list Posting) (crawlers : list Crawler) :
  exists enriched,
    fst (addCompanyData postings crawlers) = Return enriched /\
    length enriched = length postings /\
    forall j posting,
      postings !! j = Some posting ->
      neverReaches (detailUrl (arbeitsagentur_id posting)) ->
      enriched !! j = Some posting.
Proof.
  unfold addCompanyData.
  set (groups := groupedPostings (length crawlers) (length postings)).
  set (w := {| companyCrawlers := crawlers; store := postings |}).
  assert (Hvalid : Forall (fun entry =>
            Forall (fun posting => (posting < length (store w))%nat) (snd entry))
            (map_to_list groups)).
  { apply Forall_forall. intros [key group] Hentry.
    apply elem_of_map_to_list in Hentry. cbn.
    eapply groupedPostings_valid, Hentry. }
  destruct (allWorkers_returns _ w Hvalid) as [Hr Hl].
  pose proof (fun j object Hn => allWorkers_failing j object (map_to_list groups) Hn w)
    as Hfail.
  destruct (allWorkers (map_to_list groups) w) as [r w']. cbn in Hr, Hl, Hfail. subst r.
  exists (store w'). cbn. repeat split; [exact Hl |].
  intros j posting Hj Hnever. apply Hfail; assumption.
Qed.

(** *** A worker depends on its own crawler and postings only *)

(** Two pools agree on the crawler of a worker and on its postings. *)
Definition agree (crawlerIndex : option nat) (own : list nat) (w1 w2 : Pool) : Prop :=
  (forall k, crawlerIndex = Some k -> companyCrawlers w1 !! k = companyCrawlers w2 !! k) /\
  (forall j, j ∈ own -> store w1 !! j = store w2 !! j).

(** [m] does the same in pools that agree, and leaves them agreeing. *)
Definition localTo (crawlerIndex : option nat) (own : list nat) {A} (m : Async Pool A) : Prop :=
  forall w1 w2, agree crawlerIndex own w1 w2 ->
    fst (m w1) = fst (m w2) /\ agree crawlerIndex own (snd (m w1)) (snd (m w2)).

Section Local.
Variable crawlerIndex : option nat.
Variable own : list nat.

Lemma local_ret {A} (v : A) : localTo crawlerIndex own (ret v).
Proof. intros w1 w2 Hw. split; [reflexivity | exact Hw]. Qed.

Lemma local_throw {A} (e : Thrown) : localTo crawlerIndex own (throw e : Async Pool A).
Proof. intros w1 w2 Hw. split; [reflexivity | exact Hw]. Qed.

Lemma local_bind {A B} (m : Async Pool A) (k : A -> Async Pool B) :
  localTo crawlerIndex own m -> (forall v, localTo crawlerIndex own (k v)) ->
  localTo crawlerIndex own (bind m k).
Proof.
  intros Hm Hk w1 w2 Hw. unfold bind. destruct (Hm w1 w2 Hw) as [Hr Hw'].
  destruct (m w1) as [r1 w1'], (m w2) as [r2 w2']. cbn in Hr, Hw'. subst r2.
  destruct r1 as [v | e]; [apply Hk, Hw' | split; [reflexivity | exact Hw']].
Qed.

Lemma local_try_catch {A} (m : Async Pool A) (h : Thrown -> Async Pool A) :
  localTo crawlerIndex own m -> (forall e, localTo crawlerIndex own (h e)) ->
  localTo crawlerIndex own (try_catch m h).
Proof.
  intros Hm Hh w1 w2 Hw. unfold try_catch. destruct (Hm w1 w2 Hw) as [Hr Hw'].
  destruct (m w1) as [r1 w1'], (m w2) as [r2 w2']. cbn in Hr, Hw'. subst r2.
  destruct r1 as [v | e]; [split; [reflexivity | exact Hw'] | apply Hh, Hw'].
Qed.

Lemma local_onCrawler {A} (method : Async Crawler A) :
  localTo crawlerIndex own (onCrawler crawlerIndex method).
Proof.
  intros w1 w2 [Hcrawler Hstore]. unfold onCrawler.
  destruct crawlerIndex as [k |]; cbn; [| split; [reflexivity | split; assumption]].
  specialize (Hcrawler k eq_refl).
  destruct (companyCrawlers w1 !! k) as [crawler |] eqn:E1; rewrite <- Hcrawler; cbn.
  - destruct (method crawler) as [r crawler']. cbn. split; [reflexivity |].
    split; cbn; [| exact Hstore].
    intros k' [= <-].
    rewrite !list_lookup_insert_eq; [reflexivity | |].
    + apply lookup_lt_is_Some. rewrite <- Hcrawler. eauto.
    + apply lookup_lt_is_Some. eauto.
  - split; [reflexivity |]. split; [| exact Hstore].
    intros k' [= <-]. rewrite E1. exact Hcrawler.
Qed.

Lemma local_assign (posting : nat) (update : Posting -> Posting) :
  posting ∈ own -> localTo crawlerIndex own (assign posting update).
Proof.
  intros Hown w1 w2 [Hcrawler Hstore]. unfold assign, effect. cbn.
  split; [reflexivity |]. split; cbn; [exact Hcrawler |].
  intros j Hj. destruct (decide (j = posting)) as [-> | Hne].
  - rewrite !list_lookup_alter_eq, (Hstore posting Hown). reflexivity.
  - rewrite !list_lookup_alter_ne by congruence. apply Hstore, Hj.
Qed.

Lemma local_backoff {T} (fn : Async Pool T) (n d : Z) :
  localTo crawlerIndex own fn ->
  forall remaining attempt error,
    localTo crawlerIndex own
      (Request.backoff_loop (fun _ w => w) fn n d remaining attempt error).
Proof.
  intros Hfn. induction remaining as [| remaining IH]; intros attempt error;
    cbn [Request.backoff_loop]; [apply local_throw |].
  apply local_try_catch; [exact Hfn |]. intros err.
  destruct (attempt =? n - 1)%Z; [apply local_throw |].
  apply local_bind; [| intros _; apply IH].
  intros w1 w2 Hw. split; [reflexivity | exact Hw].
Qed.

Lemma local_navigateToDetail (url : string) (requestCount : Z) :
  localTo crawlerIndex own (navigateToDetail crawlerIndex url requestCount).
Proof.
  unfold navigateToDetail, Request.exponentialBackoff. apply local_bind.
  - destruct (_ && _); [apply local_onCrawler | apply local_ret].
  - intros _. apply local_backoff. apply local_try_catch; [| intros _]; apply local_onCrawler.
Qed.

Lemma local_tryExtract (posting : nat) :
  posting ∈ own -> localTo crawlerIndex own (tryExtract crawlerIndex posting).
Proof.
  intros Hown. unfold tryExtract, extractDetails.
  apply local_try_catch; [| intros _; apply local_ret].
  apply local_bind.
  { unfold readDetails.
    repeat (apply local_bind; [apply local_onCrawler | intros ?]). apply local_ret. }
  intros [[[address beschreibung] link] companySize]. unfold assignDetails.
  repeat (apply local_bind; [apply local_assign, Hown | intros _]).
  destruct beschreibung as [[| ch rest] |];
    repeat first
      [ apply local_ret
      | apply local_assign, Hown
      | apply local_bind; [apply local_assign, Hown | intros _] ].
Qed.

Lemma local_workerLoop (postings : list nat) :
  postings ⊆ own ->
  forall requestCount, localTo crawlerIndex own (workerLoop crawlerIndex postings requestCount).
Proof.
  induction postings as [| posting rest IH]; intros Hown requestCount; [apply local_ret |].
  assert (Hposting : posting ∈ own) by (apply Hown; left).
  assert (Hrest : rest ⊆ own) by (intros j Hj; apply Hown; right; exact Hj).
  intros w1 w2 Hw. cbn [workerLoop].
  rewrite <- (proj2 Hw posting Hposting).
  destruct (store w1 !! posting) as [object |]; [| split; [reflexivity | exact Hw]].
  destruct (local_navigateToDetail (detailUrl (arbeitsagentur_id object)) requestCount w1 w2 Hw)
    as [Hr Hw'].
  destruct (navigateToDetail _ _ _ w1) as [r1 w1'], (navigateToDetail _ _ _ w2) as [r2 w2'].
  cbn in Hr, Hw'. subst r2. destruct r1 as [[] | e].
  - apply (local_bind _ (fun _ => workerLoop crawlerIndex rest (requestCount + 1)%Z));
      [apply (local_tryExtract posting Hposting) | intros _; apply IH, Hrest | exact Hw'].
  - apply IH; assumption.
Qed.

End Local.

(** The crawlers other than its own are left as they were. *)
Definition otherCrawlers (crawlerIndex : option nat) (w w' : Pool) : Prop :=
  forall k, crawlerIndex <> Some k -> companyCrawlers w' !! k = companyCrawlers w !! k.

#[local] Instance otherCrawlers_refl crawlerIndex : Reflexive (otherCrawlers crawlerIndex).
Proof. intros w k _. reflexivity. Qed.
#[local] Instance otherCrawlers_trans crawlerIndex : Transitive (otherCrawlers crawlerIndex).
Proof. intros a b c Hab Hbc k Hk. rewrite (Hbc k Hk). apply Hab, Hk. Qed.

Lemma onCrawler_otherCrawlers {A} (crawlerIndex : option nat) (method : Async Crawler A) :
  keeps (otherCrawlers crawlerIndex) (onCrawler crawlerIndex method).
Proof.
  intros w. unfold onCrawler.
  destruct crawlerIndex as [k |]; cbn; [| reflexivity].
  destruct (companyCrawlers w !! k) as [crawler |]; cbn; [| reflexivity].
  destruct (method crawler) as [r crawler']. cbn.
  intros k' Hk'. cbn. apply list_lookup_insert_ne. congruence.
Qed.

Lemma assign_otherCrawlers (crawlerIndex : option nat) (posting : nat) update :
  keeps (otherCrawlers crawlerIndex) (assign posting update).
Proof. intros w k _. reflexivity. Qed.

Lemma workerLoop_otherCrawlers (crawlerIndex : option nat) (postings : list nat) :
  forall requestCount, keeps (otherCrawlers crawlerIndex) (workerLoop crawlerIndex postings requestCount).
Proof.
  assert (Hnav : forall url requestCount,
            keeps (otherCrawlers crawlerIndex) (navigateToDetail crawlerIndex url requestCount)).
  { intros url requestCount. unfold navigateToDetail, Request.exponentialBackoff.
    apply keeps_bind; try typeclasses eauto.
    - destruct (_ && _); [apply onCrawler_otherCrawlers | apply keeps_ret; typeclasses eauto].
    - intros _. apply backoff_loop_keeps; try typeclasses eauto.
      + intros ms w. reflexivity.
      + apply keeps_try_catch; try typeclasses eauto;
          [| intros _]; apply onCrawler_otherCrawlers. }
  assert (Hextract : forall posting, keeps (otherCrawlers crawlerIndex) (tryExtract crawlerIndex posting)).
  { intros posting. unfold tryExtract, extractDetails.
    apply keeps_try_catch; try typeclasses eauto;
      [| intros _; apply keeps_ret; typeclasses eauto].
    apply keeps_bind; try typeclasses eauto.
    { unfold readDetails.
      repeat (apply keeps_bind; try typeclasses eauto;
              [apply onCrawler_otherCrawlers | intros ?]).
      apply keeps_ret; typeclasses eauto. }
    intros [[[address beschreibung] link] companySize]. unfold assignDetails.
    repeat (apply keeps_bind; try typeclasses eauto;
            [apply assign_otherCrawlers | intros _]).
    destruct beschreibung as [[| ch rest] |];
      repeat first
        [ apply keeps_ret; typeclasses eauto
        | apply assign_otherCrawlers
        | apply keeps_bind; try typeclasses eauto; [apply assign_otherCrawlers | intros _] ]. }
  induction postings as [| posting rest IH]; intros requestCount w; [reflexivity |].
  destruct (store w !! posting) as [object |] eqn:Hobject.
  - rewrite (workerLoop_cons _ _ _ _ _ _ Hobject).
    pose proof (Hnav (detailUrl (arbeitsagentur_id object)) requestCount w) as Hn.
    destruct (navigateToDetail _ _ _ _) as [[[] | e] w']; cbn [snd] in Hn.
    + etransitivity; [exact Hn |]. etransitivity; [apply Hextract |]. apply IH.
    + etransitivity; [exact Hn |]. apply IH.
  - cbn [workerLoop]. rewrite Hobject. reflexivity.
Qed.

(** A worker of another key and of other postings leaves the pool in
    agreement with what it was, for this worker. *)
Lemma worker_agree (crawlerIndex key : option nat) (own group : list nat) (w : Pool) :
  key <> crawlerIndex ->
  (forall j, j ∈ own -> j ∉ group) ->
  agree crawlerIndex own w (snd (workerLoop key group 0 w)).
Proof.
  intros Hkey Hdisjoint. split.
  - intros k ->. symmetry. apply (workerLoop_otherCrawlers key group 0 w). exact Hkey.
  - intros j Hj. symmetry. apply (workerLoop_untouched key j group 0 w), Hdisjoint, Hj.
Qed.

Lemma allWorkers_untouched (j : nat) (entries : list (option nat * list nat)) : forall (w : Pool),
  Forall (fun entry => j ∉ snd entry) entries ->
  store (snd (allWorkers entries w)) !! j = store w !! j.
Proof.
  induction entries as [| [key group] rest IH]; intros w Hj; [reflexivity |].
  apply Forall_cons in Hj as [Hgroup Hrest]. cbn [allWorkers]. unfold bind, worker.
  cbn [fst snd] in *.
  destruct (workerLoop_untouched key j group 0 w Hgroup) as [Hsame _].
  destruct (workerLoop key group 0 w) as [[[] | e] w']; cbn [snd] in *.
  - rewrite IH by exact Hrest. exact Hsame.
  - exact Hsame.
Qed.

(** With groups that are disjoint and keys that are distinct, what all
    workers leave of a posting is what the worker of its group leaves
    when it runs alone. *)
Lemma allWorkers_own (entries : list (option nat * list nat)) : forall (w : Pool),
  NoDup (fst <$> entries) ->
  (forall e1 e2, e1 ∈ entries -> e2 ∈ entries -> fst e1 <> fst e2 ->
     forall j, j ∈ snd e1 -> j ∉ snd e2) ->
  Forall (fun entry => Forall (fun posting => (posting < length (store w))%nat) (snd entry))
    entries ->
  forall key group j, (key, group) ∈ entries -> j ∈ group ->
  store (snd (allWorkers entries w)) !! j = store (snd (workerLoop key group 0 w)) !! j.
Proof.
  induction entries as [| [key0 group0] rest IH]; intros w Hkeys Hdisjoint Hvalid key group j Hin Hj.
  - apply elem_of_nil in Hin as [].
  - cbn in Hkeys. apply NoDup_cons in Hkeys as [Hfresh Hkeys].
    apply Forall_cons in Hvalid as [Hvalid0 Hvalid]. cbn [snd] in Hvalid0.
    cbn [allWorkers]. unfold bind, worker. cbn [fst snd].
    destruct (workerLoop_returns key0 group0 0 w Hvalid0) as [Hr Hl].
    apply elem_of_cons in Hin as [Heq | Hin]; [injection Heq as Hk Hg; subst key group |].
    + (* the posting is of the first worker: the others leave it alone *)
      destruct (workerLoop key0 group0 0 w) as [r w']. cbn in Hr, Hl. subst r. cbn [snd].
      apply allWorkers_untouched. apply Forall_forall. intros [key' group'] Hin'.
      cbn [snd]. apply (Hdisjoint (key0, group0) (key', group'));
        [left | right; exact Hin' | | exact Hj].
      cbn. intros Heq. apply Hfresh. apply list_elem_of_fmap. exists (key', group').
      split; [exact Heq | exact Hin'].
    + (* the posting is of a later worker: the first one does not reach it *)
      assert (Hne : key0 <> key).
      { intros Heq. apply Hfresh. apply list_elem_of_fmap. exists (key, group).
        split; [exact Heq | exact Hin]. }
      pose proof (worker_agree key key0 group group0 w Hne) as Hagree.
      destruct (workerLoop key0 group0 0 w) as [r w']. cbn in Hr, Hl, Hagree. subst r. cbn [snd].
      rewrite (IH w' Hkeys) with (key := key) (group := group); try assumption.
      * symmetry.
        apply (local_workerLoop key group group ltac:(reflexivity) 0 w w'); [| exact Hj].
        apply Hagree. intros i Hi.
        apply (Hdisjoint (key, group) (key0, group0)); [right; exact Hin | left | | exact Hi].
        cbn. congruence.
      * intros e1 e2 H1 H2. apply Hdisjoint; right; assumption.
      * rewrite Hl. exact Hvalid.
Qed.

Lemma addCompanyData_own (postings : list Posting) (crawlers : list Crawler) (j : nat) :
  (j < length postings)%nat ->
  let key := positionModulo (length crawlers) j in
  let group := filter (fun i => positionModulo (length crawlers) i = key)
                 (seq 0 (length postings)) in
  exists enriched,
    fst (addCompanyData postings crawlers) = Return enriched /\
    enriched !! j =
    store (snd (workerLoop key group 0 {| companyCrawlers := crawlers; store := postings |})) !! j.
Proof.
  intros Hj key group. unfold addCompanyData.
  set (groups := groupedPostings (length crawlers) (length postings)).
  set (w := {| companyCrawlers := crawlers; store := postings |}).
  assert (Hjgroup : j ∈ group).
  { apply list_elem_of_filter. split; [reflexivity | apply elem_of_seq; lia]. }
  assert (Hgroup : groups !! key = Some group).
  { subst groups. rewrite groupedPostings_lookup. fold group.
    destruct group; [apply elem_of_nil in Hjgroup as [] | reflexivity]. }
  assert (Hvalid : Forall (fun entry =>
            Forall (fun posting => (posting < length (store w))%nat) (snd entry))
            (map_to_list groups)).
  { apply Forall_forall. intros [key' group'] Hentry.
    apply elem_of_map_to_list in Hentry. cbn.
    eapply groupedPostings_valid, Hentry. }
  assert (Hown := allWorkers_own (map_to_list groups) w (NoDup_fst_map_to_list groups)).
  destruct (allWorkers_returns _ w Hvalid) as [Hr _].
  destruct (allWorkers (map_to_list groups) w) as [r w'] eqn:Hall. cbn in Hr. subst r.
  exists (store w'). split; [reflexivity |]. cbn [snd] in Hown.
  apply Hown; [| exact Hvalid | apply elem_of_map_to_list, Hgroup | exact Hjgroup].
  intros [key1 group1] [key2 group2] H1 H2 Hne i Hi1 Hi2. cbn in *.
  apply elem_of_map_to_list, groupedPostings_members in H1, H2. subst group1 group2.
  apply list_elem_of_filter in Hi1 as [Hk1 _], Hi2 as [Hk2 _]. congruence.
Qed.

End Pool.

(** C4, as the code has it.  Enrichment partitions the batch by position modulo
    pool size: the group of a key holds, in order, the positions whose
    remainder is the key (ten postings over three sessions: {0,3,6,9},
    {1,4,7}, {2,5,8}).  On every engine, enrichment of a batch completes
    and returns as many postings as it was given; a posting whose detail
    page can never be reached is returned exactly as it was given; and
    what is returned for a posting is what the worker of its own group
    leaves of it when that worker runs alone, so no posting of another
    group has any effect on it.  Within a group, a navigation that
    fails touches no posting, and the loop goes on with the later
    postings of the group, with the same request count, on the session
    as the failed navigation left it. *)
Theorem addCompanyData_partitions_and_isolates :
  (forall (length count : nat) (key : option nat),
     groupedPostings length count !! key =
     match filter (fun i => positionModulo length i = key) (seq 0 count) with
     | [] => None
     | found => Some found
     end) /\
  groupedPostings 3 10 =
    {[ Some 0%nat := [0; 3; 6; 9]%nat; Some 1%nat := [1; 4; 7]%nat;
       Some 2%nat := [2; 5; 8]%nat ]} /\
  (forall (engine : Api) (helpers : Helpers) (postings : list Posting) (crawlers : list Crawler),
     exists enriched,
       fst (addCompanyData postings crawlers) = Return enriched /\
       length enriched = length postings /\
       (forall j posting,
          postings !! j = Some posting ->
          neverReaches (detailUrl (arbeitsagentur_id posting)) ->
          enriched !! j = Some posting) /\
       (forall j, (j < length postings)%nat ->
          let key := positionModulo (length crawlers) j in
          let group := filter (fun i => positionModulo (length crawlers) i = key)
                         (seq 0 (length postings)) in
          enriched !! j =
          store (snd (workerLoop key group 0
                        {| companyCrawlers := crawlers; store := postings |})) !! j)) /\
  (forall (engine : Api) (helpers : Helpers) (crawlerIndex : option nat) (posting : nat)
          (rest : list nat) (requestCount : Z) (w : Pool) (object : Posting),
     store w !! posting = Some object ->
     let navigated :=
       navigateToDetail crawlerIndex (detailUrl (arbeitsagentur_id object)) requestCount w in
     raises (fst navigated) = true ->
     store (snd navigated) = store w /\
     workerLoop crawlerIndex (posting :: rest) requestCount w =
     workerLoop crawlerIndex rest requestCount (snd navigated)).
Proof.
  split; [exact groupedPostings_lookup |]. split; [exact groupedPostings_ten_over_three |].
  split.
  - intros engine helpers postings crawlers.
    destruct (addCompanyData_completes postings crawlers) as (enriched & Hr & Hl & Hfail).
    exists enriched. repeat split; try assumption.
    intros j Hj key group.
    destruct (addCompanyData_own postings crawlers j Hj) as (enriched' & Hr' & Hown).
    rewrite Hr in Hr'. injection Hr' as <-. exact Hown.
  - intros engine helpers crawlerIndex posting rest requestCount w object Hobject navigated
      Hfails.
    split; [apply (navigateToDetail_sameStore crawlerIndex _ requestCount w) |].
    rewrite (workerLoop_cons _ _ _ _ _ _ Hobject). fold navigated.
    destruct navigated as [[[] | e] left]; [discriminate Hfails | reflexivity].
Qed.

(** *** One posting *)

(** The fields that only enrichment fills are all [null]. *)
Definition unenriched (p : Posting) : Prop :=
  postal_code p = None /\ street p = None /\ email p = None /\
  phone p = None /\ website p = None /\ company_size p = None.

Lemma makePosting_unenriched `{Helpers} companyName jobName companyLocation startDate
    cleanPostDate linkUrl (c c' : Crawler) (posting : Posting) :
  makePosting companyName jobName companyLocation startDate cleanPostDate linkUrl c
  = (Return posting, c') ->
  unenriched posting.
Proof.
  unfold makePosting. destruct companyLocation as [location |]; [| discriminate].
  unfold bind, ret.
  destruct cleanPostDate as [[| ch rest] |]; try (intros [= <- _]; repeat split).
  destruct (germanDateToISOString _) as [iso | e]; [| discriminate].
  intros [= <- _]. repeat split.
Qed.

(** C5. In the loop of a partition, whatever fails while one posting is
    enriched (its navigation after all retries, or the reading of its
    detail page) is caught: the loop goes on with the next posting, and
    on postings that exist it returns normally. After a failed
    enrichment the objects of the batch are what they were, so a posting
    whose six enrichment-only fields were [null] has them all [null]
    still. *)
Theorem enrichment_failure_is_contained `{Helpers} (crawlerIndex : option nat)
    (posting : nat) (rest : list nat) (requestCount : Z) (w : Pool) (object : Posting) :
  store w !! posting = Some object ->
  let navigated :=
    navigateToDetail crawlerIndex (detailUrl (arbeitsagentur_id object)) requestCount w in
  let failed :=
    raises (fst navigated) = true \/
    raises (fst (extractDetails crawlerIndex posting (snd navigated))) = true in
  (exists requestCount' w',
     workerLoop crawlerIndex (posting :: rest) requestCount w =
     workerLoop crawlerIndex rest requestCount' w' /\
     (failed -> store w' = store w /\
                (unenriched object ->
                 exists left, store w' !! posting = Some left /\ unenriched left))) /\
  (Forall (fun other => (other < length (store w))%nat) rest ->
   fst (workerLoop crawlerIndex (posting :: rest) requestCount w) = Return tt).
Proof.
  intros Hobject navigated failed. split.
  - rewrite (workerLoop_cons _ _ _ _ _ _ Hobject). fold navigated.
    pose proof (navigateToDetail_sameStore crawlerIndex
                  (detailUrl (arbeitsagentur_id object)) requestCount w) as Hnav.
    fold navigated in Hnav. unfold sameStore in Hnav. subst failed.
    destruct navigated as [[[] | e] w1]; cbn [fst snd] in *.
    + exists (requestCount + 1)%Z, (snd (tryExtract crawlerIndex posting w1)).
      split; [reflexivity |]. intros [Hfalse | Hextract]; [discriminate Hfalse |].
      assert (Hsame : store (snd (tryExtract crawlerIndex posting w1)) = store w).
      { unfold tryExtract, try_catch.
        pose proof (extractDetails_throws crawlerIndex posting w1 Hextract) as Hthrows.
        destruct (extractDetails crawlerIndex posting w1) as [[[] | e] w2];
          [discriminate Hextract |].
        cbn in *. congruence. }
      split; [exact Hsame |]. intros Hnull. exists object. rewrite Hsame. auto.
    + exists requestCount, w1. split; [reflexivity |]. intros _.
      split; [exact Hnav |]. intros Hnull. exists object. rewrite Hnav. auto.
  - intros Hrest. apply workerLoop_returns. apply Forall_cons. split; [| exact Hrest].
    apply lookup_lt_is_Some. eauto.
Qed.

(** *** The address of the specification *)

Lemma assignDetails_store `{Helpers} (posting : nat) (object : Posting)
    (address beschreibung link companySize : option string) (w : Pool) :
  store w !! posting = Some object ->
  exists enriched,
    store (snd (assignDetails posting (address, beschreibung, link, companySize) w)) !! posting
    = Some enriched /\
    postal_code enriched =
      match PostalCode.getPostalCodeFromAddress address with
      | Some code => Some code
      | None => PostalCode.getPostalCodeFromAddress beschreibung
      end /\
    street enriched = streetOfAddress address /\
    website enriched = link.
Proof.
  intros Hobject. unfold assignDetails, bind, assign, effect.
  destruct beschreibung as [[| ch rest] |]; cbn;
    rewrite !list_lookup_alter_eq, Hobject; cbn; eexists; repeat split.
Qed.

(** C9. The address text "Musterstr. 1, 12345 Berlin" has postal code
    12345 and street "Musterstr. 1"; and a posting whose detail page
    reads with that address is assigned exactly these, on every engine. *)
Theorem musterstrasse_postal_code_and_street :
  PostalCode.getPostalCodeFromAddress (Some "Musterstr. 1, 12345 Berlin") = Some 12345%Z /\
  streetOfAddress (Some "Musterstr. 1, 12345 Berlin") = Some "Musterstr. 1" /\
  (forall (engine : Api) (helpers : Helpers) (crawlerIndex : option nat) (posting : nat)
          (object : Posting) (beschreibung link companySize : option string) (w w1 : Pool),
     store w !! posting = Some object ->
     readDetails crawlerIndex w =
       (Return (Some "Musterstr. 1, 12345 Berlin", beschreibung, link, companySize), w1) ->
     exists enriched,
       fst (extractDetails crawlerIndex posting w) = Return tt /\
       store (snd (extractDetails crawlerIndex posting w)) !! posting = Some enriched /\
       postal_code enriched = Some 12345%Z /\
       street enriched = Some "Musterstr. 1").
Proof.
  split; [reflexivity |]. split; [reflexivity |].
  intros engine helpers crawlerIndex posting object beschreibung link companySize w w1
    Hobject Hread.
  pose proof (readDetails_sameStore crawlerIndex w) as Hsame.
  unfold extractDetails, bind. rewrite Hread in *. unfold sameStore in Hsame. cbn in Hsame.
  destruct (assignDetails_store posting object (Some "Musterstr. 1, 12345 Berlin")
              beschreibung link companySize w1 ltac:(rewrite Hsame; exact Hobject))
    as (enriched & Hstore & Hcode & Hstreet & _).
  destruct (assignDetails_settles posting
              (Some "Musterstr. 1, 12345 Berlin", beschreibung, link, companySize) w1)
    as [[] Hreturns].
  exists enriched. repeat split; assumption.
Qed.

(** *** On the simulated browser *)

(** A page the site does not have is never reached. *)
Lemma lookupSite_neverReaches (site : list (string * list Sim.Node)) (url : string) :
  Sim.lookupSite site url = None -> @neverReaches (Sim.api site) url.
Proof.
  intros Hnone p e. cbn [page_goto page_route Sim.api].
  unfold Sim.route, Sim.navigation. rewrite Hnone.
  split; repeat case_match; simplify_eq; cbn; congruence.
Qed.

Definition offer (id : string) : Posting :=
  {| company_name := "Firma " +:+ id; city := "Berlin"; arbeitsagentur_id := id;
     start_date := None; post_date := None; raw_job_title := None;
     postal_code := None; street := None; email := None; phone := None;
     website := None; company_size := None; from_search_url := None |}.

Definition tenOffers : list Posting := (fun i : nat => offer (pretty i)) <$> seq 0 10.

(** The detail pages of all offers but the fifth. *)
Definition siteWithoutFour : list (string * list Sim.Node) :=
  (fun i : nat =>
     (detailUrl (pretty i),
      Sim.detailPage ("Weg " +:+ pretty i +:+ ", 1011" +:+ pretty i +:+ " Berlin") "" ""))
  <$> [0; 1; 2; 3; 5; 6; 7; 8; 9]%nat.

Definition threeCrawlers : list (@Crawler (Sim.api siteWithoutFour)) :=
  replicate 3 (Sim.crawlerOn siteWithoutFour Sim.blank).

(** Ten offers on three crawlers, the page of the fifth missing: the
    batch completes, the fifth offer is what it was, the others have
    their postal codes. *)
Lemma addCompanyData_partitions_and_isolates_witness :
  exists enriched,
    fst (@addCompanyData _ (Sim.helpers siteWithoutFour) tenOffers threeCrawlers)
    = Return enriched /\
    enriched !! 4%nat = Some (offer "4") /\
    postal_code <$> enriched =
      [Some 10110; Some 10111; Some 10112; Some 10113; None;
       Some 10115; Some 10116; Some 10117; Some 10118; Some 10119]%Z.
Proof.
  destruct addCompanyData_partitions_and_isolates as (_ & _ & Hrun & _).
  destruct (Hrun (Sim.api siteWithoutFour) (Sim.helpers siteWithoutFour) tenOffers threeCrawlers)
    as (enriched & Hreturns & _ & Hfailing & _).
  exists enriched. split; [exact Hreturns |]. split.
  - apply (Hfailing 4%nat (offer "4")); [reflexivity |].
    apply lookupSite_neverReaches. reflexivity.
  - assert (Hrun' :
      postal_code <$> match fst (@addCompanyData _ (Sim.helpers siteWithoutFour)
                                   tenOffers threeCrawlers) with
                      | Return found => found
                      | Throw _ => []
                      end
      = [Some 10110; Some 10111; Some 10112; Some 10113; None;
         Some 10115; Some 10116; Some 10117; Some 10118; Some 10119]%Z)
      by (vm_compute; reflexivity).
    rewrite Hreturns in Hrun'. exact Hrun'.
Defined.

(** A crawler whose site answers its first fifteen requests and lets
    the later ones time out. *)
Definition limited : @Crawler (Sim.api siteWithoutFour) :=
  Sim.crawlerOn siteWithoutFour
    {| Sim.document := []; Sim.forecast := replicate 15 Sim.Loads ++ replicate 14 Sim.TimesOut;
       Sim.more := []; Sim.opened := 1; Sim.closedPages := []; Sim.crashedPages := [];
       Sim.pagesLeft := 3 |}.

Definition oneLimited : list (@Crawler (Sim.api siteWithoutFour)) :=
  [Sim.crawlerOn siteWithoutFour Sim.blank; limited; Sim.crawlerOn siteWithoutFour Sim.blank].

(** What becomes of posting [k] when posting [j] is left out of its
    partition. *)
Definition leavingOut `{Helpers} (j k : nat) (postings : list Posting) (crawlers : list Crawler)
    : option Posting :=
  let key := positionModulo (length crawlers) k in
  let group := filter (fun i => positionModulo (length crawlers) i = key)
                 (seq 0 (length postings)) in
  store (snd (workerLoop key (filter (fun i => i <> j) group) 0
                {| companyCrawlers := crawlers; store := postings |})) !! k.

(** C4 as stated fails within a partition.  Ten offers on three
    crawlers, the page of the fifth missing, the site of the second
    crawler limited: the fourteen navigations tried in vain for the
    fifth offer use up the requests that the site answers, and the
    eighth offer, of the same partition, is not enriched either; with
    the fifth offer left out of the partition it is. *)
Lemma addCompanyData_failure_reaches_own_partition :
  (exists enriched,
     fst (@addCompanyData _ (Sim.helpers siteWithoutFour) tenOffers oneLimited)
     = Return enriched /\
     postal_code <$> enriched =
       [Some 10110; Some 10111; Some 10112; Some 10113; None;
        Some 10115; Some 10116; None; Some 10118; Some 10119]%Z /\
     postal_code <$> @leavingOut _ (Sim.helpers siteWithoutFour) 4 7 tenOffers oneLimited
     = Some (Some 10117%Z)) /\
  ~ (forall (engine : Api) (helpers : Helpers) (postings : list Posting)
            (crawlers : list Crawler) (j k : nat) (posting : Posting),
       postings !! j = Some posting ->
       neverReaches (detailUrl (arbeitsagentur_id posting)) ->
       k <> j -> (k < length postings)%nat ->
       exists enriched,
         fst (addCompanyData postings crawlers) = Return enriched /\
         enriched !! k = leavingOut j k postings crawlers).
Proof.
  assert (Hrun :
    postal_code <$> match fst (@addCompanyData _ (Sim.helpers siteWithoutFour)
                                 tenOffers oneLimited) with
                    | Return found => found
                    | Throw _ => []
                    end
    = [Some 10110; Some 10111; Some 10112; Some 10113; None;
       Some 10115; Some 10116; None; Some 10118; Some 10119]%Z)
    by (vm_compute; reflexivity).
  assert (Hout : postal_code <$> @leavingOut _ (Sim.helpers siteWithoutFour) 4 7
                                   tenOffers oneLimited = Some (Some 10117%Z))
    by (vm_compute; reflexivity).
  destruct (@addCompanyData_completes _ (Sim.helpers siteWithoutFour) tenOffers oneLimited)
    as (enriched & Hreturns & _).
  rewrite Hreturns in Hrun. split.
  - exists enriched. auto.
  - intros Hclaim.
    destruct (Hclaim (Sim.api siteWithoutFour) (Sim.helpers siteWithoutFour) tenOffers
                oneLimited 4%nat 7%nat (offer "4") eq_refl
                ltac:(apply lookupSite_neverReaches; reflexivity) ltac:(lia)
                ltac:(cbn; lia))
      as (enriched' & Hreturns' & Hsame).
    rewrite Hreturns in Hreturns'. injection Hreturns' as <-.
    rewrite <- Hsame in Hout.
    apply (f_equal (fun codes => codes !! 7%nat)) in Hrun.
    rewrite list_lookup_fmap in Hrun. cbn in Hrun.
    destruct (enriched !! 7%nat) as [p |]; cbn in Hrun, Hout; congruence.
Qed.

(** One crawler on a site without the page of the offer: all its
    navigations fail, the loop goes on and returns, the offer keeps its
    [null]s. *)
Lemma enrichment_failure_is_contained_witness :
  let w := {| companyCrawlers := [Sim.crawlerOn [] Sim.blank]; store := [offer "7"] |} in
  (exists requestCount' w',
     @workerLoop _ (Sim.helpers []) (Some 0%nat) [0%nat] 0 w =
     @workerLoop _ (Sim.helpers []) (Some 0%nat) [] requestCount' w' /\
     store w' = [offer "7"]) /\
  fst (@workerLoop _ (Sim.helpers []) (Some 0%nat) [0%nat] 0 w) = Return tt.
Proof.
  intros w.
  destruct (@enrichment_failure_is_contained _ (Sim.helpers []) (Some 0%nat) 0%nat [] 0%Z w
              (offer "7") eq_refl) as [(requestCount' & w' & Hloop & Hfailed) Hreturns].
  split.
  - exists requestCount', w'. split; [exact Hloop |].
    apply Hfailed. left. vm_compute. reflexivity.
  - apply Hreturns. apply List.Forall_nil.
Defined.

(** The detail page of an offer shows the address of the
    specification. *)
Lemma musterstrasse_postal_code_and_street_witness :
  let site := [(detailUrl "7", Sim.detailPage "Musterstr. 1, 12345 Berlin" "" "51 bis 500")] in
  let w := {| companyCrawlers := [Sim.crawlerOn site (Sim.show (Sim.detailPage "Musterstr. 1, 12345 Berlin" "" "51 bis 500") Sim.blank)];
              store := [offer "7"] |} in
  exists enriched,
    fst (@extractDetails _ (Sim.helpers site) (Some 0%nat) 0%nat w) = Return tt /\
    store (snd (@extractDetails _ (Sim.helpers site) (Some 0%nat) 0%nat w)) !! 0%nat
    = Some enriched /\
    postal_code enriched = Some 12345%Z /\
    street enriched = Some "Musterstr. 1".
Proof.
  intros site w.
  destruct musterstrasse_postal_code_and_street as (_ & _ & Hposting).
  eapply (Hposting (Sim.api site) (Sim.helpers site) (Some 0%nat) 0%nat (offer "7")).
  - reflexivity.
  - vm_compute. reflexivity.
Defined.

End EnrichmentFacts.

(** ** arbeitsagentur-crawler.ts: the pipeline of readPostings *)

Module PipelineFacts.
Import Playwright Text Session Arbeitsagentur JsFacts AsyncFacts.

Section Pipeline.
Context `{Helpers} {Sink : Type}.
Variable url : string.
Variable saveCallback : list Posting -> Async Sink unit.

(** What holds of every run, whatever the schedule. *)
Record Pipelined (s : @Run _ Sink) : Prop := {
  one_promise_per_batch : length (promises s) = length (closed s);
  invoked_in_order : fst <$> invocations s = seq 0 (length (invocations s));
  earlier_fulfilled :
    forall k, (S k < length (promises s))%nat -> promises s !! k = Some Fulfilled;
  finalize_is_last :
    finalizePromise s = match length (promises s) with O => None | S m => Some m end;
  invoked_upto :
    (length (invocations s) <= length (promises s) <= S (length (invocations s)))%nat;
  enriching_pending :
    forall k batch, promises s !! k = Some (Enriching batch) ->
      length (invocations s) = k /\ closed s !! k = Some batch;
  saving_invoked :
    forall k enriched, promises s !! k = Some (Saving enriched) ->
      length (invocations s) = S k;
  fulfilled_invoked :
    forall k, promises s !! k = Some Fulfilled -> (k < length (invocations s))%nat;
  invoked_enriched :
    forall j k enriched, invocations s !! j = Some (k, enriched) ->
      exists batch company,
        closed s !! k = Some batch /\ fst (addCompanyData batch company) = Return enriched;
  rows_counted : count s = (length (concat (closed s)) + length (postings s))%nat;
  batch_handed :
    match position s with
    | NextPage _ | LoopExit | Finished (Return _) => postings s = []
    | _ => True
    end;
  returned :
    forall total, position s = Finished (Return total) ->
      total = count s /\ Forall (eq Fulfilled) (promises s) /\
      length (invocations s) = length (closed s)
}.

Lemma initial_Pipelined (job : Crawler) (company : list Crawler) (sink : Sink) :
  Pipelined (initial job company sink).
Proof.
  constructor; cbn; try reflexivity; try lia; try discriminate; intros; discriminate.
Qed.

(** A step that touches neither the promises nor the batches. *)
Lemma Pipelined_frame (s s' : @Run _ Sink) :
  Pipelined s ->
  promises s' = promises s -> invocations s' = invocations s -> closed s' = closed s ->
  finalizePromise s' = finalizePromise s ->
  count s' = count s -> postings s' = postings s ->
  match position s' with
  | NextPage _ | LoopExit | Finished (Return _) => postings s = []
  | _ => True
  end ->
  (forall total, position s' = Finished (Return total) ->
     total = count s /\ Forall (eq Fulfilled) (promises s) /\
     length (invocations s) = length (closed s)) ->
  Pipelined s'.
Proof.
  intros [] Hp Hi Hc Hf Hn Hb Hpos Hret.
  constructor; rewrite ?Hp, ?Hi, ?Hc, ?Hf, ?Hn, ?Hb; assumption.
Qed.

(** A promise that is not fulfilled is the last one. *)
Lemma pending_is_last (s : @Run _ Sink) (k : nat) (h : HandOff) :
  Pipelined s -> promises s !! k = Some h -> h <> Fulfilled -> length (promises s) = S k.
Proof.
  intros Hs Hk Hh. pose proof (lookup_lt_Some _ _ _ Hk) as Hlt.
  destruct (decide (S k < length (promises s))%nat) as [Hearlier | Hlast]; [| lia].
  rewrite (earlier_fulfilled s Hs k Hearlier) in Hk. congruence.
Qed.

(** While a promise is not fulfilled the loop has not returned. *)
Lemma pending_not_returned (s : @Run _ Sink) (k : nat) (h : HandOff) (total : nat) :
  Pipelined s -> promises s !! k = Some h -> h <> Fulfilled ->
  position s <> Finished (Return total).
Proof.
  intros Hs Hk Hh Hpos. destruct (returned s Hs total Hpos) as (_ & Hall & _).
  pose proof (Forall_lookup_1 _ _ _ _ Hall Hk) as Heq. congruence.
Qed.

(** An [await finalizePromise] that goes through has seen it fulfilled:
    then all promises are, and the sink was invoked for each batch. *)
Lemma awaited_all_fulfilled (s : @Run _ Sink) :
  Pipelined s -> awaitFinalize s = Some (Return tt) ->
  Forall (eq Fulfilled) (promises s) /\ length (invocations s) = length (promises s).
Proof.
  intros Hs. unfold awaitFinalize. rewrite (finalize_is_last s Hs).
  destruct (length (promises s)) as [| m] eqn:Hlen.
  - intros _. apply nil_length_inv in Hlen as Hnil. rewrite Hnil.
    pose proof (invoked_upto s Hs) as Hupto. rewrite Hlen in Hupto.
    split; [apply List.Forall_nil | lia].
  - destruct (promises s !! m) as [[] |] eqn:Hm; try discriminate. intros _. split.
    + apply Forall_lookup_2. intros i h Hi.
      pose proof (lookup_lt_Some _ _ _ Hi) as Hlt.
      destruct (decide (i = m)) as [-> | Hne]; [congruence |].
      rewrite (earlier_fulfilled s Hs i) in Hi by lia. congruence.
    + pose proof (fulfilled_invoked s Hs m Hm) as Hinvoked.
      pose proof (invoked_upto s Hs) as Hupto. rewrite Hlen in Hupto. lia.
Qed.

(** The hand-off of a newly closed batch. *)
Lemma handOff_Pipelined (s : @Run _ Sink) (i : nat) :
  Pipelined s -> awaitFinalize s = Some (Return tt) ->
  let batch := set_from_search_url url <$> postings s in
  Pipelined
    {| position := NextPage i; finalizePromise := Some (length (promises s));
       count := count s; postings := [];
       lastCleanup := lastCleanup s; jobCrawler := jobCrawler s;
       pool := pool s; promises := promises s ++ [Enriching batch];
       sink := sink s; invocations := invocations s;
       closed := closed s ++ [batch] |}.
Proof.
  intros Hs Hawait batch.
  destruct (awaited_all_fulfilled s Hs Hawait) as [Hall Hinvoked].
  pose proof (one_promise_per_batch s Hs) as Hsame.
  assert (Hold : forall k h, (promises s ++ [Enriching batch]) !! k = Some h ->
                 h <> Fulfilled -> k = length (promises s) /\ h = Enriching batch).
  { intros k h Hk Hh. apply lookup_app_Some in Hk as [Hk | [Hge Hk]].
    - pose proof (Forall_lookup_1 _ _ _ _ Hall Hk). congruence.
    - apply list_lookup_singleton_Some in Hk as [Hzero <-]. split; [lia | reflexivity]. }
  constructor; cbn.
  - rewrite !length_app. cbn. lia.
  - apply (invoked_in_order s Hs).
  - intros k Hk. rewrite length_app in Hk. cbn in Hk.
    rewrite lookup_app_l by lia.
    destruct (promises s !! k) as [h |] eqn:Hh.
    + pose proof (Forall_lookup_1 _ _ _ _ Hall Hh). congruence.
    + apply lookup_ge_None in Hh. lia.
  - rewrite length_app. cbn. rewrite Nat.add_1_r. reflexivity.
  - rewrite length_app. cbn. lia.
  - intros k found Hk. destruct (Hold k _ Hk) as [-> [= ->]]; [discriminate |].
    split; [exact Hinvoked |]. rewrite Hsame. apply list_lookup_middle. reflexivity.
  - intros k enriched Hk. destruct (Hold k _ Hk) as [_ [=]]. discriminate.
  - intros k Hk. apply lookup_app_Some in Hk as [Hk | [_ Hk]].
    + apply (fulfilled_invoked s Hs k Hk).
    + apply list_lookup_singleton_Some in Hk as [_ [=]].
  - intros j k enriched Hj.
    destruct (invoked_enriched s Hs j k enriched Hj) as (found & company & Hfound & Henriched).
    exists found, company. split; [| exact Henriched].
    apply lookup_app_l_Some. exact Hfound.
  - rewrite concat_app, length_app. cbn. rewrite app_nil_r.
    unfold batch. rewrite length_fmap. rewrite (rows_counted s Hs). lia.
  - reflexivity.
  - intros total [=].
Qed.

Lemma stepLoop_Pipelined (s s' : @Run _ Sink) :
  Pipelined s -> stepLoop url s = Some s' -> Pipelined s'.
Proof.
  intros Hs. unfold stepLoop.
  destruct (position s) eqn:Hposition.
  - (* the navigations *)
    destruct (goto url false 3 (jobCrawler s)) as [[[] | e] job].
    + destruct (onAll _ (pool s)) as [[[] | e] company]; intros [= <-];
        (apply (Pipelined_frame s); [exact Hs | reflexivity .. | exact I | intros total [=]]).
    + intros [= <-].
      apply (Pipelined_frame s); [exact Hs | reflexivity .. | exact I | intros total [=]].
  - (* one row *)
    destruct (readArbeitsagenturPosting (count s) _) as [[[posting |] | e] job'].
    + intros [= <-]. destruct Hs. constructor; cbn; try assumption.
      * rewrite length_app. cbn. lia.
      * exact I.
      * intros total [=].
    + intros [= <-].
      apply (Pipelined_frame s); [exact Hs | reflexivity .. | exact I | intros total [=]].
    + intros [= <-].
      apply (Pipelined_frame s); [exact Hs | reflexivity .. | exact I | intros total [=]].
  - (* the end of a batch *)
    destruct (awaitFinalize s) as [[[] | e] |] eqn:Hawait; [| | discriminate].
    + destruct (postings s) as [| posting rest] eqn:Hpostings.
      * intros [= <-].
        apply (Pipelined_frame s);
          [exact Hs | reflexivity .. | exact Hpostings | intros total [=]].
      * intros [= <-]. pose proof (handOff_Pipelined s i Hs Hawait) as Hnew.
        cbv zeta in Hnew. rewrite Hpostings in Hnew. exact Hnew.
    + intros [= <-].
      apply (Pipelined_frame s); [exact Hs | reflexivity .. | exact I | intros total [=]].
  - (* the next page *)
    pose proof (batch_handed s Hs) as Hhanded. rewrite Hposition in Hhanded.
    destruct (loadNextPage i (jobCrawler s)) as [[[[] | exited] | e] job]; intros [= <-].
    + apply (Pipelined_frame s); [exact Hs | reflexivity .. | exact I | intros total [=]].
    + apply (Pipelined_frame s);
        [exact Hs | reflexivity .. | exact Hhanded | intros total [=]].
    + apply (Pipelined_frame s); [exact Hs | reflexivity .. | exact I | intros total [=]].
    + apply (Pipelined_frame s); [exact Hs | reflexivity .. | exact I | intros total [=]].
  - (* after the loop *)
    pose proof (batch_handed s Hs) as Hhanded. rewrite Hposition in Hhanded.
    destruct (awaitFinalize s) as [[[] | e] |] eqn:Hawait; [| | discriminate]; intros [= <-].
    + destruct (awaited_all_fulfilled s Hs Hawait) as [Hall Hinvoked].
      apply (Pipelined_frame s); [exact Hs | reflexivity .. | exact Hhanded |].
      intros total [= <-]. rewrite <- (one_promise_per_batch s Hs). auto.
    + apply (Pipelined_frame s); [exact Hs | reflexivity .. | exact I | intros total [=]].
  - discriminate.
  - discriminate.
Qed.

(** A stage of the last promise that leaves it settled or saving. *)
Lemma settle_Pipelined (s : @Run _ Sink) (k : nat) (before after : HandOff)
    (company : list Crawler) (sink' : Sink) :
  Pipelined s -> promises s !! k = Some before -> before <> Fulfilled ->
  (forall batch, after <> Enriching batch) ->
  (forall enriched, after = Saving enriched -> length (invocations s) = S k) ->
  (after = Fulfilled -> length (invocations s) = S k) ->
  Pipelined
    {| position := position s; finalizePromise := finalizePromise s;
       count := count s; postings := postings s;
       lastCleanup := lastCleanup s; jobCrawler := jobCrawler s;
       pool := company; promises := <[k := after]> (promises s);
       sink := sink'; invocations := invocations s; closed := closed s |}.
Proof.
  intros Hs Hk Hbefore Hafter Hsaving Hfulfilled.
  pose proof (pending_is_last s k before Hs Hk Hbefore) as Hlast.
  assert (Hother : forall j h, <[k := after]> (promises s) !! j = Some h -> h <> Fulfilled ->
                   j = k /\ h = after).
  { intros j h Hj Hh. destruct (decide (j = k)) as [-> | Hne].
    - rewrite list_lookup_insert_eq in Hj by lia. split; congruence.
    - rewrite list_lookup_insert_ne in Hj by congruence.
      pose proof (pending_is_last s j h Hs Hj Hh). lia. }
  constructor; cbn; rewrite ?length_insert.
  - apply (one_promise_per_batch s Hs).
  - apply (invoked_in_order s Hs).
  - intros j Hj. rewrite list_lookup_insert_ne by lia. apply (earlier_fulfilled s Hs j Hj).
  - apply (finalize_is_last s Hs).
  - apply (invoked_upto s Hs).
  - intros j batch Hj. destruct (Hother j _ Hj) as [_ Heq]; [discriminate |].
    symmetry in Heq. destruct (Hafter _ Heq).
  - intros j enriched Hj. destruct (Hother j _ Hj) as [-> Heq]; [discriminate |].
    symmetry in Heq. apply (Hsaving _ Heq).
  - intros j Hj. destruct (decide (j = k)) as [-> | Hne].
    + rewrite list_lookup_insert_eq in Hj by lia. injection Hj as Heq.
      rewrite (Hfulfilled Heq). lia.
    + rewrite list_lookup_insert_ne in Hj by congruence.
      apply (fulfilled_invoked s Hs j Hj).
  - apply (invoked_enriched s Hs).
  - apply (rows_counted s Hs).
  - apply (batch_handed s Hs).
  - intros total Hpos. destruct (pending_not_returned s k before total Hs Hk Hbefore Hpos).
Qed.

Lemma stepHandOff_Pipelined (s s' : @Run _ Sink) (k : nat) :
  Pipelined s -> stepHandOff saveCallback k s = Some s' -> Pipelined s'.
Proof.
  intros Hs. unfold stepHandOff. destruct (hasExited s); [discriminate |].
  destruct (promises s !! k) as [[batch | enriched | | e] |] eqn:Hk; try discriminate.
  - (* the enrichment resolves *)
    destruct (enriching_pending s Hs k batch Hk) as [Hinvoked Hclosed].
    pose proof (pending_is_last s k _ Hs Hk ltac:(discriminate)) as Hlast.
    destruct (addCompanyData batch (pool s)) as [[enriched | e] company] eqn:Hrun; intros [= <-].
    + assert (Hother : forall j h, <[k := Saving enriched]> (promises s) !! j = Some h ->
                       h <> Fulfilled -> j = k /\ h = Saving enriched).
      { intros j h Hj Hh. destruct (decide (j = k)) as [-> | Hne].
        - rewrite list_lookup_insert_eq in Hj by lia. split; congruence.
        - rewrite list_lookup_insert_ne in Hj by congruence.
          pose proof (pending_is_last s j h Hs Hj Hh). lia. }
      constructor; cbn; rewrite ?length_insert, ?length_app; cbn.
      * apply (one_promise_per_batch s Hs).
      * rewrite fmap_app, (invoked_in_order s Hs), Hinvoked, Nat.add_1_r, seq_S.
        reflexivity.
      * intros j Hj. rewrite list_lookup_insert_ne by lia.
        apply (earlier_fulfilled s Hs j Hj).
      * apply (finalize_is_last s Hs).
      * lia.
      * intros j found Hj. destruct (Hother j _ Hj) as [_ [=]]. discriminate.
      * intros j found Hj. destruct (Hother j _ Hj) as [-> _]; [discriminate | lia].
      * intros j Hj. destruct (decide (j = k)) as [-> | Hne].
        -- rewrite list_lookup_insert_eq in Hj by lia. discriminate.
        -- rewrite list_lookup_insert_ne in Hj by congruence.
           pose proof (fulfilled_invoked s Hs j Hj). lia.
      * intros j k' found Hj. apply lookup_app_Some in Hj as [Hj | [_ Hj]].
        -- apply (invoked_enriched s Hs j k' found Hj).
        -- apply list_lookup_singleton_Some in Hj as [_ [= <- <-]].
           exists batch, (pool s). rewrite Hrun. split; [exact Hclosed | reflexivity].
      * apply (rows_counted s Hs).
      * apply (batch_handed s Hs).
      * intros total Hpos.
        destruct (pending_not_returned s k _ total Hs Hk ltac:(discriminate) Hpos).
    + apply (settle_Pipelined s k _ (Rejected e) company (sink s) Hs Hk);
        discriminate.
  - (* the promise of the sink settles *)
    pose proof (saving_invoked s Hs k enriched Hk) as Hinvoked.
    destruct (saveCallback enriched (sink s)) as [[[] | e] sink']; intros [= <-].
    + apply (settle_Pipelined s k _ Fulfilled (pool s) sink' Hs Hk);
        try discriminate; intros; exact Hinvoked.
    + apply (settle_Pipelined s k _ (Rejected e) (pool s) sink' Hs Hk); discriminate.
Qed.

Lemma step_Pipelined (c : Choice) (s s' : @Run _ Sink) :
  Pipelined s -> step url saveCallback c s = Some s' -> Pipelined s'.
Proof.
  destruct c as [| k]; [apply stepLoop_Pipelined | apply stepHandOff_Pipelined].
Qed.

Lemma exec_Pipelined (schedule : list Choice) (s : @Run _ Sink) :
  Pipelined s -> Pipelined (exec url saveCallback schedule s).
Proof.
  revert s. induction schedule as [| c schedule IH]; intros s Hs; [exact Hs |].
  cbn. apply IH. destruct (step url saveCallback c s) as [s' |] eqn:Hstep; [| exact Hs].
  apply (step_Pipelined c s s' Hs Hstep).
Qed.

(** *** The journals only grow *)

Lemma stepLoop_extends (s s' : @Run _ Sink) :
  stepLoop url s = Some s' ->
  invocations s `prefix_of` invocations s' /\ closed s `prefix_of` closed s'.
Proof.
  unfold stepLoop. intros Hstep.
  repeat case_match; simplify_eq; cbn; split; try reflexivity.
  apply prefix_app_r. reflexivity.
Qed.

Lemma stepHandOff_extends (s s' : @Run _ Sink) (k : nat) :
  stepHandOff saveCallback k s = Some s' ->
  invocations s `prefix_of` invocations s' /\ closed s `prefix_of` closed s'.
Proof.
  unfold stepHandOff. intros Hstep.
  repeat case_match; simplify_eq; cbn; split; try reflexivity.
  apply prefix_app_r. reflexivity.
Qed.

Lemma exec_extends (schedule : list Choice) (s : @Run _ Sink) :
  invocations s `prefix_of` invocations (exec url saveCallback schedule s) /\
  closed s `prefix_of` closed (exec url saveCallback schedule s).
Proof.
  revert s. induction schedule as [| c schedule IH]; intros s; [split; reflexivity |].
  cbn. destruct (step url saveCallback c s) as [s' |] eqn:Hstep; [| apply IH].
  destruct (IH s') as [Hinvoked Hclosed].
  assert (Hone : invocations s `prefix_of` invocations s' /\ closed s `prefix_of` closed s').
  { destruct c as [| k]; [apply stepLoop_extends | apply (stepHandOff_extends s s' k)];
      exact Hstep. }
  destruct Hone. split; etransitivity; eassumption.
Qed.

Lemma exec_app (schedule later : list Choice) (s : @Run _ Sink) :
  exec url saveCallback (schedule ++ later) s
  = exec url saveCallback later (exec url saveCallback schedule s).
Proof. unfold exec. apply fold_left_app. Qed.

End Pipeline.

(** C1. At every point of every run of [readPostings], whatever the
    interleaving of the loop and the hand-off promises: the sink has been
    invoked for the batches numbered 0, 1, .. in this order, each time
    with the enrichment of the batch closed under that number, and what
    was invoked stays invoked as the run goes on; there is one hand-off
    per closed batch, and once batch k+1 is closed the hand-off of batch
    k is fulfilled, its sink invocation made; and when the loop has
    returned, the value is the row count, every hand-off is fulfilled and
    the sink was invoked for every closed batch. *)
Theorem readPostings_hands_off_in_order `{Helpers} {Sink : Type} (url : string)
    (saveCallback : list Posting -> Async Sink unit) (schedule later : list Choice)
    (job : Crawler) (company : list Crawler) (sink : Sink) :
  let s := readPostings url saveCallback schedule job company sink in
  let s' := readPostings url saveCallback (schedule ++ later) job company sink in
  (invocations s `prefix_of` invocations s' /\ closed s `prefix_of` closed s') /\
  fst <$> invocations s = seq 0 (length (invocations s)) /\
  (forall k enriched, invocations s !! k = Some (k, enriched) ->
     exists batch crawlers,
       closed s !! k = Some batch /\ fst (addCompanyData batch crawlers) = Return enriched) /\
  length (promises s) = length (closed s) /\
  (forall k, (S k < length (closed s))%nat ->
     promises s !! k = Some Fulfilled /\ (k < length (invocations s))%nat) /\
  (forall total, position s = Finished (Return total) ->
     total = count s /\ total = length (concat (closed s)) /\
     Forall (eq Fulfilled) (promises s) /\
     length (invocations s) = length (closed s)).
Proof.
  intros s s'.
  assert (Hs : Pipelined s) by apply exec_Pipelined, initial_Pipelined.
  split.
  { unfold s', readPostings. rewrite exec_app. apply exec_extends. }
  split; [apply (invoked_in_order s Hs) |].
  split; [intros k enriched; apply (invoked_enriched s Hs) |].
  split; [apply (one_promise_per_batch s Hs) |].
  split.
  - intros k Hk. rewrite <- (one_promise_per_batch s Hs) in Hk.
    pose proof (earlier_fulfilled s Hs k Hk) as Hfulfilled.
    split; [exact Hfulfilled | apply (fulfilled_invoked s Hs k Hfulfilled)].
  - intros total Hpos. destruct (returned s Hs total Hpos) as (Htotal & Hall & Hinvoked).
    pose proof (batch_handed s Hs) as Hhanded. rewrite Hpos in Hhanded.
    pose proof (rows_counted s Hs) as Hcount. rewrite Hhanded in Hcount. cbn in Hcount.
    repeat split; try assumption. lia.
Qed.

(** *** A run on the simulated browser *)

Definition searchUrl : string := "https://www.arbeitsagentur.de/jobsuche/suche?was=Koch".

Definition row (employer id : string) : Sim.Row :=
  {| Sim.firma := "Arbeitgeber:" +:+ newline +:+ employer; Sim.beruf := "Koch";
     Sim.arbeitsort := "Berlin"; Sim.eintrittsdatum := "ab sofort";
     Sim.veroeffentlicht := "Veröffentlichungsdatum: 01.02.2024";
     Sim.link := "https://www.arbeitsagentur.de/jobsuche/jobdetail/" +:+ id |}.

(** Two rows on the first page of results, one more after "load more",
    and the detail pages of the three. *)
Definition threeRows : list (string * list Sim.Node) :=
  [(searchUrl, Sim.listing (Sim.numbered 0 [row "ACME GmbH" "10000-1-S"; row "Bolle KG" "10000-2-S"]));
   ("https://www.arbeitsagentur.de/jobsuche/", []);
   (detailUrl "10000-1-S", Sim.detailPage "Musterstr. 1, 12345 Berlin" "" "");
   (detailUrl "10000-2-S", Sim.detailPage "Hauptstr. 2, 10115 Berlin" "" "");
   (detailUrl "10000-3-S", Sim.detailPage "Ring 3, 50667 Köln" "" "")].

Definition jobBrowser : Sim.Browser :=
  {| Sim.document := []; Sim.forecast := [];
     Sim.more := [Sim.rowNodes (Sim.numbered 2 [row "Curry AG" "10000-3-S"])];
     Sim.opened := 1; Sim.closedPages := []; Sim.crashedPages := []; Sim.pagesLeft := 3 |}.

(** The sink keeps what it is given. *)
Definition keep (batch : list Posting) : Async (list (list Posting)) unit :=
  effect (fun kept => kept ++ [batch]).

Definition exampleRun (schedule : list Choice) : @Run (Sim.api threeRows) (list (list Posting)) :=
  @readPostings _ (Sim.helpers threeRows) _ searchUrl keep schedule
    (Sim.crawlerOn threeRows jobBrowser)
    (replicate 2 (Sim.crawlerOn threeRows Sim.blank)) [].

(** With the promises scheduled, the run returns 3 after two sink
    invocations, of the batches 0 and 1; with the loop alone scheduled,
    the run waits at the end of the second batch for the hand-off of the
    first, and the sink is not invoked. *)
Lemma readPostings_example :
  let fair := concat (replicate 12 [TheLoop; ThePromise 1; ThePromise 0]) in
  let s := exampleRun fair in
  let starved := exampleRun (replicate 40 TheLoop) in
  (position s = Finished (Return 3%nat) /\
   fst <$> invocations s = [0; 1]%nat /\
   (fmap (M := list) postal_code <$> sink s) = [[Some 12345; Some 10115]; [Some 50667]]%Z /\
   promises s = [Fulfilled; Fulfilled]) /\
  (position starved = BatchEnd 3 /\ invocations starved = [] /\
   length (closed starved) = 1%nat).
Proof. vm_compute. repeat split. Qed.

End PipelineFacts.

(** * Further properties *)

(** ** misc/request.ts: how the backoff ends and how long it waits *)

Module BackoffFacts.
Import Request JsFacts RequestFacts.

(** The world with a counter of the runs of [fn] and the list of the
    waits, in the order they were made. *)
Definition observed {W T} (fn : Async W T) : Async (nat * list Z * W) T :=
  fun s => let '(r, w') := fn (snd s) in (r, (S (fst (fst s)), snd (fst s), w')).

Definition noting {W} (setTimeout : Z -> W -> W) : Z -> nat * list Z * W -> nat * list Z * W :=
  fun ms s => (fst (fst s), snd (fst s) ++ [ms], setTimeout ms (snd s)).

(** [delay * 2^from], [delay * 2^(from + 1)], ..: [m] waits. *)
Definition waits (delay from : Z) (m : nat) : list Z :=
  (fun j : nat => delay * 2 ^ (from + Z.of_nat j))%Z <$> seq 0 m.

Lemma waits_S (delay from : Z) (m : nat) :
  waits delay from (S m) = (delay * 2 ^ from)%Z :: waits delay (from + 1) m.
Proof.
  unfold waits. cbn [seq fmap list_fmap]. f_equal.
  - f_equal. f_equal. lia.
  - rewrite <- fmap_S_seq, <- list_fmap_compose. apply list_fmap_ext.
    intros i j _. cbn. f_equal. f_equal. lia.
Qed.

Section Observed.
Context {W T : Type}.
Variable setTimeout : Z -> W -> W.
Variable fn : Async W T.
Variables maxRetries delay : Z.

Lemma backoff_loop_unobserved (remaining : nat) :
  forall (attempt : Z) (error : Thrown) (s : nat * list Z * W),
  let run := backoff_loop (noting setTimeout) (observed fn) maxRetries delay
               remaining attempt error s in
  (fst run, snd (snd run)) = backoff_loop setTimeout fn maxRetries delay
                               remaining attempt error (snd s).
Proof.
  induction remaining as [| remaining IH]; intros attempt error [[c l] w]; cbn;
    [reflexivity |].
  unfold try_catch, observed. cbn.
  destruct (fn w) as [[v | e] w']; cbn; [reflexivity |].
  destruct (attempt =? maxRetries - 1)%Z; cbn; [reflexivity |].
  unfold bind, effect, noting. cbn.
  apply (IH _ _ (S c, l ++ [(delay * 2 ^ attempt)%Z], setTimeout (delay * 2 ^ attempt)%Z w')).
Qed.

Lemma backoff_loop_waits (remaining : nat) :
  forall (attempt : Z) (error : Thrown) (c : nat) (l : list Z) (w : W),
  (attempt + Z.of_nat (S remaining) = maxRetries)%Z ->
  let run := backoff_loop (noting setTimeout) (observed fn) maxRetries delay
               (S remaining) attempt error (c, l, w) in
  exists m : nat,
    (m <= remaining)%nat /\
    fst (fst (snd run)) = (c + S m)%nat /\
    snd (fst (snd run)) = l ++ waits delay attempt m /\
    (raises (fst run) = true -> m = remaining).
Proof.
  induction remaining as [| remaining IH]; intros attempt error c l w Hattempt run;
    subst run; destruct (fn w) as [[v | e] w'] eqn:Hfn.
  - erewrite backoff_loop_returns
      by (unfold observed; cbn [snd]; rewrite Hfn; reflexivity).
    exists 0%nat. cbn. rewrite app_nil_r. repeat split; try lia; try discriminate.
  - erewrite backoff_loop_last
      by (try (unfold observed; cbn [snd]; rewrite Hfn; reflexivity); lia).
    exists 0%nat. cbn. rewrite app_nil_r. repeat split; lia.
  - erewrite backoff_loop_returns
      by (unfold observed; cbn [snd]; rewrite Hfn; reflexivity).
    exists 0%nat. cbn. rewrite app_nil_r. repeat split; try lia; try discriminate.
  - erewrite backoff_loop_retries
      by (try (unfold observed; cbn [snd]; rewrite Hfn; reflexivity); lia).
    cbn [fst snd].
    replace (noting setTimeout (delay * 2 ^ attempt)%Z (S c, l, w'))
      with (S c, l ++ [(delay * 2 ^ attempt)%Z], setTimeout (delay * 2 ^ attempt)%Z w')
      by reflexivity.
    destruct (IH (attempt + 1)%Z e (S c) (l ++ [(delay * 2 ^ attempt)%Z])
                (setTimeout (delay * 2 ^ attempt)%Z w') ltac:(lia))
      as (m & Hm & Hcount & Hlog & Hraises).
    exists (S m). rewrite waits_S.
    split; [lia |]. split; [rewrite Hcount; lia |].
    split; [rewrite Hlog, <- app_assoc; reflexivity |].
    intros Hr. rewrite (Hraises Hr). reflexivity.
Qed.
End Observed.

(** X1. With at least one attempt allowed, [exponentialBackoff] ends as
    its first successful attempt does, the attempts before it having
    failed; when none of the [n] attempts succeeds it ends as the last
    one does, so what it throws is what the last attempt threw. *)
Theorem exponentialBackoff_ends_as_an_attempt {W T} (setTimeout : Z -> W -> W)
    (fn : Async W T) (n d : Z) (w : W) :
  (1 <= n)%Z ->
  exists k : nat,
    (Z.of_nat k < n)%Z /\
    (forall j, (j < k)%nat -> raises (fst (attemptNo setTimeout fn d j w)) = true) /\
    exponentialBackoff setTimeout fn n d w = attemptNo setTimeout fn d k w /\
    (raises (fst (attemptNo setTimeout fn d k w)) = true -> Z.of_nat (S k) = n).
Proof.
  intros Hn. unfold exponentialBackoff, attemptNo.
  destruct (attempts_cases setTimeout fn d (Z.to_nat n) 0%Z w)
    as [(k & Hk & Hreturns & Hfail) | Hall].
  - exists k. split; [lia |]. split; [exact Hfail |]. split.
    + apply backoff_loop_success; [exact Hk | lia | exact Hreturns | exact Hfail].
    + intros Hraises. unfold raises in Hraises. rewrite Hreturns in Hraises. discriminate.
  - destruct (Z.to_nat n) as [| remaining] eqn:Hremaining; [lia |].
    exists remaining. split; [lia |]. split; [intros j Hj; apply Hall; lia |]. split.
    + apply backoff_loop_exhausted; [lia |]. intros j Hj. apply Hall. lia.
    + intros _. lia.
Qed.

(** Three attempts allowed, the first two fail and the third returns 7:
    the backoff returns 7. *)
Lemma exponentialBackoff_ends_as_an_attempt_witness :
  let fn : Async nat nat :=
    fun calls => (if (calls <? 2)%nat then Throw (Error "busy") else Return 7%nat, S calls) in
  exists k : nat,
    (Z.of_nat k < 3)%Z /\
    exponentialBackoff (fun _ calls => calls) fn 3 500 0%nat
    = attemptNo (fun _ calls => calls) fn 500 k 0%nat /\
    attemptNo (fun _ calls => calls) fn 500 k 0%nat = (Return 7%nat, 3%nat).
Proof.
  intros fn.
  destruct (exponentialBackoff_ends_as_an_attempt (fun _ calls => calls) fn 3 500 0%nat
              ltac:(lia)) as (k & Hk & Hfail & Hends & Hlast).
  exists k. split; [exact Hk |]. split; [exact Hends |].
  rewrite <- Hends. reflexivity.
Defined.

(** X2. With at least one attempt allowed, a backoff that runs [fn]
    [m + 1] times has waited [m] times in between, for [d], [2d], [4d],
    .. milliseconds in this order, and not after its last attempt; when
    it throws it has made all [n] attempts.  Observing the runs and the
    waits changes nothing else. *)
Theorem exponentialBackoff_waits_double {W T} (setTimeout : Z -> W -> W)
    (fn : Async W T) (n d : Z) (w : W) :
  (1 <= n)%Z ->
  let run := exponentialBackoff (noting setTimeout) (observed fn) n d (0%nat, [], w) in
  (fst run, snd (snd run)) = exponentialBackoff setTimeout fn n d w /\
  exists m : nat,
    (Z.of_nat m < n)%Z /\
    fst (fst (snd run)) = S m /\
    snd (fst (snd run)) = (fun j : nat => d * 2 ^ Z.of_nat j)%Z <$> seq 0 m /\
    (raises (fst run) = true -> Z.of_nat (S m) = n).
Proof.
  intros Hn run. split.
  - apply (backoff_loop_unobserved setTimeout fn n d (Z.to_nat n) 0%Z Undefined (0%nat, [], w)).
  - subst run. unfold exponentialBackoff.
    destruct (Z.to_nat n) as [| remaining] eqn:Hremaining; [lia |].
    destruct (backoff_loop_waits setTimeout fn n d remaining 0%Z Undefined 0%nat [] w
                ltac:(lia)) as (m & Hm & Hcount & Hlog & Hraises).
    exists m. split; [lia |]. split; [exact Hcount |]. split.
    + rewrite Hlog. reflexivity.
    + intros Hr. rewrite (Hraises Hr). lia.
Qed.

(** A function that always fails, four attempts allowed from 500 ms:
    four runs, and the waits 500, 1000, 2000. *)
Lemma exponentialBackoff_waits_double_witness :
  let run := exponentialBackoff (noting (fun _ (w : unit) => w))
               (observed (throw (Error "no") : Async unit nat)) 4 500 (0%nat, [], tt) in
  fst (fst (snd run)) = 4%nat /\ snd (fst (snd run)) = [500; 1000; 2000]%Z.
Proof.
  intros run.
  destruct (exponentialBackoff_waits_double (fun _ (w : unit) => w)
              (throw (Error "no") : Async unit nat) 4 500 tt ltac:(lia))
    as (_ & m & Hm & Hcount & Hlog & Hraises).
  assert (Hfour : m = 3%nat) by (specialize (Hraises eq_refl); lia).
  subst m. split; [exact Hcount | exact Hlog].
Defined.

End BackoffFacts.

(** ** misc/postal-code.ts: which digits are taken *)

Module PostalMatchFacts.
Import Text PostalCode.

Lemma matchFiveDigits_leftmost (address : string) :
  match matchFiveDigits address with
  | None => forall i, leadingDigits 5 (drop i address) = None
  | Some d =>
      exists i, leadingDigits 5 (drop i address) = Some d /\
                forall j, (j < i)%nat -> leadingDigits 5 (drop j address) = None
  end.
Proof.
  induction address as [| c rest IH].
  - cbn. intros [| i]; reflexivity.
  - cbn [matchFiveDigits].
    destruct (leadingDigits 5 (String c rest)) as [d |] eqn:Hhere.
    + exists 0%nat. split; [exact Hhere | intros j Hj; lia].
    + destruct (matchFiveDigits rest) as [d |].
      * destruct IH as (i & Hi & Hbefore). exists (S i). split; [exact Hi |].
        intros [| j] Hj; [exact Hhere | apply Hbefore; lia].
      * intros [| i]; [exact Hhere | apply IH].
Qed.

(** X3. [getPostalCodeFromAddress] returns [null] for [null], and for a
    text exactly when no five consecutive digits occur in it; otherwise
    its value is that of the leftmost five consecutive digits. *)
Theorem getPostalCodeFromAddress_leftmost :
  getPostalCodeFromAddress None = None /\
  forall address : string,
    match getPostalCodeFromAddress (Some address) with
    | None => forall i, leadingDigits 5 (drop i address) = None
    | Some code =>
        exists i d,
          leadingDigits 5 (drop i address) = Some d /\ code = parseDigits d /\
          forall j, (j < i)%nat -> leadingDigits 5 (drop j address) = None
    end.
Proof.
  split; [reflexivity |]. intros address.
  unfold getPostalCodeFromAddress. cbn [mbind option_bind].
  pose proof (matchFiveDigits_leftmost address) as Hmatch.
  destruct (matchFiveDigits address) as [d |]; [| exact Hmatch].
  destruct Hmatch as (i & Hi & Hbefore). exists i, d. auto.
Qed.

End PostalMatchFacts.

(** ** misc/array.ts: nothing is lost in the grouping *)

Module GroupByFacts.
Import ArrayUtil EnrichmentFacts.

(** The number of items in all groups. *)
Definition grouped {T} (groups : gmap Z (list T)) : nat :=
  sum_list_with (fun entry => length (snd entry)) (map_to_list groups).

Lemma grouped_insert {T} (groups : gmap Z (list T)) (key : Z) (group : list T) :
  groups !! key = None -> grouped (<[key := group]> groups) = (length group + grouped groups)%nat.
Proof.
  intros Hnone. unfold grouped. rewrite (map_to_list_insert groups key group Hnone).
  reflexivity.
Qed.

Lemma grouped_push {T} (getGroup : T -> nat -> Z) (result : gmap Z (list T))
    (item : T) (index : nat) :
  grouped (push getGroup result item index) = S (grouped result).
Proof.
  unfold push. destruct (result !! getGroup item index) as [group |] eqn:Hgroup.
  - rewrite <- (insert_delete_id result _ _ Hgroup) at 1.
    rewrite alter_insert_eq, grouped_insert by apply lookup_delete_eq.
    rewrite <- (insert_delete_id result _ _ Hgroup) at 2.
    rewrite grouped_insert by apply lookup_delete_eq.
    rewrite length_app. cbn. lia.
  - rewrite alter_insert_eq, grouped_insert by exact Hgroup. reflexivity.
Qed.

Lemma grouped_reduce {T} (getGroup : T -> nat -> Z) (array : list T) :
  forall (index : nat) (result : gmap Z (list T)),
  grouped (reduce_from (push getGroup) array index result)
  = (grouped result + length array)%nat.
Proof.
  induction array as [| item rest IH]; intros index result; cbn [reduce_from length]; [lia |].
  rewrite IH, grouped_push. lia.
Qed.

(** X4. [groupBy] with integer keys loses and invents nothing: a key has
    a group exactly when some item has that key, the group holds the
    items of its key in the order of the array, and the sizes of the
    groups add up to the length of the array. *)
Theorem groupBy_partitions {T} (array : list T) (getGroup : T -> nat -> Z) :
  (forall key : Z,
     groupBy array getGroup !! key =
     match members getGroup key array 0 with
     | [] => None
     | found => Some found
     end) /\
  sum_list_with (fun entry => length (snd entry)) (map_to_list (groupBy array getGroup))
  = length array.
Proof.
  split; [intros key; apply groupBy_lookup |].
  unfold groupBy. change (fun result item index => _) with (push getGroup).
  pose proof (grouped_reduce getGroup array 0 ∅) as Hsum. unfold grouped in Hsum.
  rewrite Hsum, map_to_list_empty. reflexivity.
Qed.

End GroupByFacts.

(** ** misc/flow-control.ts: what waitUntil can end with *)

Module WaitUntilFacts.
Import FlowControl.

Lemma poll_result {W T} (truthy : T -> bool) (condition : Async W T) (timedOut : string)
    (ticks : nat) : forall w : W,
  match fst (poll truthy condition timedOut ticks w) with
  | Return (Yields result) => truthy result = true
  | Return (Exits e) => exists w0, fst (condition w0) = Throw e
  | Throw e => e = Reason timedOut
  end.
Proof.
  induction ticks as [| ticks IH]; intros w; cbn [poll].
  - destruct (condition w) as [[result | e] w'] eqn:Hcondition; cbn; [reflexivity |].
    exists w. rewrite Hcondition. reflexivity.
  - destruct (condition w) as [[result | e] w'] eqn:Hcondition.
    + destruct (truthy result) eqn:Hresult; [exact Hresult | apply IH].
    + cbn. exists w. rewrite Hcondition. reflexivity.
Qed.

(** X5. What [waitUntil] resolves to is truthy; it rejects only with
    what the first call of [condition] threw or, after the deadline,
    with the time-out text (a string, no [Error]); and it ends the
    process only when the first call of [condition] resolved (falsy) and
    a later call of it, made by an interval callback, threw. *)
Theorem waitUntil_result {W T} (truthy : T -> bool) (condition : Async W T)
    (timedOut : string) (ticks : nat) (w : W) :
  match fst (waitUntil truthy condition timedOut ticks w) with
  | Return (Yields result) => truthy result = true
  | Return (Exits e) =>
      (exists result, fst (condition w) = Return result /\ truthy result = false) /\
      exists w0, fst (condition w0) = Throw e
  | Throw e => e = Reason timedOut \/ fst (condition w) = Throw e
  end.
Proof.
  unfold waitUntil, bind, ret.
  destruct (condition w) as [[result | e] w'] eqn:Hcondition; cbn; [| right; reflexivity].
  destruct (truthy result) eqn:Hresult; [exact Hresult |].
  pose proof (poll_result truthy condition timedOut ticks w') as Hpoll.
  destruct (fst (poll truthy condition timedOut ticks w')) as [[found | exited] | e];
    [exact Hpoll | | left; exact Hpoll].
  split; [exists result; auto | exact Hpoll].
Qed.

End WaitUntilFacts.

(** ** crawler.ts: probing, cleaning up, recreating, waiting *)

Module SessionEdgeFacts.
Import Playwright Text Session JsFacts AsyncFacts SessionFacts.

Section WithEngine.
Context `{Api}.

#[local] Existing Instances samePage_refl samePage_trans.

(** Same browser and same page. *)
Definition sameTab (c c' : Crawler) : Prop :=
  browser c' = browser c /\ page c' = page c.

#[local] Instance sameTab_refl : Reflexive sameTab.
Proof. intros c. split; reflexivity. Qed.
#[local] Instance sameTab_trans : Transitive sameTab.
Proof. intros a b c [] []. split; congruence. Qed.

Lemma samePage_sameTab {A} (m : Async Crawler A) : keeps samePage m -> keeps sameTab m.
Proof. intros Hm c. destruct (Hm c) as (Hb & Hp & _). split; assumption. Qed.

Lemma cleanupMemory_sameTab : keeps sameTab cleanupMemory.
Proof.
  unfold cleanupMemory. apply keeps_try_catch; try typeclasses eauto.
  - apply keeps_bind; try typeclasses eauto.
    + apply samePage_sameTab, isPageHealthy_samePage.
    + intros [|]; [| apply keeps_ret; typeclasses eauto].
      apply keeps_bind; try typeclasses eauto; [apply keeps_read; typeclasses eauto |].
      intros this. apply keeps_bind; try typeclasses eauto.
      * apply samePage_sameTab, call_samePage.
      * intros _. apply samePage_sameTab, call_samePage.
  - intros e. apply keeps_effect. intros c. split; reflexivity.
Qed.

(** X6. Neither [isPageHealthy] nor [cleanupMemory] ever throws, whatever
    the engine answers, and both leave the session on the browser and
    the page it had.  A closed page is reported unhealthy without a call
    to the engine; and on a session probed unhealthy [cleanupMemory]
    does nothing but the probe. *)
Theorem probe_and_cleanup_never_throw (c : Crawler) :
  (exists healthy, fst (isPageHealthy c) = Return healthy) /\
  sameTab c (snd (isPageHealthy c)) /\
  (page_isClosed (page c) (engine c) = true -> isPageHealthy c = (Return false, c)) /\
  fst (cleanupMemory c) = Return tt /\
  sameTab c (snd (cleanupMemory c)) /\
  (fst (isPageHealthy c) = Return false ->
   cleanupMemory c = (Return tt, snd (isPageHealthy c))).
Proof.
  split; [apply isPageHealthy_settles |].
  split; [apply samePage_sameTab, isPageHealthy_samePage |].
  split.
  { intros Hclosed. unfold isPageHealthy, try_catch, bind, read, ret, id.
    rewrite Hclosed. reflexivity. }
  split.
  { unfold cleanupMemory, try_catch.
    destruct (bind isPageHealthy _ c) as [[[] | e] c']; reflexivity. }
  split; [apply cleanupMemory_sameTab |].
  intros Hunhealthy. unfold cleanupMemory, try_catch, bind.
  destruct (isPageHealthy c) as [r c']. cbn in Hunhealthy. subst r. reflexivity.
Qed.

(** X7. [recreatePage] never changes the browser of the session.  When
    it returns, the page of the session is one that [browser.newPage()]
    has just returned; when it throws, the session still refers to the
    page it had (which [recreatePage] may have closed).  A failure to
    close the old page is not a failure of [recreatePage]. *)
Theorem recreatePage_replaces_the_page (c : Crawler) :
  match recreatePage c with
  | (Return _, c') =>
      browser c' = browser c /\
      exists e e', browser_newPage (browser c) e = (Return (page c'), e')
  | (Throw thrown, c') =>
      browser c' = browser c /\ page c' = page c /\
      exists e,
        fst (browser_newPage (browser c) e) = Throw thrown \/
        exists newPage e',
          browser_newPage (browser c) e = (Return newPage, e') /\
          (fst (page_setViewportSize newPage 1080 1440 e') = Throw thrown \/
           fst (page_addInitScript newPage
                  (snd (page_setViewportSize newPage 1080 1440 e'))) = Throw thrown)
  end.
Proof.
  unfold recreatePage. unfold bind at 1.
  match goal with
  | |- context [try_catch ?m ?h c] =>
      assert (Hkeeps : keeps samePage (try_catch m h));
      [| assert (Hr : fst (try_catch m h c) = Return tt);
         [| pose proof (Hkeeps c) as (Hb & Hp & _);
            destruct (try_catch m h c) as [r c1] ] ]
  end.
  { apply keeps_try_catch; try typeclasses eauto.
    - apply keeps_bind; try typeclasses eauto; [apply keeps_read; typeclasses eauto |].
      intros this. destruct (negb _); [apply call_samePage | apply keeps_ret; typeclasses eauto].
    - intros _. apply keeps_ret; typeclasses eauto. }
  { unfold try_catch. destruct (bind (read id) _ c) as [[[] | e] c0]; reflexivity. }
  cbn in Hb, Hp, Hr. subst r.
  unfold bind, read, call, effect, id. cbn.
  rewrite Hb.
  destruct (browser_newPage (browser c) (engine c1)) as [[newPage | thrown] e1] eqn:Hnew.
  - cbn. destruct (page_setViewportSize newPage 1080 1440 e1) as [[[] | thrown] e2] eqn:Hview.
    + cbn. destruct (page_addInitScript newPage e2) as [[[] | thrown] e3] eqn:Hinit; cbn.
      * split; [exact Hb |]. exists (engine c1), e1. exact Hnew.
      * split; [exact Hb |]. split; [exact Hp |].
        exists (engine c1). right. exists newPage, e1. split; [exact Hnew |].
        right. rewrite Hview. cbn. rewrite Hinit. reflexivity.
    + cbn. split; [exact Hb |]. split; [exact Hp |].
      exists (engine c1). right. exists newPage, e1. split; [exact Hnew |].
      left. rewrite Hview. reflexivity.
  - cbn. split; [exact Hb |]. split; [exact Hp |].
    exists (engine c1). left. rewrite Hnew. reflexivity.
Qed.

(** *** The waits of [goto] *)

Definition sleptOf (ev : Event) : option Z :=
  match ev with Slept ms => Some ms | _ => None end.

(** The events of attempt [k]: its probe first, and no wait. *)
Definition quiet (k : Z) (events : list Event) : Prop :=
  omap sleptOf events = [] /\ exists healthy rest, events = Probed k healthy :: rest.

(** The journal of failed attempts numbered from [a], each followed by
    its wait. *)
Fixpoint retried (a : Z) (attempts : list (list Event)) : list Event :=
  match attempts with
  | [] => []
  | events :: later => events ++ Slept (1000 * 2 ^ a) :: retried (a + 1) later
  end.

Section Waits.
Variables (url : string) (spa : bool) (maxRetries : Z).

Lemma attemptNavigation_quiet (a : Z) (c : Crawler) :
  exists events,
    journal (snd (attemptNavigation url spa a c)) = journal c ++ events /\
    quiet a events /\
    (returns (fst (attemptNavigation url spa a c)) = true ->
     events = [Probed a true; Navigating a]).
Proof.
  pose proof (attemptNavigation_journal url spa a c) as Hjournal.
  destruct (attemptNavigation url spa a c) as [r c'].
  destruct Hjournal as [_ [Hj | [Hj ->]]]; eexists; (split; [exact Hj |]).
  - split; [split; [reflexivity | eauto] | reflexivity].
  - split; [split; [reflexivity | eauto] | discriminate].
Qed.

(** The [catch] block of an attempt that is not the last ends in the
    wait, and waits only there. *)
Lemma recover_waits_last (a : Z) (e : Thrown) (c : Crawler) :
  a <> maxRetries ->
  exists before,
    journal (snd (recover url maxRetries a e c)) = journal c ++ before ++ [Slept (1000 * 2 ^ a)] /\
    omap sleptOf before = [].
Proof.
  intros Ha.
  match goal with
  | |- exists before, journal (snd ?run) = _ /\ _ =>
      pattern (snd run);
      match goal with |- ?P _ => set (shape := P) end
  end.
  unfold recover, bind, try_catch, effect, read, ret, throw, sleep, id.
  destruct (Z.eqb_spec a maxRetries) as [Heq | _]; [contradiction |].
  change (needsRecreation (messageOf e) (record _ c))
    with (needsRecreation (messageOf e) c).
  destruct (needsRecreation (messageOf e) c).
  - match goal with
    | |- context [recreatePage ?x] =>
        pose proof (recreatePage_sameSession x) as (Hb & Hj);
        destruct (recreatePage x) as [[[] | recreateError] c1]
    end; subst shape; cbn in Hb, Hj |- *.
    + exists [WarnNavigationFailed (a + 1) (maxRetries + 1) url (messageOf e);
              Recreating a; LogRecreated (a + 1)].
      split; [| reflexivity]. rewrite Hj, <- !app_assoc. reflexivity.
    + exists [WarnNavigationFailed (a + 1) (maxRetries + 1) url (messageOf e);
              Recreating a; ErrorFailedToRecreate recreateError].
      split; [| reflexivity]. rewrite Hj, <- !app_assoc. reflexivity.
  - subst shape. cbn.
    exists [WarnNavigationFailed (a + 1) (maxRetries + 1) url (messageOf e)].
    split; [| reflexivity]. rewrite <- !app_assoc. reflexivity.
Qed.

Lemma quiet_app (k : Z) (events more : list Event) :
  quiet k events -> omap sleptOf more = [] -> quiet k (events ++ more).
Proof.
  intros [Hnone (healthy & rest & ->)] Hmore. split.
  - rewrite omap_app, Hnone, Hmore. reflexivity.
  - exists healthy, (rest ++ more). reflexivity.
Qed.

Lemma retried_waits (attempts : list (list Event)) : forall a : Z,
  (forall j events, attempts !! j = Some events -> omap sleptOf events = []) ->
  omap sleptOf (retried a attempts)
  = (fun j : nat => 1000 * 2 ^ (a + Z.of_nat j))%Z <$> seq 0 (length attempts).
Proof.
  induction attempts as [| events later IH]; intros a Hquiet; [reflexivity |].
  cbn [retried length]. rewrite omap_app, (Hquiet 0%nat events eq_refl).
  cbn [app seq fmap list_fmap]. rewrite Z.add_0_r.
  change (omap sleptOf (Slept (1000 * 2 ^ a) :: retried (a + 1) later))
    with ((1000 * 2 ^ a)%Z :: omap sleptOf (retried (a + 1) later)).
  f_equal.
  rewrite (IH (a + 1)%Z) by (intros j ev Hj; apply (Hquiet (S j) ev Hj)).
  rewrite <- fmap_S_seq, <- list_fmap_compose. apply list_fmap_ext.
  intros _ j _. cbn. f_equal. f_equal. lia.
Qed.

Lemma goto_loop_waits (remaining : nat) : forall (a : Z) (c : Crawler),
  (a + Z.of_nat (S remaining) = maxRetries + 1)%Z ->
  let run := goto_loop url spa maxRetries (S remaining) a c in
  exists (attempts : list (list Event)) (last : list Event),
    (length attempts <= remaining)%nat /\
    (forall j, (j < length attempts)%nat ->
       raises (fst (navigationFrom url spa maxRetries a j c)) = true) /\
    (returns (fst run) = true ->
     returns (fst (navigationFrom url spa maxRetries a (length attempts) c)) = true) /\
    (raises (fst run) = true ->
     length attempts = remaining /\
     raises (fst (navigationFrom url spa maxRetries a (length attempts) c)) = true) /\
    journal (snd run) = journal c ++ retried a attempts ++ last /\
    (forall j events, attempts !! j = Some events -> quiet (a + Z.of_nat j) events) /\
    quiet (a + Z.of_nat (length attempts)) last.
Proof.
  induction remaining as [| remaining IH]; intros a c Ha run; subst run.
  - destruct (attemptNavigation_quiet a c) as (first & Hfirst & Hquiet & _).
    destruct (attemptNavigation url spa a c) as [[v | e] c1] eqn:Htry.
    + rewrite (goto_loop_returns _ _ _ _ _ _ _ _ Htry).
      exists [], first. cbn [length retried app].
      split; [lia |]. split; [intros j Hj; lia |].
      split; [intros _; cbn; rewrite Htry; reflexivity |].
      split; [intros Hr; discriminate Hr |].
      split; [exact Hfirst |].
      split; [intros j events Hj; discriminate Hj |].
      rewrite Z.add_0_r. exact Hquiet.
    + replace a with maxRetries in * by lia.
      rewrite (goto_loop_last _ _ _ _ _ _ _ Htry), recover_terminal.
      exists [], (first ++ [WarnNavigationFailed (maxRetries + 1) (maxRetries + 1) url
                             (messageOf e)]).
      cbn [length retried app].
      split; [lia |]. split; [intros j Hj; lia |]. split; [intros Hr; discriminate Hr |].
      split; [intros _; split; [reflexivity | cbn; rewrite Htry; reflexivity] |].
      split; [cbn in Hfirst |- *; rewrite Hfirst, app_assoc; reflexivity |].
      split; [intros j events Hj; discriminate Hj |].
      rewrite Z.add_0_r. apply quiet_app; [exact Hquiet | reflexivity].
  - destruct (attemptNavigation_quiet a c) as (first & Hfirst & Hquiet & _).
    destruct (attemptNavigation url spa a c) as [[v | e] c1] eqn:Htry.
    + rewrite (goto_loop_returns _ _ _ _ _ _ _ _ Htry).
      exists [], first. cbn [length retried app].
      split; [lia |]. split; [intros j Hj; lia |].
      split; [intros _; cbn; rewrite Htry; reflexivity |].
      split; [intros Hr; discriminate Hr |].
      split; [exact Hfirst |].
      split; [intros j events Hj; discriminate Hj |].
      rewrite Z.add_0_r. exact Hquiet.
    + rewrite (goto_loop_retries _ _ _ _ _ _ _ _ Htry) by lia.
      destruct (recover_waits_last a e c1 ltac:(lia)) as (second & Hsecond & Hnone).
      destruct (IH (a + 1)%Z (snd (recover url maxRetries a e c1)) ltac:(lia))
        as (attempts & last & Hle & Hfail & Hret & Hraise & Hjournal & Hall & Hlast).
      assert (Hshift : forall j,
                navigationFrom url spa maxRetries a (S j) c =
                navigationFrom url spa maxRetries (a + 1) j
                  (snd (recover url maxRetries a e c1))).
      { intros j. rewrite navigationFrom_shift, Htry. reflexivity. }
      exists ((first ++ second) :: attempts), last.
      cbn [length retried].
      split; [lia |]. split.
      { intros [| j] Hj; [cbn; rewrite Htry; reflexivity |].
        rewrite Hshift. apply Hfail. lia. }
      split; [intros Hr; rewrite Hshift; apply Hret, Hr |].
      split.
      { intros Hr. destruct (Hraise Hr) as [Hlen Hm].
        split; [lia | rewrite Hshift; exact Hm]. }
      split.
      { cbn [snd] in Hfirst. rewrite Hjournal, Hsecond, Hfirst, <- !app_assoc.
        reflexivity. }
      split.
      { intros [| j] events Hj.
        - injection Hj as <-. rewrite Z.add_0_r. apply quiet_app; assumption.
        - replace (a + Z.of_nat (S j))%Z with (a + 1 + Z.of_nat j)%Z by lia.
          apply Hall. exact Hj. }
      replace (a + Z.of_nat (S (length attempts)))%Z
        with (a + 1 + Z.of_nat (length attempts))%Z by lia.
      exact Hlast.
Qed.
End Waits.

(** X8. With [maxRetries >= 0], the journal of [goto] is that of its
    attempts in their order, attempt [j] beginning with its probe.  An
    attempt that fails and is not the last allowed is followed by
    exactly one wait, of [1000 * 2^j] milliseconds, the last thing
    before the probe of the next attempt; within an attempt, and after
    the attempt that ends [goto], there is none.  So a [goto] that ends
    at attempt [m] has waited [m] times, for 1000, 2000, 4000, ..
    milliseconds in this order; when it throws, [m] is [maxRetries]. *)
Theorem goto_waits_double (url : string) (spa : bool) (maxRetries : Z) (c : Crawler) :
  (0 <= maxRetries)%Z ->
  let run := goto url spa maxRetries c in
  exists (attempts : list (list Event)) (last : list Event),
    let m := length attempts in
    (Z.of_nat m <= maxRetries)%Z /\
    (forall j, (j < m)%nat -> raises (fst (navigationNo url spa maxRetries j c)) = true) /\
    (returns (fst run) = true -> returns (fst (navigationNo url spa maxRetries m c)) = true) /\
    (raises (fst run) = true ->
     Z.of_nat m = maxRetries /\ raises (fst (navigationNo url spa maxRetries m c)) = true) /\
    journal (snd run) = journal c ++ retried 0 attempts ++ last /\
    (forall j events, attempts !! j = Some events -> quiet (Z.of_nat j) events) /\
    quiet (Z.of_nat m) last /\
    omap sleptOf (retried 0 attempts ++ last)
    = (fun j : nat => 1000 * 2 ^ Z.of_nat j)%Z <$> seq 0 m.
Proof.
  intros Hm run. subst run. unfold goto, navigationNo.
  replace (Z.to_nat (maxRetries + 1)) with (S (Z.to_nat maxRetries)) by lia.
  destruct (goto_loop_waits (normalizeUrl url) spa maxRetries (Z.to_nat maxRetries) 0 c
              ltac:(lia))
    as (attempts & last & Hle & Hfail & Hret & Hraise & Hjournal & Hall & Hlast).
  exists attempts, last. cbn zeta.
  split; [lia |]. split; [exact Hfail |]. split; [exact Hret |].
  split; [intros Hr; destruct (Hraise Hr); split; [lia | assumption] |].
  split; [exact Hjournal |]. split; [exact Hall |]. split; [exact Hlast |].
  rewrite omap_app. destruct Hlast as [-> _]. rewrite app_nil_r.
  rewrite retried_waits by (intros j events Hj; apply (Hall j events Hj)).
  apply list_fmap_ext. intros _ j _. rewrite Z.add_0_l. reflexivity.
Qed.

(** A URL that does not start with "http" is navigated to as
    "http://" followed by it: [goto] of a URL and of its normal form are
    the same call, and normalising twice changes nothing. *)
Theorem goto_normalizes_url (url : string) (spa : bool) (maxRetries : Z) :
  goto url spa maxRetries = goto (normalizeUrl url) spa maxRetries /\
  normalizeUrl (normalizeUrl url) = normalizeUrl url /\
  startsWith "http" (normalizeUrl url) = true /\
  (startsWith "http" url = false -> normalizeUrl url = "http://" +:+ url).
Proof.
  assert (Hstarts : startsWith "http" (normalizeUrl url) = true).
  { unfold normalizeUrl. destruct (startsWith "http" url) eqn:Hurl; [exact Hurl | reflexivity]. }
  assert (Hidem : normalizeUrl (normalizeUrl url) = normalizeUrl url).
  { unfold normalizeUrl at 1. rewrite Hstarts. reflexivity. }
  split; [unfold goto; rewrite Hidem; reflexivity |].
  split; [exact Hidem |]. split; [exact Hstarts |].
  intros Hurl. unfold normalizeUrl. rewrite Hurl. reflexivity.
Qed.

End WithEngine.

(** Two failures forecast: two waits, of one second after the first
    attempt and of two after the second, none after the third. *)
Lemma goto_waits_double_witness :
  let c := Sim.crawlerOn [("http://example.org", [])]
    {| Sim.document := []; Sim.forecast := [Sim.TimesOut; Sim.TimesOut];
       Sim.more := []; Sim.opened := 1; Sim.closedPages := [];
       Sim.crashedPages := []; Sim.pagesLeft := 3 |} in
  journal (snd (goto "example.org" false 3 c)) =
    [Probed 0 true; Navigating 0;
     WarnNavigationFailed 1 4 "http://example.org" "Timeout 30000ms exceeded"; Slept 1000;
     Probed 1 true; Navigating 1;
     WarnNavigationFailed 2 4 "http://example.org" "Timeout 30000ms exceeded"; Slept 2000;
     Probed 2 true; Navigating 2] /\
  exists (attempts : list (list Event)) (last : list Event),
    journal (snd (goto "example.org" false 3 c)) = journal c ++ retried 0 attempts ++ last /\
    (forall j events, attempts !! j = Some events -> quiet (Z.of_nat j) events) /\
    quiet (Z.of_nat (length attempts)) last /\
    omap sleptOf (retried 0 attempts ++ last)
    = (fun j : nat => 1000 * 2 ^ Z.of_nat j)%Z <$> seq 0 (length attempts).
Proof.
  intros c. split; [vm_compute; reflexivity |].
  destruct (goto_waits_double "example.org" false 3 c ltac:(lia))
    as (attempts & last & _ & _ & _ & _ & Hjournal & Hall & Hlast & Hwaits).
  exists attempts, last. auto.
Defined.

End SessionEdgeFacts.

(** ** crawler.ts: deleteOuterElement on a document tree *)

Module DomFacts.
Import Playwright Text Session Sim ListingFacts.

Lemma nodeAt_nil_none (nodes : list Node) : nodeAt [] nodes = None.
Proof. reflexivity. Qed.

Lemma nodeAt_cons (i : nat) (rest : list nat) (nodes : list Node) :
  rest <> [] ->
  nodeAt (i :: rest) nodes = nodes !! i ≫= fun n => nodeAt rest (children n).
Proof. destruct rest; [congruence | reflexivity]. Qed.

(** The parent of an element of the document is an element of the
    document. *)
Lemma nodeAt_removelast (path : list nat) : forall (nodes : list Node) (node : Node),
  nodeAt path nodes = Some node ->
  removelast path <> [] ->
  exists parent, nodeAt (removelast path) nodes = Some parent.
Proof.
  induction path as [| i rest IH]; intros nodes node Hnode Hparent; [discriminate |].
  destruct rest as [| j rest]; [cbn in Hparent; congruence |].
  rewrite nodeAt_cons in Hnode by discriminate.
  destruct (nodes !! i) as [n |] eqn:Hn; [| discriminate]. cbn [mbind option_bind] in Hnode.
  change (removelast (i :: j :: rest)) with (i :: removelast (j :: rest)).
  destruct (removelast (j :: rest)) as [| k up] eqn:Hup.
  - cbn. rewrite Hn. eauto.
  - rewrite nodeAt_cons by discriminate. rewrite Hn. cbn [mbind option_bind].
    apply (IH (children n) node Hnode). discriminate.
Qed.

Section OnDocument.
Variable site : list (string * list Node).
Variable c : @Crawler (api site).

Lemma with_engine_id : @with_engine (api site) (engine c) c = c.
Proof. destruct c. reflexivity. Qed.

Lemma climb_path (levels : nat) : forall (i : Z) (path : list nat) (node : Node),
  nodeAt path (document (engine c)) = Some node ->
  @climb (api site) levels i path c =
  if decide (levels < length path)%nat
  then (Return (take (length path - levels) path), c)
  else (Throw (Error ("Parent element not found at depth " +:+
                      pretty (i + Z.of_nat (length path))%Z)), c).
Proof.
  induction levels as [| levels IH]; intros i path node Hnode.
  - destruct path as [| j rest]; [discriminate |]. cbn [climb length].
    destruct (decide (0 < S (length rest))%nat); [| lia].
    rewrite Nat.sub_0_r, take_ge by (cbn; lia). reflexivity.
  - cbn [climb]. unfold bind, call. cbn [element_parentElement api].
    unfold parentOf, elementAt. rewrite Hnode, with_engine_id.
    destruct (removelast path) as [| k up] eqn:Hup.
    + assert (Hone : length path = 1%nat).
      { destruct path as [| j [| j' rest]]; [discriminate | reflexivity |].
        change (removelast (j :: j' :: rest)) with (j :: removelast (j' :: rest)) in Hup.
        discriminate. }
      rewrite Hone. destruct (decide (S levels < 1)%nat); [lia |]. reflexivity.
    + destruct (nodeAt_removelast path _ node Hnode) as [parent Hparent];
        [rewrite Hup; discriminate |].
      rewrite Hup in Hparent. rewrite (IH (i + 1)%Z (k :: up) parent Hparent).
      assert (Hlength : length path = S (length (k :: up))).
      { rewrite <- Hup. destruct path as [| j rest]; [discriminate |].
        rewrite List.removelast_firstn_len, length_take. cbn [length]. lia. }
      assert (Htake : forall n, (n <= length (k :: up))%nat -> take n (k :: up) = take n path).
      { intros n Hn. rewrite <- Hup, List.removelast_firstn_len.
        change (firstn ?a ?l) with (take a l). rewrite take_take. f_equal.
        rewrite Hlength. apply Nat.min_l. cbn [Nat.pred]. exact Hn. }
      rewrite Hlength.
      destruct (decide (levels < length (k :: up))%nat);
        destruct (decide (S levels < S (length (k :: up)))%nat); try lia.
      * rewrite Htake by lia. reflexivity.
      * replace (i + 1 + Z.of_nat (length (k :: up)))%Z
          with (i + Z.of_nat (S (length (k :: up))))%Z by lia.
        reflexivity.
Qed.

(** X9. On a document tree, [deleteOuterElement(item, parent)] removes
    the ancestor of [item] that is [parent] levels up, [item] itself for
    [parent <= 0], and nothing else; when [item] has fewer ancestors
    than that it throws, naming the depth at which no parent was found,
    and removes nothing. *)
Theorem deleteOuterElement_removes_ancestor (path : list nat) (node : Node) (parent : Z) :
  nodeAt path (document (engine c)) = Some node ->
  @deleteOuterElement (api site) path parent c =
  if decide (Z.to_nat parent < length path)%nat
  then (Return tt,
        @with_engine (api site)
          (show (removeAt (take (length path - Z.to_nat parent) path) (document (engine c)))
             (engine c)) c)
  else (Throw (Error ("Parent element not found at depth " +:+
                      pretty (Z.of_nat (length path)))), c).
Proof.
  intros Hnode. unfold deleteOuterElement, bind.
  rewrite (climb_path (Z.to_nat parent) 0%Z path node Hnode).
  destruct (decide (Z.to_nat parent < length path)%nat); reflexivity.
Qed.

End OnDocument.

(** A list of two items, the second holding a link: one level up from
    the link removes the second item; three levels up there is no
    element, and nothing is removed. *)
Lemma deleteOuterElement_removes_ancestor_witness :
  let item (id : string) (inside : list Node) := Element "li" id "" "" "" inside in
  let doc := [Element "ul" "list" "" "" ""
                [item "first" []; item "second" [Element "a" "link" "" "" "/x" []]]] in
  let c := crawlerOn [] (show doc blank) in
  @deleteOuterElement (api []) [0; 1; 0]%nat 1 c =
    (Return tt,
     @with_engine (api [])
       (show [Element "ul" "list" "" "" "" [item "first" []]] (engine c)) c) /\
  @deleteOuterElement (api []) [0; 1; 0]%nat 3 c =
    (Throw (Error "Parent element not found at depth 3"), c).
Proof.
  intros item doc c. split.
  - rewrite (deleteOuterElement_removes_ancestor [] c [0; 1; 0]%nat
               (Element "a" "link" "" "" "/x" []) 1 eq_refl).
    reflexivity.
  - rewrite (deleteOuterElement_removes_ancestor [] c [0; 1; 0]%nat
               (Element "a" "link" "" "" "/x" []) 3 eq_refl).
    reflexivity.
Defined.

End DomFacts.

(** ** arbeitsagentur-crawler.ts: what enrichment leaves alone *)

Module BatchFacts.
Import Playwright Text Session Arbeitsagentur JsFacts AsyncFacts RequestFacts SessionFacts
  EnrichmentFacts.

(** The fields of a posting that the listing gave it, and the search it
    came from. *)
Definition sameRow (p q : Posting) : Prop :=
  company_name q = company_name p /\ city q = city p /\
  arbeitsagentur_id q = arbeitsagentur_id p /\ start_date q = start_date p /\
  post_date q = post_date p /\ raw_job_title q = raw_job_title p /\
  from_search_url q = from_search_url p.

#[local] Instance sameRow_refl : Reflexive sameRow.
Proof. intros p. repeat split. Qed.

#[local] Instance sameRow_trans : Transitive sameRow.
Proof.
  intros p q r (? & ? & ? & ? & ? & ? & ?) (? & ? & ? & ? & ? & ? & ?).
  repeat split; congruence.
Qed.

Lemma Forall2_concat {A B} (P : A -> B -> Prop) (ls : list (list A)) (ks : list (list B)) :
  Forall2 (Forall2 P) ls ks -> Forall2 P (concat ls) (concat ks).
Proof.
  induction 1 as [| l k ls ks Hlk _ IH]; cbn; [constructor |].
  apply Forall2_app; assumption.
Qed.

Section Pool.
Context `{Helpers}.

#[local] Existing Instances sameStore_refl sameStore_trans.

(** The objects of the batch are the rows they were. *)
Definition sameRows (w w' : Pool) : Prop := Forall2 sameRow (store w) (store w').

#[local] Instance sameRows_refl : Reflexive sameRows.
Proof. intros w. unfold sameRows. reflexivity. Qed.
#[local] Instance sameRows_trans : Transitive sameRows.
Proof. intros a b c Hab Hbc. unfold sameRows in *. etransitivity; eassumption. Qed.

Lemma sameStore_sameRows {A} (m : Async Pool A) : keeps sameStore m -> keeps sameRows m.
Proof.
  intros Hm w. specialize (Hm w). unfold sameStore in Hm. unfold sameRows. rewrite Hm.
  apply (sameRows_refl w).
Qed.

Lemma assign_sameRows (posting : nat) (update : Posting -> Posting) :
  (forall p, sameRow p (update p)) -> keeps sameRows (assign posting update).
Proof.
  intros Hupdate w. unfold assign, effect, sameRows. cbn.
  apply Forall2_alter_r; [apply (sameRows_refl w) |].
  intros p q _ _ Hpq. etransitivity; [exact Hpq | apply Hupdate].
Qed.

Lemma assignDetails_sameRows (posting : nat) details :
  keeps sameRows (assignDetails posting details).
Proof.
  destruct details as [[[address beschreibung] link] companySize]. unfold assignDetails.
  assert (Hassign : forall update, (forall p, sameRow p (update p)) ->
                    keeps sameRows (assign posting update))
    by (intros; apply assign_sameRows; assumption).
  repeat (apply keeps_bind; try typeclasses eauto;
          [apply Hassign; intros p; repeat split | intros _]).
  destruct beschreibung as [[| ch rest] |];
    repeat first
      [ apply keeps_ret; typeclasses eauto
      | apply Hassign; intros p; repeat split
      | apply keeps_bind; try typeclasses eauto;
        [apply Hassign; intros p; repeat split | intros _] ].
Qed.

Lemma tryExtract_sameRows (crawlerIndex : option nat) (posting : nat) :
  keeps sameRows (tryExtract crawlerIndex posting).
Proof.
  unfold tryExtract, extractDetails. apply keeps_try_catch; try typeclasses eauto.
  - apply keeps_bind; try typeclasses eauto.
    + apply sameStore_sameRows, readDetails_sameStore.
    + intros details. apply assignDetails_sameRows.
  - intros _. apply keeps_ret; typeclasses eauto.
Qed.

Lemma workerLoop_sameRows (crawlerIndex : option nat) (postings : list nat) :
  forall requestCount : Z, keeps sameRows (workerLoop crawlerIndex postings requestCount).
Proof.
  induction postings as [| posting rest IH]; intros requestCount w.
  - apply (sameRows_refl w).
  - destruct (store w !! posting) as [object |] eqn:Hobject.
    + rewrite (workerLoop_cons _ _ _ _ _ _ Hobject).
      pose proof (sameStore_sameRows _
                    (navigateToDetail_sameStore crawlerIndex
                       (detailUrl (arbeitsagentur_id object)) requestCount) w) as Hnav.
      destruct (navigateToDetail _ _ _ _) as [[[] | e] w']; cbn [snd] in Hnav.
      * etransitivity; [exact Hnav |].
        etransitivity; [apply (tryExtract_sameRows crawlerIndex posting w') | apply IH].
      * etransitivity; [exact Hnav | apply IH].
    + cbn [workerLoop]. rewrite Hobject. apply (sameRows_refl w).
Qed.

Lemma allWorkers_sameRows (entries : list (option nat * list nat)) :
  keeps sameRows (allWorkers entries).
Proof.
  induction entries as [| entry rest IH]; cbn [allWorkers].
  - apply keeps_ret; typeclasses eauto.
  - apply keeps_bind; try typeclasses eauto; [apply workerLoop_sameRows | intros _; exact IH].
Qed.

Lemma addCompanyData_sameRows (postings enriched : list Posting) (crawlers : list Crawler) :
  fst (addCompanyData postings crawlers) = Return enriched ->
  Forall2 sameRow postings enriched.
Proof.
  unfold addCompanyData.
  pose proof (allWorkers_sameRows
                (map_to_list (groupedPostings (length crawlers) (length postings)))
                {| companyCrawlers := crawlers; store := postings |}) as Hrows.
  destruct (allWorkers _ _) as [[[] | e] w]; cbn in *; [| discriminate].
  intros [= <-]. exact Hrows.
Qed.

(** *** A pool without crawlers *)

Definition noCrawler : Thrown := Error "Cannot read properties of undefined".

Lemma onCrawler_empty {A} (crawlerIndex : option nat) (method : Async Crawler A) (w : Pool) :
  companyCrawlers w = [] -> onCrawler crawlerIndex method w = (Throw noCrawler, w).
Proof.
  intros Hempty. unfold onCrawler. rewrite Hempty.
  destruct crawlerIndex as [k |]; reflexivity.
Qed.

Lemma navigateToDetail_empty (crawlerIndex : option nat) (url : string) (requestCount : Z)
    (w : Pool) :
  companyCrawlers w = [] ->
  navigateToDetail crawlerIndex url requestCount w = (Throw noCrawler, w).
Proof.
  intros Hempty. unfold navigateToDetail, bind.
  destruct (_ && _).
  - rewrite onCrawler_empty by exact Hempty. reflexivity.
  - cbn [ret]. unfold Request.exponentialBackoff. change (Z.to_nat 2) with 2%nat.
    set (fn := try_catch (onCrawler crawlerIndex (goto url true 2))
                 (fun _ => onCrawler crawlerIndex (goto url false 3))).
    assert (Hfn : fn w = (Throw noCrawler, w)).
    { unfold fn, try_catch. rewrite !onCrawler_empty by exact Hempty. reflexivity. }
    rewrite (backoff_loop_retries _ fn 2 3000 1 0 Undefined w noCrawler w Hfn) by lia.
    cbv beta.
    apply (backoff_loop_last _ fn 2 3000 0 (0 + 1) noCrawler w noCrawler w Hfn). lia.
Qed.

Lemma workerLoop_empty (crawlerIndex : option nat) (postings : list nat) :
  forall (requestCount : Z) (w : Pool),
  companyCrawlers w = [] -> snd (workerLoop crawlerIndex postings requestCount w) = w.
Proof.
  induction postings as [| posting rest IH]; intros requestCount w Hempty; [reflexivity |].
  cbn [workerLoop]. destruct (store w !! posting) as [object |]; [| reflexivity].
  rewrite navigateToDetail_empty by exact Hempty. apply IH, Hempty.
Qed.

Lemma allWorkers_empty (entries : list (option nat * list nat)) (w : Pool) :
  companyCrawlers w = [] -> snd (allWorkers entries w) = w.
Proof.
  intros Hempty. induction entries as [| entry rest IH]; [reflexivity |].
  cbn [allWorkers]. unfold bind, worker.
  pose proof (workerLoop_empty (fst entry) (snd entry) 0 w Hempty) as Hloop.
  destruct (workerLoop (fst entry) (snd entry) 0 w) as [[[] | e] w']; cbn in Hloop; subst w'.
  - exact IH.
  - reflexivity.
Qed.

End Pool.

(** X10. Enrichment assigns to the six enrichment fields only: every
    posting of the batch [addCompanyData] returns is, in the same
    position, the posting it was given as far as company name, city,
    id, dates, job title and search URL go. *)
Theorem addCompanyData_keeps_the_rows `{Helpers} (postings : list Posting)
    (crawlers : list Crawler) :
  exists enriched,
    fst (addCompanyData postings crawlers) = Return enriched /\
    Forall2 sameRow postings enriched.
Proof.
  destruct (addCompanyData_completes postings crawlers) as (enriched & Hreturns & _).
  exists enriched. split; [exact Hreturns |].
  apply (addCompanyData_sameRows postings enriched crawlers Hreturns).
Qed.

(** X11. With no company crawler in the pool, [addCompanyData] still
    returns: every navigation fails on the missing crawler, every
    failure is caught, and the batch comes back exactly as it was
    given. *)
Theorem addCompanyData_without_crawlers `{Helpers} (postings : list Posting) :
  addCompanyData postings [] = (Return postings, []).
Proof.
  destruct (addCompanyData_completes postings []) as (enriched & Hreturns & _).
  unfold addCompanyData in *.
  pose proof (allWorkers_empty
                (map_to_list (groupedPostings (length (@nil Crawler)) (length postings)))
                {| companyCrawlers := []; store := postings |} eq_refl) as Hsame.
  destruct (allWorkers _ _) as [[[] | e] w]; cbn in *; [| discriminate].
  subst w. reflexivity.
Qed.

End BatchFacts.

(** ** arbeitsagentur-crawler.ts: what a run of readPostings delivers *)

Module RunFacts.
Import Playwright Text Session Arbeitsagentur JsFacts AsyncFacts PipelineFacts BatchFacts.

Section Run.
Context `{Helpers} {Sink : Type}.
Variable url : string.
Variable saveCallback : list Posting -> Async Sink unit.

(** Every posting of every closed batch carries the search URL. *)
Definition tagged (s : @Run _ Sink) : Prop :=
  Forall (Forall (fun posting => from_search_url posting = Some url)) (closed s).

(** The rows read since the last cleanup are at most 50. *)
Definition cleanedInTime (s : @Run _ Sink) : Prop :=
  (lastCleanup s <= count s <= lastCleanup s + 50)%nat.

Lemma stepLoop_closed (s s' : @Run _ Sink) :
  stepLoop url s = Some s' ->
  closed s' = closed s \/ closed s' = closed s ++ [set_from_search_url url <$> postings s].
Proof.
  unfold stepLoop. intros Hstep.
  repeat case_match; simplify_eq; cbn; auto.
Qed.

Lemma stepHandOff_loop_state (s s' : @Run _ Sink) (k : nat) :
  stepHandOff saveCallback k s = Some s' ->
  closed s' = closed s /\ count s' = count s /\ lastCleanup s' = lastCleanup s /\
  position s' = position s.
Proof.
  unfold stepHandOff. intros Hstep.
  repeat case_match; simplify_eq; cbn; auto.
Qed.

Lemma stepLoop_tagged (s s' : @Run _ Sink) :
  tagged s -> stepLoop url s = Some s' -> tagged s'.
Proof.
  unfold tagged. intros Hs Hstep.
  destruct (stepLoop_closed s s' Hstep) as [-> | ->]; [exact Hs |].
  apply Forall_app. split; [exact Hs |].
  apply Forall_singleton, Forall_fmap, Forall_forall. intros posting _. reflexivity.
Qed.

Lemma stepLoop_cleanedInTime (s s' : @Run _ Sink) :
  cleanedInTime s -> stepLoop url s = Some s' -> cleanedInTime s'.
Proof.
  unfold cleanedInTime, stepLoop. intros Hs Hstep.
  repeat case_match; simplify_eq; cbn; try lia.
  all: repeat case_bool_decide; lia.
Qed.

Lemma exec_invariants (schedule : list Choice) : forall s : @Run _ Sink,
  tagged s -> cleanedInTime s ->
  tagged (exec url saveCallback schedule s) /\
  cleanedInTime (exec url saveCallback schedule s).
Proof.
  induction schedule as [| c schedule IH]; intros s Htagged Hclean; [split; assumption |].
  cbn. destruct (step url saveCallback c s) as [s' |] eqn:Hstep; [| apply IH; assumption].
  replace (default s (Some s')) with s' by reflexivity.
  destruct c as [| k]; cbn in Hstep.
  - apply IH; [eapply stepLoop_tagged | eapply stepLoop_cleanedInTime]; eassumption.
  - destruct (stepHandOff_loop_state s s' k Hstep) as (Hclosed & Hcount & Hlast & _).
    apply IH; unfold tagged, cleanedInTime; rewrite ?Hclosed, ?Hcount, ?Hlast; assumption.
Qed.

(** What the sink was given so far, batch after batch. *)
Definition delivered (s : @Run _ Sink) : list Posting := concat (snd <$> invocations s).

Lemma delivered_rows (s : @Run _ Sink) :
  Pipelined s ->
  Forall2 sameRow (concat (take (length (invocations s)) (closed s))) (delivered s).
Proof.
  intros Hs. apply Forall2_concat.
  pose proof (invoked_upto s Hs) as Hupto.
  pose proof (one_promise_per_batch s Hs) as Hsame.
  apply Forall2_same_length_lookup_2.
  - rewrite length_take, length_fmap. lia.
  - intros i batch enriched Hbatch Henriched.
    apply lookup_take_Some in Hbatch as [Hbatch Hi].
    rewrite list_lookup_fmap in Henriched.
    destruct (invocations s !! i) as [[k found] |] eqn:Hinvoked; [| discriminate].
    injection Henriched as <-.
    assert (Hk : k = i).
    { pose proof (invoked_in_order s Hs) as Horder.
      apply (f_equal (fun l => l !! i)) in Horder.
      rewrite list_lookup_fmap, Hinvoked, lookup_seq_lt in Horder by exact Hi.
      cbn in Horder. congruence. }
    subst k.
    destruct (invoked_enriched s Hs i i found Hinvoked)
      as (batch' & company & Hbatch' & Hrun).
    rewrite Hbatch in Hbatch'. injection Hbatch' as <-.
    apply (addCompanyData_sameRows batch found company Hrun).
Qed.

End Run.

(** X12. What the sink receives is what was read: at every point of
    every run of [readPostings], the postings given to the sink so far
    are, in order, the rows of the batches closed first, each with its
    listing fields as read and with [from_search_url] set to the URL of
    the search; and when the run has returned [total], the sink has
    received [total] postings, those of all closed batches. *)
Theorem readPostings_delivers_the_rows_read `{Helpers} {Sink : Type} (url : string)
    (saveCallback : list Posting -> Async Sink unit) (schedule : list Choice)
    (job : Crawler) (company : list Crawler) (sink : Sink) :
  let s := readPostings url saveCallback schedule job company sink in
  Forall2 sameRow (concat (take (length (invocations s)) (closed s))) (delivered s) /\
  Forall (fun posting => from_search_url posting = Some url) (delivered s) /\
  (forall total, position s = Finished (Return total) ->
     length (delivered s) = total /\
     Forall2 sameRow (concat (closed s)) (delivered s)).
Proof.
  intros s.
  assert (Hs : Pipelined s) by apply exec_Pipelined, initial_Pipelined.
  assert (Htagged : tagged url s).
  { apply exec_invariants; [apply List.Forall_nil | unfold cleanedInTime; cbn; lia]. }
  pose proof (delivered_rows s Hs) as Hrows.
  split; [exact Hrows |]. split.
  - eapply Forall2_Forall_r; [exact Hrows |].
    apply Forall_concat, Forall_take.
    eapply Forall_impl; [exact Htagged |]. intros batch Hbatch.
    eapply Forall_impl; [exact Hbatch |]. intros posting Hurl enriched Hsame.
    destruct Hsame as (_ & _ & _ & _ & _ & _ & Hsearch). congruence.
  - intros total Hpos.
    destruct (returned s Hs total Hpos) as (Htotal & _ & Hinvoked).
    rewrite Hinvoked, take_ge in Hrows by lia.
    split; [| exact Hrows].
    rewrite <- (Forall2_length _ _ _ Hrows).
    pose proof (batch_handed s Hs) as Hhanded. rewrite Hpos in Hhanded.
    pose proof (rows_counted s Hs) as Hcount. rewrite Hhanded in Hcount. cbn in Hcount.
    lia.
Qed.

(** X13. The periodic cleanup keeps up with the loop: at every point of
    every run, the rows counted since the last cleanup are at most 50,
    and [lastCleanup] never exceeds [count]. *)
Theorem readPostings_cleans_every_fifty `{Helpers} {Sink : Type} (url : string)
    (saveCallback : list Posting -> Async Sink unit) (schedule : list Choice)
    (job : Crawler) (company : list Crawler) (sink : Sink) :
  let s := readPostings url saveCallback schedule job company sink in
  (lastCleanup s <= count s <= lastCleanup s + 50)%nat.
Proof.
  intros s.
  apply (exec_invariants url saveCallback schedule (initial job company sink));
    [apply List.Forall_nil | unfold cleanedInTime; cbn; lia].
Qed.

End RunFacts.

(** ** arbeitsagentur-crawler.ts: a run that cannot start *)

Module StartFacts.
Import Playwright Text Session Arbeitsagentur JsFacts PipelineFacts.

Section Start.
Context `{Helpers} {Sink : Type}.
Variable url : string.
Variable saveCallback : list Posting -> Async Sink unit.

(** A run that has ended and has no hand-off makes no further step. *)
Lemma exec_finished (schedule : list Choice) (s : @Run _ Sink) (result : Completion nat) :
  position s = Finished result -> promises s = [] ->
  exec url saveCallback schedule s = s.
Proof.
  intros Hposition Hpromises. induction schedule as [| c schedule IH]; [reflexivity |].
  cbn. replace (step url saveCallback c s) with (@None (@Run _ Sink)); [exact IH |].
  destruct c as [| k]; cbn.
  - unfold stepLoop. rewrite Hposition. reflexivity.
  - unfold stepHandOff. rewrite Hpromises, lookup_nil. destruct (hasExited s); reflexivity.
Qed.

Lemma exec_first_navigation_fails (schedule : list Choice) (job job' : Crawler)
    (company : list Crawler) (sink : Sink) (e : Thrown) :
  goto url false 3 job = (Throw e, job') ->
  exec url saveCallback schedule (initial job company sink) = initial job company sink \/
  exec url saveCallback schedule (initial job company sink) =
  at_position (Finished (Throw e)) (with_crawlers job' company (initial job company sink)).
Proof.
  intros Hgoto. induction schedule as [| c schedule IH]; [left; reflexivity |].
  cbn. destruct c as [| k]; cbn.
  - unfold stepLoop. cbn [position initial jobCrawler pool]. rewrite Hgoto.
    right. apply (exec_finished schedule _ (Throw e)); reflexivity.
  - exact IH.
Qed.
End Start.

(** X14. When the navigation of the job crawler to the search URL fails
    ([goto] with its four attempts throws), [readPostings] ends with
    what [goto] threw, under every schedule: no row is counted, no
    batch is closed, and the sink is never invoked. *)
Theorem readPostings_needs_the_search_page `{Helpers} {Sink : Type} (url : string)
    (saveCallback : list Posting -> Async Sink unit) (schedule : list Choice)
    (job : Crawler) (company : list Crawler) (sink : Sink) (e : Thrown) :
  fst (goto url false 3 job) = Throw e ->
  let s := readPostings url saveCallback schedule job company sink in
  (position s = Entry \/ position s = Finished (Throw e)) /\
  count s = 0%nat /\ closed s = [] /\ invocations s = [] /\ Arbeitsagentur.sink s = sink.
Proof.
  intros Hgoto s. subst s. unfold readPostings.
  destruct (goto url false 3 job) as [r job'] eqn:Hrun. cbn in Hgoto. subst r.
  destruct (exec_first_navigation_fails url saveCallback schedule job job' company sink e Hrun)
    as [-> | ->]; cbn; auto.
Qed.

(** A site without the search page: the run ends with the error of the
    fourth attempt, the sink untouched. *)
Lemma readPostings_needs_the_search_page_witness :
  let keep (batch : list Posting) : Async (list (list Posting)) unit :=
    effect (fun kept => kept ++ [batch]) in
  let s := @readPostings _ (Sim.helpers []) _ "https://www.arbeitsagentur.de/jobsuche/suche"
             keep (replicate 5 TheLoop) (Sim.crawlerOn [] Sim.blank) [] [] in
  position s =
    Finished (Throw (Error ("Failed to navigate to https://www.arbeitsagentur.de/jobsuche/suche"
                            +:+ " after 4 attempts: net::ERR_NAME_NOT_RESOLVED"))) /\
  invocations s = [] /\ Arbeitsagentur.sink s = [].
Proof.
  intros keep s.
  destruct (@readPostings_needs_the_search_page _ (Sim.helpers []) _
              "https://www.arbeitsagentur.de/jobsuche/suche" keep (replicate 5 TheLoop)
              (Sim.crawlerOn [] Sim.blank) [] []
              (Error ("Failed to navigate to https://www.arbeitsagentur.de/jobsuche/suche"
                      +:+ " after 4 attempts: net::ERR_NAME_NOT_RESOLVED")))
    as (_ & _ & _ & Hinvoked & Hsink); [vm_compute; reflexivity |].
  split; [vm_compute; reflexivity |]. split; [exact Hinvoked | exact Hsink].
Defined.

End StartFacts.

(** ** arbeitsagentur-crawler.ts: a row is read once *)

Module RowFacts.
Import Playwright Text Session Arbeitsagentur Sim ListingFacts.

Lemma elem_of_delete_numbered (rows : list Row) (i k : nat) (r : Row) :
  (k, r) ∈ delete i (numbered 0 rows) -> k <> i /\ rows !! k = Some r.
Proof.
  intros Hin. apply list_elem_of_lookup in Hin as [n Hn].
  destruct (decide (n < i)%nat) as [Hlt | Hge].
  - rewrite list_lookup_delete_lt in Hn by exact Hlt.
    rewrite lookup_numbered in Hn. destruct (rows !! n) as [r' |] eqn:Hr; [| discriminate].
    cbn in Hn. injection Hn as <- <-. split; [lia | exact Hr].
  - rewrite list_lookup_delete_ge in Hn by lia.
    rewrite lookup_numbered in Hn. destruct (rows !! S n) as [r' |] eqn:Hr; [| discriminate].
    cbn in Hn. injection Hn as <- <-. split; [lia | exact Hr].
Qed.

Lemma list_find_delete_numbered_none (rows : list Row) (i : nat) :
  list_find (fun entry => fst entry = i) (delete i (numbered 0 rows)) = None.
Proof.
  apply list_find_None, Forall_forall. intros [k r] Hin Heq. cbn in Heq. subst k.
  apply elem_of_delete_numbered in Hin as [Hne _]. congruence.
Qed.

Lemma list_find_delete_numbered (rows : list Row) (i j : nat) (r : Row) :
  j <> i -> rows !! j = Some r ->
  exists n, list_find (fun entry => fst entry = j) (delete i (numbered 0 rows))
            = Some (n, (j, r)).
Proof.
  intros Hne Hr.
  assert (Hin : (j, r) ∈ delete i (numbered 0 rows)).
  { apply list_elem_of_lookup.
    destruct (decide (j < i)%nat) as [Hlt | Hge].
    - exists j. rewrite list_lookup_delete_lt by exact Hlt. rewrite lookup_numbered, Hr. reflexivity.
    - exists (j - 1)%nat. rewrite list_lookup_delete_ge by lia.
      replace (S (j - 1)) with j by lia. rewrite lookup_numbered, Hr. reflexivity. }
  destruct (list_find_elem_of (fun entry => fst entry = j) _ (j, r) Hin eq_refl)
    as [[n [k r']] Hfound].
  exists n. rewrite Hfound. apply list_find_Some in Hfound as (Hn & Hk & _).
  cbn in Hk. subst k. apply list_elem_of_lookup_2 in Hn.
  apply elem_of_delete_numbered in Hn as [_ Hr']. congruence.
Qed.

(** X15. On a listing page with the rows 0 .. N-1, reading a row
    consumes it, whether the reading returns the posting or throws on
    the date of the row: reading the same index again from the page it
    left returns absent and changes nothing, and every other row still
    reads as its own posting, or throws on its own date. *)
Theorem readArbeitsagenturPosting_consumes_the_row (site : list (string * list Node))
    (helpers : @Helpers (api site)) (rows : list Row) (c : @Crawler (api site))
    (i : nat) (r : Row) :
  alive (page c) (engine c) = true ->
  document (engine c) = listing (numbered 0 rows) ->
  rows !! i = Some r ->
  exists c' : @Crawler (api site),
    document (engine c') = listing (delete i (numbered 0 rows)) /\
    match postDateOf r with
    | Return _ => exists posting, readArbeitsagenturPosting i c = (Return (Some posting), c')
    | Throw e => readArbeitsagenturPosting i c = (Throw e, c')
    end /\
    readArbeitsagenturPosting i c' = (Return None, c') /\
    forall j r', j <> i -> rows !! j = Some r' ->
      match postDateOf r' with
      | Return date =>
          exists posting' c'',
            readArbeitsagenturPosting j c' = (Return (Some posting'), c'') /\
            company_name posting'
            = trim (removeFirst ("Arbeitgeber:" +:+ newline) (firma r')) /\
            arbeitsagentur_id posting' = lastField "/" (link r') /\
            post_date posting' = date
      | Throw e => exists c'', readArbeitsagenturPosting j c' = (Throw e, c'')
      end.
Proof.
  intros Halive Hdoc Hr.
  set (c' := without site c (numbered 0 rows) i).
  assert (Halive' : alive (page c') (engine c') = true) by exact Halive.
  assert (Hdoc' : document (engine c') = listing (delete i (numbered 0 rows))) by reflexivity.
  exists c'. split; [exact Hdoc' |]. split; [| split].
  - rewrite (readArbeitsagenturPosting_present site c Halive _ Hdoc i i r)
      by (apply list_find_numbered, Hr).
    fold c'. pose proof (makePosting_row r c') as Hmade.
    destruct (postDateOf r) as [date | e].
    + destruct Hmade as (posting & -> & _). exists posting. reflexivity.
    + rewrite Hmade. reflexivity.
  - apply (readArbeitsagenturPosting_absent site c' Halive' _ Hdoc').
    apply list_find_delete_numbered_none.
  - intros j r' Hne Hr'.
    destruct (list_find_delete_numbered rows i j r' Hne Hr') as [n Hfound].
    rewrite (readArbeitsagenturPosting_present site c' Halive' _ Hdoc' j n r' Hfound).
    pose proof (makePosting_row r' (without site c' (delete i (numbered 0 rows)) n)) as Hmade.
    destruct (postDateOf r') as [date | e].
    + destruct Hmade as (posting' & -> & Hname & Hid & Hdate).
      eexists _, _. split; [reflexivity |]. repeat split; assumption.
    + rewrite Hmade. eexists. reflexivity.
Qed.

(** Two rows, the first with a date that is none: reading it throws,
    after which row 0 is absent and row 1 reads as its posting. *)
Lemma readArbeitsagenturPosting_consumes_the_row_witness :
  let row (employer id date : string) :=
    {| firma := "Arbeitgeber:" +:+ newline +:+ employer; beruf := "Koch";
       arbeitsort := "Berlin"; eintrittsdatum := "ab sofort";
       veroeffentlicht := "Veröffentlichungsdatum: " +:+ date;
       link := "https://www.arbeitsagentur.de/jobsuche/jobdetail/" +:+ id |} in
  let rows := [row "ACME GmbH" "10000-1-S" "heute"; row "Bolle KG" "10000-2-S" "01.02.2024"] in
  let c := crawlerOn [] (show (listing (numbered 0 rows)) blank) in
  exists c',
    @readArbeitsagenturPosting _ (Sim.helpers []) 0 c = (Throw (Error "Invalid time value"), c') /\
    @readArbeitsagenturPosting _ (Sim.helpers []) 0 c' = (Return None, c') /\
    exists posting' c'',
      @readArbeitsagenturPosting _ (Sim.helpers []) 1 c' = (Return (Some posting'), c'') /\
      company_name posting' = "Bolle KG".
Proof.
  intros row rows c.
  destruct (readArbeitsagenturPosting_consumes_the_row [] (Sim.helpers []) rows c 0
              (row "ACME GmbH" "10000-1-S" "heute") eq_refl eq_refl eq_refl)
    as (c' & _ & Hread & Hagain & Hothers).
  exists c'.
  change (@postDateOf [] (Sim.helpers []) (row "ACME GmbH" "10000-1-S" "heute"))
    with (Throw (Error "Invalid time value") : Completion (option string)) in Hread.
  split; [exact Hread |]. split; [exact Hagain |].
  specialize (Hothers 1%nat (row "Bolle KG" "10000-2-S" "01.02.2024") ltac:(lia) eq_refl).
  change (@postDateOf [] (Sim.helpers []) (row "Bolle KG" "10000-2-S" "01.02.2024"))
    with (Return (Some "01.02.2024") : Completion (option string)) in Hothers.
  destruct Hothers as (posting' & c'' & Hnext & Hname & _).
  exists posting', c''. split; [exact Hnext |]. rewrite Hname. vm_compute. reflexivity.
Defined.

End RowFacts.

(** ** Matching: what a match consists of *)

Module RegexFacts.
Import Text Regex.

Fixpoint allChars (member : ascii -> bool) (s : string) : bool :=
  match s with
  | String c rest => member c && allChars member rest
  | EmptyString => true
  end.

Definition noSpace (c : ascii) : bool := negb (isSpace c).

(** The first [n] characters. *)
Fixpoint firstChars (n : nat) (s : string) : string :=
  match n, s with
  | S n', String c rest => String c (firstChars n' rest)
  | _, _ => EmptyString
  end.

Lemma append_nil (t : string) : "" +:+ t = t.
Proof. reflexivity. Qed.

Lemma append_cons (c : ascii) (s t : string) : String c s +:+ t = String c (s +:+ t).
Proof. reflexivity. Qed.

Lemma substring_drop (index length : nat) : forall text : string,
  substring index length text = firstChars length (Text.drop index text).
Proof.
  induction index as [| index IH]; intros text.
  - replace (Text.drop 0 text) with text by (destruct text; reflexivity).
    revert text. induction length as [| length IHl]; intros [| c rest]; cbn;
      try reflexivity. rewrite IHl. reflexivity.
  - destruct text as [| c rest]; cbn; [destruct length; reflexivity | apply IH].
Qed.

Lemma drop_0 (text : string) : Text.drop 0 text = text.
Proof. destruct text; reflexivity. Qed.

Lemma drop_drop (a b : nat) : forall text : string,
  Text.drop b (Text.drop a text) = Text.drop (a + b) text.
Proof.
  induction a as [| a IH]; intros text; [rewrite drop_0; reflexivity |].
  destruct text as [| c rest]; cbn; [destruct b; reflexivity | apply IH].
Qed.

Lemma firstChars_add (a b : nat) : forall text : string,
  firstChars (a + b) text = firstChars a text +:+ firstChars b (Text.drop a text).
Proof.
  induction a as [| a IH]; intros text; [rewrite drop_0; reflexivity |].
  destruct text as [| c rest]; cbn [Nat.add firstChars Text.drop];
    rewrite ?append_nil, ?append_cons; [destruct b; reflexivity |].
  rewrite IH. reflexivity.
Qed.

Lemma length_firstChars (n : nat) : forall text : string,
  (n <= String.length text)%nat -> String.length (firstChars n text) = n.
Proof.
  induction n as [| n IH]; intros [| c rest] Hn; cbn in *; try reflexivity; try lia.
  rewrite IH by lia. reflexivity.
Qed.

Lemma length_drop (n : nat) : forall text : string,
  String.length (Text.drop n text) = (String.length text - n)%nat.
Proof.
  induction n as [| n IH]; intros [| c rest]; cbn; try reflexivity; try lia. apply IH.
Qed.

Lemma length_append (s t : string) :
  String.length (s +:+ t) = (String.length s + String.length t)%nat.
Proof.
  induction s as [| c s IH]; rewrite ?append_nil, ?append_cons; cbn; [reflexivity |].
  f_equal. exact IH.
Qed.

Lemma allChars_append (member : ascii -> bool) (s t : string) :
  allChars member (s +:+ t) = allChars member s && allChars member t.
Proof.
  induction s as [| c s IH]; rewrite ?append_nil, ?append_cons; cbn; [reflexivity |].
  rewrite IH, andb_assoc. reflexivity.
Qed.

Lemma allChars_impl (P Q : ascii -> bool) (s : string) :
  (forall c, P c = true -> Q c = true) -> allChars P s = true -> allChars Q s = true.
Proof.
  intros Himpl. induction s as [| c s IH]; cbn; [reflexivity |].
  intros Hs. apply andb_true_iff in Hs as [Hc Hs].
  rewrite (Himpl c Hc), (IH Hs). reflexivity.
Qed.

Lemma allChars_drop (member : ascii -> bool) (n : nat) : forall s : string,
  allChars member s = true -> allChars member (Text.drop n s) = true.
Proof.
  induction n as [| n IH]; intros [| c rest] Hs; cbn in *; try assumption; try reflexivity.
  apply andb_true_iff in Hs as [_ Hs]. apply IH, Hs.
Qed.

Lemma contains_append_r (c : ascii) (s t : string) :
  contains c t = true -> contains c (s +:+ t) = true.
Proof.
  intros Ht. induction s as [| d s IH]; rewrite ?append_nil, ?append_cons; cbn; [exact Ht |].
  rewrite IH. apply orb_true_r.
Qed.

Lemma contains_append_l (c : ascii) (s t : string) :
  contains c s = true -> contains c (s +:+ t) = true.
Proof.
  induction s as [| d s IH]; rewrite ?append_nil, ?append_cons; cbn; [discriminate |].
  intros Hs. apply orb_true_iff in Hs as [Hd | Hs]; [rewrite Hd; reflexivity |].
  rewrite (IH Hs). apply orb_true_r.
Qed.

Lemma contains_firstChars (c : ascii) (n : nat) : forall s : string,
  contains c (firstChars n s) = true -> contains c s = true.
Proof.
  induction n as [| n IH]; intros [| d s]; cbn; try discriminate.
  intros Hs. apply orb_true_iff in Hs as [Hd | Hs]; [rewrite Hd; reflexivity |].
  rewrite (IH _ Hs). apply orb_true_r.
Qed.

Lemma contains_drop (c : ascii) (n : nat) : forall s : string,
  contains c (Text.drop n s) = true -> contains c s = true.
Proof.
  induction n as [| n IH]; intros [| d s]; cbn; try discriminate; try (intros H; exact H).
  intros Hs. rewrite (IH _ Hs). apply orb_true_r.
Qed.

(** *** The pieces of a match *)

Lemma matchPieces_cons (piece : Piece) (rest : list Piece) (text : string) (n : nat) :
  matchPieces (piece :: rest) text = Some n ->
  exists first m,
    first ∈ candidates piece text /\
    matchPieces rest (Text.drop first text) = Some m /\ n = (first + m)%nat.
Proof.
  cbn [matchPieces]. generalize (candidates piece text) as lengths.
  induction lengths as [| first others IH]; [discriminate |].
  destruct (matchPieces rest (Text.drop first text)) as [m |] eqn:Hrest.
  - intros [= <-]. exists first, m. split; [left | split; [exact Hrest | reflexivity]].
  - intros Hothers. destruct (IH Hothers) as (first' & m & Hin & Hm & Hn).
    exists first', m. split; [right; exact Hin | split; assumption].
Qed.

Lemma candidates_OneOf (alternatives : list string) (text : string) (n : nat) :
  n ∈ candidates (OneOf alternatives) text ->
  exists a, a ∈ alternatives /\ startsWith a text = true /\ n = String.length a.
Proof.
  cbn [candidates]. intros Hn. apply list_elem_of_fmap in Hn as (a & -> & Ha).
  apply list_elem_of_In, List.filter_In in Ha as [Hin Hstarts].
  exists a. split; [apply list_elem_of_In; exact Hin | split; [exact Hstarts | reflexivity]].
Qed.

Lemma candidates_Once (member : ascii -> bool) (text : string) (n : nat) :
  n ∈ candidates (Once (asciiClass member)) text ->
  n = 1%nat /\ exists c rest, text = String c rest /\ member c = true.
Proof.
  cbn [candidates]. unfold asciiClass. destruct text as [| c rest]; [intros Hn; inversion Hn |].
  destruct (member c) eqn:Hc; intros Hn; [| inversion Hn].
  apply list_elem_of_singleton in Hn. split; [exact Hn | eauto].
Qed.

Lemma runs_asciiClass (member : ascii -> bool) (fuel : nat) :
  forall (text : string) (j x : nat),
  runs fuel (asciiClass member) text !! j = Some x ->
  x = S j /\ allChars member (firstChars (S j) text) = true /\
  (S j <= String.length text)%nat.
Proof.
  induction fuel as [| fuel IH]; intros text j x; cbn [runs]; [discriminate |].
  unfold asciiClass at 1. destruct text as [| c rest]; [discriminate |].
  destruct (member c) eqn:Hc; [| discriminate].
  rewrite lookup_cons. destruct j as [| j].
  - intros [= <-]. cbn. rewrite Hc. split; [reflexivity | split; [reflexivity | lia]].
  - change (Text.drop 1 (String c rest)) with (Text.drop 0 rest). rewrite drop_0.
    rewrite list_lookup_fmap.
    destruct (runs fuel (asciiClass member) rest !! j) as [y |] eqn:Hy; [| discriminate].
    intros [= <-]. destruct (IH rest j y Hy) as (-> & Hall & Hlen).
    split; [reflexivity |]. split; [| cbn; lia].
    change (firstChars (S (S j)) (String c rest)) with (String c (firstChars (S j) rest)).
    cbn [allChars]. rewrite Hc, Hall. reflexivity.
Qed.

Lemma candidates_AtLeast (member : ascii -> bool) (min : nat) (text : string) (n : nat) :
  n ∈ candidates (AtLeast min (asciiClass member)) text ->
  (min <= n)%nat /\ allChars member (firstChars n text) = true /\
  (n <= String.length text)%nat.
Proof.
  cbn [candidates]. intros Hn.
  apply list_elem_of_In in Hn. apply (proj2 (in_rev _ _)) in Hn. apply list_elem_of_In in Hn.
  apply list_elem_of_lookup in Hn as [j Hj]. rewrite lookup_drop in Hj.
  destruct (min + j)%nat as [| k] eqn:Hk; cbn [lookup list_lookup] in Hj.
  - injection Hj as <-. split; [lia | split; [destruct text; reflexivity | lia]].
  - destruct (runs_asciiClass member _ text k n Hj) as (-> & Hall & Hlen).
    split; [lia | split; assumption].
Qed.

(** *** The leftmost match *)

Lemma search_found (pieces : list Piece) : forall (text : string) (index length : nat),
  search pieces text = Some (index, length) ->
  matchPieces pieces (Text.drop index text) = Some length /\
  (index <= String.length text)%nat /\
  forall j, (j < index)%nat -> matchPieces pieces (Text.drop j text) = None.
Proof.
  induction text as [| c rest IH]; intros index length; cbn [search].
  - destruct (matchPieces pieces "") as [n |] eqn:Hhere; [| discriminate].
    intros [= <- <-]. split; [exact Hhere |]. split; [lia | intros j Hj; lia].
  - destruct (matchPieces pieces (String c rest)) as [n |] eqn:Hhere.
    + intros [= <- <-]. split; [exact Hhere |]. split; [lia | intros j Hj; lia].
    + destruct (search pieces rest) as [[i n] |]; [| discriminate].
      intros [= <- <-]. destruct (IH i n eq_refl) as (Hmatch & Hlen & Hbefore).
      split; [exact Hmatch |]. split; [cbn; lia |].
      intros [| j] Hj; [exact Hhere | apply Hbefore; lia].
Qed.

Lemma search_none (pieces : list Piece) : forall text : string,
  search pieces text = None -> forall j, matchPieces pieces (Text.drop j text) = None.
Proof.
  induction text as [| c rest IH]; cbn [search].
  - destruct (matchPieces pieces "") eqn:Hhere; [discriminate |].
    intros _ [| j]; exact Hhere.
  - destruct (matchPieces pieces (String c rest)) eqn:Hhere; [discriminate |].
    destruct (search pieces rest) as [[i n] |] eqn:Hrest; [discriminate |].
    intros _ [| j]; [exact Hhere | apply IH; reflexivity].
Qed.

(** A character that starts no white space: ASCII and not a space. *)
Definition plain (c : ascii) : bool := noSpace c && (byte c <? 128)%N.

Lemma whiteSpace_noSpace (c : ascii) (rest : string) :
  whiteSpace (String c rest) = 0%nat -> noSpace c = true.
Proof. unfold whiteSpace, noSpace. destruct (isSpace c); [discriminate | reflexivity]. Qed.

Lemma whiteSpace_plain (c : ascii) (rest : string) :
  plain c = true -> whiteSpace (String c rest) = 0%nat.
Proof.
  unfold plain, noSpace. intros Hc. apply andb_true_iff in Hc as [Hspace Hascii].
  apply negb_true_iff in Hspace. apply N.ltb_lt in Hascii.
  unfold whiteSpace. rewrite Hspace.
  destruct rest as [| d [| e rest]]; [reflexivity | |].
  - destruct (N.eqb_spec (byte c) 194); [lia | reflexivity].
  - repeat (match goal with
            | |- context [(byte c =? ?k)%N] => destruct (N.eqb_spec (byte c) k); [lia |]
            end).
    reflexivity.
Qed.

End RegexFacts.

(** ** misc/email.ts: what an address found looks like *)

Module EmailFacts.
Import Text Regex Email RegexFacts.

(** The characters of a match of [EMAIL_REGEX]. *)
Definition emailChar (c : ascii) : bool := localChar c || among "@" c.

Definition isLowerLetter (c : ascii) : bool :=
  (97 <=? nat_of_ascii c)%nat && (nat_of_ascii c <=? 122)%nat.

(** The characters of an address found: no upper-case letter. *)
Definition addressChar (c : ascii) : bool :=
  isLowerLetter c || isDigit c || among "._%+-@" c.

Lemma emailChar_noSpace (c : ascii) : emailChar c = true -> noSpace c = true.
Proof. destruct c as [[] [] [] [] [] [] [] []]; vm_compute; intros H; congruence. Qed.

Lemma emailChar_lowerCase (c : ascii) : emailChar c = true -> addressChar (lowerCase c) = true.
Proof. destruct c as [[] [] [] [] [] [] [] []]; vm_compute; intros H; congruence. Qed.

Lemma domainChar_emailChar (c : ascii) : domainChar c = true -> emailChar c = true.
Proof. destruct c as [[] [] [] [] [] [] [] []]; vm_compute; intros H; congruence. Qed.

Lemma isLetter_emailChar (c : ascii) : isLetter c = true -> emailChar c = true.
Proof. destruct c as [[] [] [] [] [] [] [] []]; vm_compute; intros H; congruence. Qed.

Lemma localChar_emailChar (c : ascii) : localChar c = true -> emailChar c = true.
Proof. unfold emailChar. intros ->. reflexivity. Qed.

Lemma among_eq (d c : ascii) : among (String d "") c = true -> c = d.
Proof.
  unfold among. cbn. rewrite orb_false_r. intros Heq. apply Ascii.eqb_eq in Heq. exact Heq.
Qed.

Lemma emailChar_plain (c : ascii) : emailChar c = true -> plain c = true.
Proof. destruct c as [[] [] [] [] [] [] [] []]; vm_compute; intros H; congruence. Qed.

Lemma trimStart_plain (s : string) : allChars plain s = true -> trimStart s = s.
Proof.
  destruct s as [| c rest]; [reflexivity |]. cbn [allChars]. intros Hs.
  apply andb_true_iff in Hs as [Hc _].
  unfold trimStart. cbn [String.length trimStart_from].
  rewrite (whiteSpace_plain c rest Hc). reflexivity.
Qed.

Lemma trimEnd_plain (s : string) : allChars plain s = true -> trimEnd s = s.
Proof.
  induction s as [| c rest IH]; [reflexivity |]. intros Hs. cbn [trimEnd].
  unfold isBlank. rewrite (trimStart_plain _ Hs).
  cbn [allChars] in Hs. apply andb_true_iff in Hs as [_ Hrest].
  rewrite (IH Hrest). reflexivity.
Qed.

(** A text of ASCII characters without a space is left as it is. *)
Lemma trim_plain (s : string) : allChars plain s = true -> trim s = s.
Proof.
  intros Hs. unfold trim. rewrite trimStart_plain by exact Hs. apply trimEnd_plain, Hs.
Qed.

Lemma length_toLowerCase (s : string) : String.length (toLowerCase s) = String.length s.
Proof. induction s as [| c s IH]; cbn; [reflexivity | f_equal; exact IH]. Qed.

Lemma allChars_toLowerCase (s : string) :
  allChars emailChar s = true -> allChars addressChar (toLowerCase s) = true.
Proof.
  induction s as [| c s IH]; cbn; [reflexivity |].
  intros Hs. apply andb_true_iff in Hs as [Hc Hs].
  rewrite (emailChar_lowerCase c Hc), (IH Hs). reflexivity.
Qed.

Lemma contains_at_toLowerCase (s : string) :
  contains "@" s = true -> contains "@" (toLowerCase s) = true.
Proof.
  induction s as [| c s IH]; cbn [contains toLowerCase]; [discriminate |].
  intros Hs. apply orb_true_iff in Hs as [Hc | Hs].
  - apply Ascii.eqb_eq in Hc. subst c. reflexivity.
  - rewrite (IH Hs). apply orb_true_r.
Qed.

(** A match: a local part, the "@", a domain, a dot and two letters or
    more. *)
Lemma matchPieces_email (text : string) (n : nat) :
  matchPieces EMAIL_REGEX text = Some n ->
  (6 <= n <= String.length text)%nat /\
  allChars emailChar (firstChars n text) = true /\
  contains "@" (firstChars n text) = true.
Proof.
  unfold EMAIL_REGEX. intros Hmatch.
  apply matchPieces_cons in Hmatch as (n1 & m1 & H1 & Hmatch & ->).
  apply matchPieces_cons in Hmatch as (n2 & m2 & H2 & Hmatch & ->).
  apply matchPieces_cons in Hmatch as (n3 & m3 & H3 & Hmatch & ->).
  apply matchPieces_cons in Hmatch as (n4 & m4 & H4 & Hmatch & ->).
  apply matchPieces_cons in Hmatch as (n5 & m5 & H5 & Hmatch & ->).
  cbn in Hmatch. injection Hmatch as <-.
  apply candidates_AtLeast in H1 as (Hmin1 & Hall1 & Hlen1).
  apply candidates_Once in H2 as (-> & c2 & rest2 & Htext2 & Hc2).
  apply candidates_AtLeast in H3 as (Hmin3 & Hall3 & Hlen3).
  apply candidates_Once in H4 as (-> & c4 & rest4 & Htext4 & Hc4).
  apply candidates_AtLeast in H5 as (Hmin5 & Hall5 & Hlen5).
  assert (Hlen2 : (1 <= String.length (Text.drop n1 text))%nat)
    by (rewrite Htext2; cbn; lia).
  assert (Hlen4 : (1 <= String.length (Text.drop n3 (Text.drop 1 (Text.drop n1 text))))%nat)
    by (rewrite Htext4; cbn; lia).
  rewrite !length_drop in *.
  split; [lia |].
  rewrite !firstChars_add, !allChars_append.
  rewrite Htext2 at 1. rewrite Htext4 at 1. cbn [firstChars allChars].
  rewrite (allChars_impl _ _ _ localChar_emailChar Hall1).
  rewrite (allChars_impl _ _ _ domainChar_emailChar Hall3).
  rewrite (allChars_impl _ _ _ isLetter_emailChar Hall5).
  apply among_eq in Hc2, Hc4. subst c2 c4.
  split; [reflexivity |].
  apply contains_append_r, contains_append_l. rewrite Htext2. reflexivity.
Qed.

(** X16. An address that [findEmailInText] returns is the leftmost match
    of the pattern in the text, in lower case: the pattern matches at no
    earlier position, and the piece returned is all of what it matches
    at that position.  The address has 6 to 255 characters, holds an "@"
    and is made of lower-case letters, digits and the characters
    [._%+-@] only, so without upper-case letters and without white
    space.  Without a text, and for a text without "@", the result is
    [null]. *)
Theorem findEmailInText_found (text : option string) (email : string) :
  findEmailInText text = Some email ->
  exists original index length,
    text = Some original /\
    search EMAIL_REGEX original = Some (index, length) /\
    matchPieces EMAIL_REGEX (Text.drop index original) = Some length /\
    (index + length <= String.length original)%nat /\
    email = toLowerCase (substring index length original) /\
    (forall j, (j < index)%nat -> matchPieces EMAIL_REGEX (Text.drop j original) = None) /\
    (6 <= String.length email < 256)%nat /\
    contains "@" email = true /\
    contains "@" original = true /\
    allChars addressChar email = true.
Proof.
  unfold findEmailInText. destruct text as [[| c rest] |]; try discriminate.
  set (original := String c rest).
  destruct (search EMAIL_REGEX original) as [[index length] |] eqn:Hsearch; [| discriminate].
  destruct (search_found _ _ _ _ Hsearch) as (Hmatch & Hindex & Hleftmost).
  destruct (matchPieces_email _ _ Hmatch) as (Hlength & Hchars & Hat).
  rewrite length_drop in Hlength.
  rewrite substring_drop.
  rewrite (trim_plain (firstChars length (Text.drop index original)))
    by (eapply allChars_impl; [apply emailChar_plain | exact Hchars]).
  rewrite length_toLowerCase, length_firstChars by (rewrite length_drop; lia).
  destruct ((0 <? length)%nat && (length <? 256)%nat) eqn:Hbounds; [| discriminate].
  intros [= <-]. apply andb_true_iff in Hbounds as [_ Hupper]. apply Nat.ltb_lt in Hupper.
  exists original, index, length.
  split; [reflexivity |]. split; [exact Hsearch |]. split; [exact Hmatch |].
  split; [lia |]. split; [rewrite substring_drop; reflexivity |].
  split; [exact Hleftmost |].
  rewrite length_toLowerCase, length_firstChars by (rewrite length_drop; lia).
  split; [lia |]. split; [apply contains_at_toLowerCase, Hat |].
  split; [| apply allChars_toLowerCase, Hchars].
  eapply contains_drop, contains_firstChars, Hat.
Qed.

(** An address in a sentence, with capitals. *)
Lemma findEmailInText_found_witness :
  findEmailInText (Some "Bewerbung an Max.Mustermann@Example.DE senden")
  = Some "max.mustermann@example.de" /\
  exists original index length,
    Some "Bewerbung an Max.Mustermann@Example.DE senden" = Some original /\
    search EMAIL_REGEX original = Some (index, length) /\
    "max.mustermann@example.de" = toLowerCase (substring index length original) /\
    allChars addressChar "max.mustermann@example.de" = true.
Proof.
  split; [vm_compute; reflexivity |].
  destruct (findEmailInText_found (Some "Bewerbung an Max.Mustermann@Example.DE senden")
              "max.mustermann@example.de" ltac:(vm_compute; reflexivity))
    as (original & index & length & Horiginal & Hsearch & _ & _ & Hemail & _ & _ & _ & _ & Hchars).
  exists original, index, length.
  split; [exact Horiginal |]. split; [exact Hsearch |]. split; [exact Hemail | exact Hchars].
Defined.

End EmailFacts.

(** ** misc/phone.ts: what a cleaned number looks like *)

Module PhoneFacts.
Import Text Regex Phone RegexFacts.

Lemma removeSpaces_within_noSpace (fuel : nat) : forall text : string,
  allChars noSpace (removeSpaces_within fuel text) = true.
Proof.
  induction fuel as [| fuel IH]; intros text; cbn [removeSpaces_within]; [reflexivity |].
  destruct (whiteSpace text) eqn:Hspace; [| apply IH].
  destruct text as [| c rest]; [reflexivity |].
  cbn [allChars]. rewrite (whiteSpace_noSpace c rest Hspace). apply IH.
Qed.

(** Removing the white space keeps a prefix of plain characters. *)
Lemma removeSpaces_within_prefix (prefix : string) : forall (fuel : nat) (text : string),
  allChars plain prefix = true -> startsWith prefix text = true ->
  (String.length text <= fuel)%nat ->
  exists tail, removeSpaces_within fuel text = prefix +:+ tail.
Proof.
  induction prefix as [| p prefix IH]; intros fuel text Hplain Hstarts Hfuel.
  - eexists. rewrite append_nil. reflexivity.
  - destruct text as [| c rest]; [discriminate |]. cbn [startsWith] in Hstarts.
    destruct (Ascii.eqb_spec p c) as [<- | _]; [| discriminate].
    cbn [allChars] in Hplain. apply andb_true_iff in Hplain as [Hp Hplain].
    destruct fuel as [| fuel]; [cbn in Hfuel; lia |].
    cbn [removeSpaces_within]. rewrite (whiteSpace_plain p rest Hp).
    destruct (IH fuel rest Hplain Hstarts ltac:(cbn in Hfuel; lia)) as [tail Htail].
    exists tail. rewrite Htail, append_cons. reflexivity.
Qed.

(** The six replacements, in their order. *)
Definition normalize (phoneNumber : string) : string :=
  replacePrefix "0041" "0041"
    (replacePrefix "+41" "0041"
       (replacePrefix "0043" "0043"
          (replacePrefix "+43" "0043"
             (replacePrefix "0049" "0"
                (replacePrefix "+49" "0" phoneNumber))))).

Lemma cleanPhoneNumber_normalize (c : ascii) (rest : string) :
  cleanPhoneNumber (Some (String c rest)) = Some (normalize (removeSpaces (String c rest))).
Proof. reflexivity. Qed.

Lemma replacePrefix_noSpace (old replacement text : string) :
  allChars noSpace replacement = true -> allChars noSpace text = true ->
  allChars noSpace (replacePrefix old replacement text) = true.
Proof.
  intros Hnew Htext. unfold replacePrefix. destruct (startsWith old text); [| exact Htext].
  rewrite allChars_append, Hnew. apply allChars_drop, Htext.
Qed.

Lemma normalize_noSpace (text : string) :
  allChars noSpace text = true -> allChars noSpace (normalize text) = true.
Proof.
  intros Htext. unfold normalize.
  repeat (apply replacePrefix_noSpace; [reflexivity |]). exact Htext.
Qed.

Lemma replacePrefix_zero (old replacement text : string) :
  startsWith "0" replacement = true -> startsWith "0" text = true ->
  startsWith "0" (replacePrefix old replacement text) = true.
Proof.
  intros Hnew Htext. unfold replacePrefix. destruct (startsWith old text); [| exact Htext].
  destruct replacement as [| r replacement]; [discriminate |].
  rewrite append_cons. exact Hnew.
Qed.

(** A number that begins with one of the prefixes of the pattern begins
    with "0" once normalised. *)
Lemma normalize_zero (prefix tail : string) :
  prefix ∈ ["+49"; "0049"; "+43"; "0043"; "+41"; "0041"; "0"] ->
  startsWith "0" (normalize (prefix +:+ tail)) = true.
Proof.
  intros Hprefix. unfold normalize.
  repeat (apply elem_of_cons in Hprefix as [-> | Hprefix]);
    [| | | | | | | inversion Hprefix].
  - change (replacePrefix "+49" "0" ("+49" +:+ tail)) with ("0" +:+ tail).
    repeat (apply replacePrefix_zero; [reflexivity |]). reflexivity.
  - repeat (apply replacePrefix_zero; [reflexivity |]). reflexivity.
  - change (replacePrefix "+49" "0" ("+43" +:+ tail)) with ("+43" +:+ tail).
    change (replacePrefix "0049" "0" ("+43" +:+ tail)) with ("+43" +:+ tail).
    change (replacePrefix "+43" "0043" ("+43" +:+ tail)) with ("0043" +:+ tail).
    repeat (apply replacePrefix_zero; [reflexivity |]). reflexivity.
  - repeat (apply replacePrefix_zero; [reflexivity |]). reflexivity.
  - change (replacePrefix "+49" "0" ("+41" +:+ tail)) with ("+41" +:+ tail).
    change (replacePrefix "0049" "0" ("+41" +:+ tail)) with ("+41" +:+ tail).
    change (replacePrefix "+43" "0043" ("+41" +:+ tail)) with ("+41" +:+ tail).
    change (replacePrefix "0043" "0043" ("+41" +:+ tail)) with ("+41" +:+ tail).
    change (replacePrefix "+41" "0041" ("+41" +:+ tail)) with ("0041" +:+ tail).
    repeat (apply replacePrefix_zero; [reflexivity |]). reflexivity.
  - repeat (apply replacePrefix_zero; [reflexivity |]). reflexivity.
  - repeat (apply replacePrefix_zero; [reflexivity |]). reflexivity.
Qed.

Lemma normalize_never_plus (text : string) :
  startsWith "+49" (normalize text) = false /\
  startsWith "+43" (normalize text) = false /\
  startsWith "+41" (normalize text) = false.
Proof.
  unfold normalize, replacePrefix.
  repeat match goal with
         | |- context [if startsWith ?old ?s then _ else _] =>
             destruct (startsWith old s) eqn:?
         end;
    rewrite ?append_cons, ?append_nil; cbn [startsWith Ascii.eqb Bool.eqb];
    repeat split; try reflexivity; try assumption; congruence.
Qed.

Lemma startsWith_drop (prefix : string) : forall text : string,
  startsWith prefix text = true -> prefix +:+ Text.drop (String.length prefix) text = text.
Proof.
  induction prefix as [| p prefix IH]; intros text Hstarts.
  - rewrite append_nil. apply drop_0.
  - destruct text as [| c rest]; [discriminate |]. cbn [startsWith] in Hstarts.
    destruct (Ascii.eqb_spec p c) as [<- | _]; [| discriminate].
    rewrite append_cons. cbn [String.length Text.drop]. rewrite (IH rest Hstarts). reflexivity.
Qed.

Lemma replacePrefix_same (prefix text : string) : replacePrefix prefix prefix text = text.
Proof.
  unfold replacePrefix. destruct (startsWith prefix text) eqn:Hstarts; [| reflexivity].
  apply startsWith_drop, Hstarts.
Qed.

Lemma replacePrefix_unless (old replacement text : string) :
  startsWith old text = false -> replacePrefix old replacement text = text.
Proof. intros Hstarts. unfold replacePrefix. rewrite Hstarts. reflexivity. Qed.

Lemma normalize_local (text : string) :
  startsWith "+49" text = false -> startsWith "0049" text = false ->
  startsWith "+43" text = false -> startsWith "+41" text = false ->
  normalize text = text.
Proof.
  intros H49 H0049 H43 H41. unfold normalize.
  rewrite (replacePrefix_unless "+49") by exact H49.
  rewrite (replacePrefix_unless "0049") by exact H0049.
  rewrite (replacePrefix_unless "+43") by exact H43.
  rewrite !replacePrefix_same.
  apply replacePrefix_unless, H41.
Qed.

(** X17. [cleanPhoneNumber] returns [null] exactly for no number and for
    the empty one.  A cleaned number holds no space, tab or line break
    and never begins with "+49", "+43" or "+41"; a number that, its
    white space removed, begins with none of "+49", "0049", "+43" and
    "+41" is changed in nothing but its white space. *)
Theorem cleanPhoneNumber_cleaned (phoneNumber : option string) :
  match cleanPhoneNumber phoneNumber with
  | None => phoneNumber = None \/ phoneNumber = Some ""
  | Some cleaned =>
      allChars noSpace cleaned = true /\
      startsWith "+49" cleaned = false /\
      startsWith "+43" cleaned = false /\
      startsWith "+41" cleaned = false /\
      exists given,
        phoneNumber = Some given /\ given <> "" /\
        (startsWith "+49" (removeSpaces given) = false ->
         startsWith "0049" (removeSpaces given) = false ->
         startsWith "+43" (removeSpaces given) = false ->
         startsWith "+41" (removeSpaces given) = false ->
         cleaned = removeSpaces given)
  end.
Proof.
  destruct phoneNumber as [[| c rest] |]; [right; reflexivity | | left; reflexivity].
  rewrite cleanPhoneNumber_normalize.
  split; [apply normalize_noSpace, removeSpaces_within_noSpace |].
  destruct (normalize_never_plus (removeSpaces (String c rest))) as (H49 & H43 & H41).
  split; [exact H49 |]. split; [exact H43 |]. split; [exact H41 |].
  exists (String c rest). split; [reflexivity |]. split; [discriminate |].
  apply normalize_local.
Qed.

(** *** The first number of a text *)

Lemma startsWith_firstChars (prefix : string) : forall (n : nat) (text : string),
  startsWith prefix text = true -> (String.length prefix <= n)%nat ->
  startsWith prefix (firstChars n text) = true.
Proof.
  induction prefix as [| p prefix IH]; intros n text Hstarts Hn; [reflexivity |].
  destruct text as [| c rest]; [discriminate |]. cbn [startsWith] in Hstarts.
  destruct (Ascii.eqb_spec p c) as [<- | _]; [| discriminate].
  destruct n as [| n]; [cbn in Hn; lia |].
  cbn [firstChars startsWith]. rewrite Ascii.eqb_refl.
  apply IH; [exact Hstarts | cbn in Hn; lia].
Qed.

Lemma matchPieces_phone (text : string) (n : nat) :
  matchPieces phoneRegex text = Some n ->
  exists prefix,
    prefix ∈ ["+49"; "0049"; "+43"; "0043"; "+41"; "0041"; "0"] /\
    startsWith prefix (firstChars n text) = true.
Proof.
  unfold phoneRegex. intros Hmatch.
  apply matchPieces_cons in Hmatch as (n1 & m1 & H1 & _ & ->).
  apply candidates_OneOf in H1 as (prefix & Hprefix & Hstarts & ->).
  exists prefix. split; [exact Hprefix |].
  apply startsWith_firstChars; [exact Hstarts | lia].
Qed.

Lemma allChars_plain_prefix (prefix : string) :
  prefix ∈ ["+49"; "0049"; "+43"; "0043"; "+41"; "0041"; "0"] ->
  allChars plain prefix = true /\ prefix <> "".
Proof.
  intros Hprefix.
  repeat (apply elem_of_cons in Hprefix as [-> | Hprefix]);
    [| | | | | | | inversion Hprefix].
  all: split; [vm_compute; reflexivity | discriminate].
Qed.

(** X18. A number that [findPhoneNumberInText] returns is the cleaned
    form of the leftmost match of the pattern in the text: it begins
    with "0", whichever of the prefixes +49, 0049, +43, 0043, +41, 0041
    and 0 the match began with, and holds no space, tab or line break.
    No later match is ever returned. *)
Theorem findPhoneNumberInText_found (text : option string) (phone : string) :
  findPhoneNumberInText text = Some phone ->
  exists original index length,
    text = Some original /\
    search phoneRegex original = Some (index, length) /\
    cleanPhoneNumber (Some (substring index length original)) = Some phone /\
    startsWith "0" phone = true /\
    allChars noSpace phone = true.
Proof.
  unfold findPhoneNumberInText. destruct text as [[| c rest] |]; try discriminate.
  set (original := String c rest). cbn [matchAll].
  destruct (search phoneRegex original) as [[index length] |] eqn:Hsearch; [| discriminate].
  destruct (search_found _ _ _ _ Hsearch) as (Hmatch & _ & _).
  destruct (matchPieces_phone _ _ Hmatch) as (prefix & Hprefix & Hstarts).
  destruct (allChars_plain_prefix prefix Hprefix) as [Hplain Hnonempty].
  rewrite <- substring_drop in Hstarts.
  set (found := substring index length original) in *.
  assert (Hclean : cleanPhoneNumber (Some found) = Some (normalize (removeSpaces found))).
  { destruct found as [| f found']; [| reflexivity].
    destruct prefix; [congruence | discriminate Hstarts]. }
  intros Hresult. cbv zeta in Hresult. cbn [omap list_omap] in Hresult.
  rewrite Hclean in Hresult. cbn [head] in Hresult. injection Hresult as <-.
  exists original, index, length.
  split; [reflexivity |]. split; [exact Hsearch |]. split; [exact Hclean |].
  split; [| apply normalize_noSpace, removeSpaces_within_noSpace].
  destruct (removeSpaces_within_prefix prefix (String.length found) found Hplain Hstarts
              ltac:(lia)) as [tail Htail].
  unfold removeSpaces. rewrite Htail. apply normalize_zero, Hprefix.
Qed.

(** A text with two numbers: the first is returned, without its spaces
    and with 0 for +49. *)
Lemma findPhoneNumberInText_found_witness :
  findPhoneNumberInText (Some "Tel.: +49 30 1234567, mobil 0171/7654321")
  = Some "0301234567" /\
  startsWith "0" "0301234567" = true /\
  exists original index length,
    Some "Tel.: +49 30 1234567, mobil 0171/7654321" = Some original /\
    cleanPhoneNumber (Some (substring index length original)) = Some "0301234567".
Proof.
  split; [vm_compute; reflexivity |].
  destruct (findPhoneNumberInText_found (Some "Tel.: +49 30 1234567, mobil 0171/7654321")
              "0301234567" ltac:(vm_compute; reflexivity))
    as (original & index & length & Horiginal & _ & Hclean & Hzero & _).
  split; [exact Hzero |]. exists original, index, length. split; assumption.
Defined.

End PhoneFacts.

(** ** The contact fields of what the sink receives *)

Module ContactFacts.
Import Playwright Text Session Arbeitsagentur JsFacts AsyncFacts PipelineFacts
  EnrichmentFacts RegexFacts EmailFacts PhoneFacts RunFacts.

(** The helpers of the crawl with the functions of misc/email.ts and
    misc/phone.ts in the places [addCompanyData] calls them. *)
Definition withSourceHelpers `{Api} (helpers : Helpers) : Helpers :=
  {| findEmailInText := fun text => Email.findEmailInText (Some text);
     findPhoneNumberInText := fun text => Phone.findPhoneNumberInText (Some text);
     roundNumber := @roundNumber _ helpers;
     germanDateToISOString := @germanDateToISOString _ helpers;
     intervalTicks := @intervalTicks _ helpers |}.

(** An e-mail address and a phone number as the two functions make
    them, or none. *)
Definition contactOk (posting : Posting) : Prop :=
  match email posting with
  | None => True
  | Some address =>
      allChars addressChar address = true /\ contains "@" address = true /\
      (6 <= String.length address < 256)%nat
  end /\
  match phone posting with
  | None => True
  | Some number => startsWith "0" number = true /\ allChars noSpace number = true
  end.

Lemma unenriched_contactOk (posting : Posting) : unenriched posting -> contactOk posting.
Proof. intros (_ & _ & Hemail & Hphone & _). unfold contactOk. rewrite Hemail, Hphone. auto. Qed.

Section Pool.
Context `{Api} (helpers : Helpers).

#[local] Existing Instances sameStore_refl sameStore_trans.

Local Abbreviation source := (withSourceHelpers helpers).

(** The contacts of the batch are in order if they were. *)
Definition contactsKept (w w' : Pool) : Prop :=
  Forall contactOk (store w) -> Forall contactOk (store w').

#[local] Instance contactsKept_refl : Reflexive contactsKept.
Proof. intros w Hw. exact Hw. Qed.
#[local] Instance contactsKept_trans : Transitive contactsKept.
Proof. intros a b c Hab Hbc Ha. apply Hbc, Hab, Ha. Qed.

Lemma sameStore_contactsKept {A} (m : Async Pool A) :
  keeps sameStore m -> keeps contactsKept m.
Proof. intros Hm w Hw. specialize (Hm w). unfold sameStore in Hm. rewrite Hm. exact Hw. Qed.

Lemma assign_contactsKept (posting : nat) (update : Posting -> Posting) :
  (forall p, contactOk p -> contactOk (update p)) ->
  keeps contactsKept (assign posting update).
Proof.
  intros Hupdate w Hw. unfold assign, effect. cbn.
  apply Forall_alter; [exact Hw |]. intros p _. apply Hupdate.
Qed.

Lemma findEmailInText_wellFormed (text address : string) :
  Email.findEmailInText (Some text) = Some address ->
  allChars addressChar address = true /\ contains "@" address = true /\
  (6 <= String.length address < 256)%nat.
Proof.
  unfold Email.findEmailInText. destruct text as [| c rest]; [discriminate |].
  set (original := String c rest).
  destruct (Regex.search Email.EMAIL_REGEX original) as [[index length] |] eqn:Hsearch;
    [| discriminate].
  destruct (search_found _ _ _ _ Hsearch) as (Hmatch & Hindex & _).
  destruct (matchPieces_email _ _ Hmatch) as (Hlength & Hchars & Hat).
  rewrite length_drop in Hlength.
  rewrite substring_drop.
  rewrite (trim_plain (firstChars length (Text.drop index original)))
    by (eapply allChars_impl; [apply emailChar_plain | exact Hchars]).
  rewrite length_toLowerCase, length_firstChars by (rewrite length_drop; lia).
  destruct ((0 <? length)%nat && (length <? 256)%nat) eqn:Hbounds; [| discriminate].
  intros [= <-]. apply andb_true_iff in Hbounds as [_ Hupper]. apply Nat.ltb_lt in Hupper.
  rewrite length_toLowerCase, length_firstChars by (rewrite length_drop; lia).
  split; [apply allChars_toLowerCase, Hchars |].
  split; [apply contains_at_toLowerCase, Hat | lia].
Qed.

Lemma findPhoneNumberInText_wellFormed (text number : string) :
  Phone.findPhoneNumberInText (Some text) = Some number ->
  startsWith "0" number = true /\ allChars noSpace number = true.
Proof.
  unfold Phone.findPhoneNumberInText. destruct text as [| c rest]; [discriminate |].
  set (original := String c rest). cbn [Regex.matchAll].
  destruct (Regex.search Phone.phoneRegex original) as [[index length] |] eqn:Hsearch;
    [| discriminate].
  destruct (search_found _ _ _ _ Hsearch) as (Hmatch & _ & _).
  destruct (matchPieces_phone _ _ Hmatch) as (prefix & Hprefix & Hstarts).
  destruct (allChars_plain_prefix prefix Hprefix) as [Hplain Hnonempty].
  rewrite <- substring_drop in Hstarts.
  set (found := substring index length original) in *.
  assert (Hclean : Phone.cleanPhoneNumber (Some found)
                   = Some (normalize (Phone.removeSpaces found))).
  { destruct found as [| f found']; [| reflexivity].
    destruct prefix; [congruence | discriminate Hstarts]. }
  intros Hresult. cbv zeta in Hresult. cbn [omap list_omap] in Hresult.
  rewrite Hclean in Hresult. cbn [head] in Hresult. injection Hresult as <-.
  split; [| apply normalize_noSpace, removeSpaces_within_noSpace].
  destruct (removeSpaces_within_prefix prefix (String.length found) found Hplain Hstarts
              ltac:(lia)) as [tail Htail].
  unfold Phone.removeSpaces. rewrite Htail. apply normalize_zero, Hprefix.
Qed.

Lemma set_email_contactOk (text : string) (p : Posting) :
  contactOk p -> contactOk (set_email (Email.findEmailInText (Some text)) p).
Proof.
  intros [_ Hphone]. split; [| exact Hphone].
  change (email (set_email (Email.findEmailInText (Some text)) p))
    with (Email.findEmailInText (Some text)).
  destruct (Email.findEmailInText (Some text)) as [address |] eqn:Hfound; [| exact I].
  apply (findEmailInText_wellFormed text address Hfound).
Qed.

Lemma set_phone_contactOk (text : string) (p : Posting) :
  contactOk p -> contactOk (set_phone (Phone.findPhoneNumberInText (Some text)) p).
Proof.
  intros [Hemail _]. split; [exact Hemail |].
  change (phone (set_phone (Phone.findPhoneNumberInText (Some text)) p))
    with (Phone.findPhoneNumberInText (Some text)).
  destruct (Phone.findPhoneNumberInText (Some text)) as [number |] eqn:Hfound; [| exact I].
  apply (findPhoneNumberInText_wellFormed text number Hfound).
Qed.

Lemma assignDetails_contactsKept (posting : nat) details :
  keeps contactsKept (@assignDetails _ source posting details).
Proof.
  destruct details as [[[address beschreibung] link] companySize]. unfold assignDetails.
  repeat (apply keeps_bind; try typeclasses eauto;
          [apply assign_contactsKept; intros p Hp; exact Hp | intros _]).
  destruct beschreibung as [[| ch rest] |]; try (apply keeps_ret; typeclasses eauto).
  apply keeps_bind; try typeclasses eauto.
  - apply assign_contactsKept. intros p. apply set_email_contactOk.
  - intros _. apply assign_contactsKept. intros p. apply set_phone_contactOk.
Qed.

Lemma tryExtract_contactsKept (crawlerIndex : option nat) (posting : nat) :
  keeps contactsKept (@tryExtract _ source crawlerIndex posting).
Proof.
  unfold tryExtract, extractDetails. apply keeps_try_catch; try typeclasses eauto.
  - apply keeps_bind; try typeclasses eauto.
    + apply sameStore_contactsKept, readDetails_sameStore.
    + intros details. apply assignDetails_contactsKept.
  - intros _. apply keeps_ret; typeclasses eauto.
Qed.

Lemma workerLoop_contactsKept (crawlerIndex : option nat) (postings : list nat) :
  forall requestCount : Z,
  keeps contactsKept (@workerLoop _ source crawlerIndex postings requestCount).
Proof.
  induction postings as [| posting rest IH]; intros requestCount w.
  - apply (contactsKept_refl w).
  - destruct (store w !! posting) as [object |] eqn:Hobject.
    + rewrite (workerLoop_cons (H0 := source) _ _ _ _ _ _ Hobject).
      pose proof (sameStore_contactsKept _
                    (navigateToDetail_sameStore crawlerIndex
                       (detailUrl (arbeitsagentur_id object)) requestCount) w) as Hnav.
      destruct (navigateToDetail _ _ _ _) as [[[] | e] w']; cbn [snd] in Hnav.
      * etransitivity; [exact Hnav |].
        etransitivity; [apply (tryExtract_contactsKept crawlerIndex posting w') | apply IH].
      * etransitivity; [exact Hnav | apply IH].
    + cbn [workerLoop]. rewrite Hobject. apply (contactsKept_refl w).
Qed.

Lemma allWorkers_contactsKept (entries : list (option nat * list nat)) :
  keeps contactsKept (@allWorkers _ source entries).
Proof.
  induction entries as [| entry rest IH]; cbn [allWorkers].
  - apply keeps_ret; typeclasses eauto.
  - apply keeps_bind; try typeclasses eauto;
      [apply workerLoop_contactsKept | intros _; exact IH].
Qed.

Lemma addCompanyData_contactOk (postings enriched : list Posting) (crawlers : list Crawler) :
  fst (@addCompanyData _ source postings crawlers) = Return enriched ->
  Forall contactOk postings -> Forall contactOk enriched.
Proof.
  unfold addCompanyData.
  pose proof (allWorkers_contactsKept
                (map_to_list (groupedPostings (length crawlers) (length postings)))
                {| companyCrawlers := crawlers; store := postings |}) as Hkept.
  destruct (allWorkers _ _) as [[[] | e] w]; cbn in *; [| discriminate].
  intros [= <-]. exact Hkept.
Qed.

(** *** The rows of a run are read unenriched *)

Lemma bind_returns {W A B} (m : Async W A) (k : A -> Async W B) (w w' : W) (b : B) :
  bind m k w = (Return b, w') ->
  exists a w1, m w = (Return a, w1) /\ k a w1 = (Return b, w').
Proof.
  unfold bind. destruct (m w) as [[a | e] w1]; [| discriminate].
  intros Hk. exists a, w1. auto.
Qed.

Lemma readArbeitsagenturPosting_unenriched (i : nat) (c c' : Crawler) (posting : Posting) :
  @readArbeitsagenturPosting _ source i c = (Return (Some posting), c') ->
  unenriched posting.
Proof.
  unfold readArbeitsagenturPosting. intros Hread.
  apply bind_returns in Hread as ([companyName |] & c1 & _ & Hread); [| discriminate].
  do 6 (apply bind_returns in Hread as (? & ? & _ & Hread)).
  apply bind_returns in Hread as (? & ? & _ & Hread).
  apply bind_returns in Hread as (made & c2 & Hmade & Hread).
  injection Hread as <- _.
  eapply (@makePosting_unenriched _ source). exact Hmade.
Qed.

Context {Sink : Type}.
Variable url : string.
Variable saveCallback : list Posting -> Async Sink unit.

(** The rows read and the batches closed are as the listing gave them. *)
Definition fresh (s : @Run _ Sink) : Prop :=
  Forall unenriched (postings s) /\ Forall (Forall unenriched) (closed s).

Lemma set_from_search_url_unenriched (p : Posting) :
  unenriched p -> unenriched (set_from_search_url url p).
Proof. intros Hp. exact Hp. Qed.

Lemma stepLoop_fresh (s s' : @Run _ Sink) :
  fresh s -> @stepLoop _ source _ url s = Some s' -> fresh s'.
Proof.
  unfold fresh, stepLoop. intros [Hpostings Hclosed] Hstep.
  assert (Hbatch : Forall unenriched (set_from_search_url url <$> postings s)).
  { apply Forall_fmap. eapply Forall_impl; [exact Hpostings |].
    intros p. apply set_from_search_url_unenriched. }
  repeat case_match; simplify_eq; cbn; split;
    try assumption; try apply List.Forall_nil; try congruence;
    apply Forall_app; (split; [assumption |]); apply Forall_singleton;
    try (eapply readArbeitsagenturPosting_unenriched; eassumption).
  exact Hbatch.
Qed.

Lemma stepHandOff_fresh (s s' : @Run _ Sink) (k : nat) :
  fresh s -> @stepHandOff _ source _ saveCallback k s = Some s' -> fresh s'.
Proof.
  unfold fresh, stepHandOff. intros Hs Hstep.
  repeat case_match; simplify_eq; cbn; exact Hs.
Qed.

Lemma exec_fresh (schedule : list Choice) : forall s : @Run _ Sink,
  fresh s -> fresh (@exec _ source _ url saveCallback schedule s).
Proof.
  induction schedule as [| c schedule IH]; intros s Hs; [exact Hs |].
  cbn. destruct (step url saveCallback c s) as [s' |] eqn:Hstep; [| apply IH, Hs].
  replace (default s (Some s')) with s' by reflexivity.
  apply IH. destruct c as [| k]; cbn in Hstep.
  - eapply stepLoop_fresh; eassumption.
  - eapply stepHandOff_fresh; eassumption.
Qed.

End Pool.

(** X19. With the functions of misc/email.ts and misc/phone.ts as the
    helpers of the crawl, every posting that the sink receives, at every
    point of every run of [readPostings], has an e-mail address that is
    [null] or a lower-case address with an "@" of 6 to 255 characters,
    and a phone number that is [null] or begins with "0" and holds no
    space, tab or line break. *)
Theorem readPostings_delivers_clean_contacts `{Api} (helpers : Helpers) {Sink : Type}
    (url : string) (saveCallback : list Posting -> Async Sink unit)
    (schedule : list Choice) (job : Crawler) (company : list Crawler) (sink : Sink) :
  let s := @readPostings _ (withSourceHelpers helpers) _ url saveCallback schedule
             job company sink in
  Forall contactOk (delivered s).
Proof.
  intros s.
  assert (Hs : @Pipelined _ (withSourceHelpers helpers) _ s)
    by apply exec_Pipelined, initial_Pipelined.
  assert (Hfresh : fresh s).
  { apply exec_fresh. split; apply List.Forall_nil. }
  unfold delivered. apply Forall_concat, Forall_fmap, Forall_forall.
  intros [k enriched] Hin. cbn.
  apply list_elem_of_lookup in Hin as [j Hj].
  destruct (invoked_enriched (H0 := withSourceHelpers helpers) s Hs j k enriched Hj)
    as (batch & crawlers & Hbatch & Hrun).
  apply (addCompanyData_contactOk helpers batch enriched crawlers Hrun).
  destruct Hfresh as [_ Hclosed].
  eapply Forall_impl; [exact (Forall_lookup_1 _ _ _ _ Hclosed Hbatch) |].
  apply unenriched_contactOk.
Qed.

End ContactFacts.

(** ** The postal code of what the crawl produces *)

Module PostalFieldFacts.
Import Playwright Text PostalCode Session Arbeitsagentur JsFacts AsyncFacts PipelineFacts
  EnrichmentFacts RunFacts PostalCodeFacts PostalMatchFacts.

(** The postal code of the posting is [null], or what
    [getPostalCodeFromAddress] makes of some text: the value of the
    leftmost five consecutive digits in it, from 0 to 99999. *)
Definition postalOk (posting : Posting) : Prop :=
  match postal_code posting with
  | None => True
  | Some code =>
      (0 <= code <= 99999)%Z /\
      exists (text : string) (i : nat) (d : string),
        getPostalCodeFromAddress (Some text) = Some code /\
        leadingDigits 5 (drop i text) = Some d /\
        (forall j, (j < i)%nat -> leadingDigits 5 (drop j text) = None) /\
        code = parseDigits d
  end.

Lemma getPostalCodeFromAddress_value (address : option string) (code : Z) :
  getPostalCodeFromAddress address = Some code ->
  (0 <= code <= 99999)%Z /\
  exists (text : string) (i : nat) (d : string),
    address = Some text /\
    leadingDigits 5 (drop i text) = Some d /\
    (forall j, (j < i)%nat -> leadingDigits 5 (drop j text) = None) /\
    code = parseDigits d.
Proof.
  intros Hcode. split.
  - pose proof (getPostalCodeFromAddress_range address) as Hrange.
    rewrite Hcode in Hrange. exact Hrange.
  - destruct address as [text |]; [| discriminate Hcode].
    unfold getPostalCodeFromAddress in Hcode. cbn in Hcode.
    pose proof (matchFiveDigits_leftmost text) as Hmatch.
    destruct (matchFiveDigits text) as [d |]; [| discriminate Hcode].
    injection Hcode as <-. destruct Hmatch as (i & Hi & Hbefore).
    exists text, i, d. auto.
Qed.

Lemma unenriched_postalOk (posting : Posting) : unenriched posting -> postalOk posting.
Proof. intros (Hpostal & _). unfold postalOk. rewrite Hpostal. exact I. Qed.

Lemma set_postal_code_postalOk (address beschreibung : option string) (p : Posting) :
  postalOk
    (set_postal_code
       match getPostalCodeFromAddress address with
       | Some code => Some code
       | None => getPostalCodeFromAddress beschreibung
       end p).
Proof.
  unfold postalOk. cbn [postal_code set_postal_code].
  assert (Hone : forall text code,
            getPostalCodeFromAddress text = Some code ->
            (0 <= code <= 99999)%Z /\
            exists (text : string) (i : nat) (d : string),
              getPostalCodeFromAddress (Some text) = Some code /\
              leadingDigits 5 (drop i text) = Some d /\
              (forall j, (j < i)%nat -> leadingDigits 5 (drop j text) = None) /\
              code = parseDigits d).
  { intros text code Hcode.
    destruct (getPostalCodeFromAddress_value text code Hcode)
      as (Hrange & found & i & d & -> & Hd & Hbefore & Hvalue).
    split; [exact Hrange |]. exists found, i, d. auto. }
  destruct (getPostalCodeFromAddress address) as [code |] eqn:Haddress.
  - apply (Hone address code Haddress).
  - destruct (getPostalCodeFromAddress beschreibung) as [code |] eqn:Htext; [| exact I].
    apply (Hone beschreibung code Htext).
Qed.

Section Pool.
Context `{Helpers}.

#[local] Existing Instances sameStore_refl sameStore_trans.

(** The postal codes of the batch are in order if they were. *)
Definition postalKept (w w' : Pool) : Prop :=
  Forall postalOk (store w) -> Forall postalOk (store w').

#[local] Instance postalKept_refl : Reflexive postalKept.
Proof. intros w Hw. exact Hw. Qed.
#[local] Instance postalKept_trans : Transitive postalKept.
Proof. intros a b c Hab Hbc Ha. apply Hbc, Hab, Ha. Qed.

Lemma sameStore_postalKept {A} (m : Async Pool A) :
  keeps sameStore m -> keeps postalKept m.
Proof. intros Hm w Hw. specialize (Hm w). unfold sameStore in Hm. rewrite Hm. exact Hw. Qed.

Lemma assign_postalKept (posting : nat) (update : Posting -> Posting) :
  (forall p, postalOk p -> postalOk (update p)) ->
  keeps postalKept (assign posting update).
Proof.
  intros Hupdate w Hw. unfold assign, effect. cbn.
  apply Forall_alter; [exact Hw |]. intros p _. apply Hupdate.
Qed.

Lemma assignDetails_postalKept (posting : nat) details :
  keeps postalKept (assignDetails posting details).
Proof.
  destruct details as [[[address beschreibung] link] companySize]. unfold assignDetails.
  apply keeps_bind; try typeclasses eauto.
  { apply assign_postalKept. intros p _. apply set_postal_code_postalOk. }
  intros _.
  repeat (apply keeps_bind; try typeclasses eauto;
          [apply assign_postalKept; intros p Hp; exact Hp | intros _]).
  destruct beschreibung as [[| ch rest] |]; try (apply keeps_ret; typeclasses eauto).
  apply keeps_bind; try typeclasses eauto.
  - apply assign_postalKept. intros p Hp. exact Hp.
  - intros _. apply assign_postalKept. intros p Hp. exact Hp.
Qed.

Lemma tryExtract_postalKept (crawlerIndex : option nat) (posting : nat) :
  keeps postalKept (tryExtract crawlerIndex posting).
Proof.
  unfold tryExtract, extractDetails. apply keeps_try_catch; try typeclasses eauto.
  - apply keeps_bind; try typeclasses eauto.
    + apply sameStore_postalKept, readDetails_sameStore.
    + intros details. apply assignDetails_postalKept.
  - intros _. apply keeps_ret; typeclasses eauto.
Qed.

Lemma workerLoop_postalKept (crawlerIndex : option nat) (postings : list nat) :
  forall requestCount : Z,
  keeps postalKept (workerLoop crawlerIndex postings requestCount).
Proof.
  induction postings as [| posting rest IH]; intros requestCount w.
  - apply (postalKept_refl w).
  - destruct (store w !! posting) as [object |] eqn:Hobject.
    + rewrite (workerLoop_cons _ _ _ _ _ _ Hobject).
      pose proof (sameStore_postalKept _
                    (navigateToDetail_sameStore crawlerIndex
                       (detailUrl (arbeitsagentur_id object)) requestCount) w) as Hnav.
      destruct (navigateToDetail _ _ _ _) as [[[] | e] w']; cbn [snd] in Hnav.
      * etransitivity; [exact Hnav |].
        etransitivity; [apply (tryExtract_postalKept crawlerIndex posting w') | apply IH].
      * etransitivity; [exact Hnav | apply IH].
    + cbn [workerLoop]. rewrite Hobject. apply (postalKept_refl w).
Qed.

Lemma allWorkers_postalKept (entries : list (option nat * list nat)) :
  keeps postalKept (allWorkers entries).
Proof.
  induction entries as [| entry rest IH]; cbn [allWorkers].
  - apply keeps_ret; typeclasses eauto.
  - apply keeps_bind; try typeclasses eauto;
      [apply workerLoop_postalKept | intros _; exact IH].
Qed.

Lemma addCompanyData_postalOk (postings enriched : list Posting) (crawlers : list Crawler) :
  fst (addCompanyData postings crawlers) = Return enriched ->
  Forall postalOk postings -> Forall postalOk enriched.
Proof.
  unfold addCompanyData.
  pose proof (allWorkers_postalKept
                (map_to_list (groupedPostings (length crawlers) (length postings)))
                {| companyCrawlers := crawlers; store := postings |}) as Hkept.
  destruct (allWorkers _ _) as [[[] | e] w]; cbn in *; [| discriminate].
  intros [= <-]. exact Hkept.
Qed.

(** *** What the loop reads has no postal code yet *)

Lemma readArbeitsagenturPosting_reads_unenriched (i : nat) (c c' : Crawler)
    (posting : Posting) :
  readArbeitsagenturPosting i c = (Return (Some posting), c') -> unenriched posting.
Proof.
  unfold readArbeitsagenturPosting. intros Hread.
  apply ContactFacts.bind_returns in Hread as ([companyName |] & c1 & _ & Hread);
    [| discriminate].
  do 6 (apply ContactFacts.bind_returns in Hread as (? & ? & _ & Hread)).
  apply ContactFacts.bind_returns in Hread as (? & ? & _ & Hread).
  apply ContactFacts.bind_returns in Hread as (made & c2 & Hmade & Hread).
  injection Hread as <- _.
  eapply makePosting_unenriched. exact Hmade.
Qed.

Context {Sink : Type}.
Variable url : string.
Variable saveCallback : list Posting -> Async Sink unit.

(** The rows read and the batches closed are as the listing gave them. *)
Definition asRead (s : @Run _ Sink) : Prop :=
  Forall unenriched (postings s) /\ Forall (Forall unenriched) (closed s).

Lemma stepLoop_asRead (s s' : @Run _ Sink) :
  asRead s -> stepLoop url s = Some s' -> asRead s'.
Proof.
  unfold asRead, stepLoop. intros [Hpostings Hclosed] Hstep.
  assert (Hbatch : Forall unenriched (set_from_search_url url <$> postings s)).
  { apply Forall_fmap. eapply Forall_impl; [exact Hpostings |]. intros p Hp. exact Hp. }
  repeat case_match; simplify_eq; cbn; split;
    try assumption; try apply List.Forall_nil; try congruence;
    apply Forall_app; (split; [assumption |]); apply Forall_singleton;
    try (eapply readArbeitsagenturPosting_reads_unenriched; eassumption).
  exact Hbatch.
Qed.

Lemma stepHandOff_asRead (s s' : @Run _ Sink) (k : nat) :
  asRead s -> stepHandOff saveCallback k s = Some s' -> asRead s'.
Proof.
  unfold asRead, stepHandOff. intros Hs Hstep.
  repeat case_match; simplify_eq; cbn; exact Hs.
Qed.

Lemma exec_asRead (schedule : list Choice) : forall s : @Run _ Sink,
  asRead s -> asRead (exec url saveCallback schedule s).
Proof.
  induction schedule as [| c schedule IH]; intros s Hs; [exact Hs |].
  cbn. destruct (step url saveCallback c s) as [s' |] eqn:Hstep; [| apply IH, Hs].
  replace (default s (Some s')) with s' by reflexivity.
  apply IH. destruct c as [| k]; cbn in Hstep.
  - eapply stepLoop_asRead; eassumption.
  - eapply stepHandOff_asRead; eassumption.
Qed.

End Pool.

(** C8, as the code has it.  Whenever [getPostalCodeFromAddress] does not return
    [null] it returns the value of the leftmost five consecutive digits
    of its text, an integer from 0 to 99999.  Enrichment keeps this of
    the postings of a batch; and every posting that the sink receives,
    at every point of every run of [readPostings], has a postal code
    that is [null] or such a value. *)
Theorem postal_code_is_of_five_digits :
  (forall (address : option string) (code : Z),
     getPostalCodeFromAddress address = Some code ->
     (0 <= code <= 99999)%Z /\
     exists (text : string) (i : nat) (d : string),
       address = Some text /\
       leadingDigits 5 (drop i text) = Some d /\
       (forall j, (j < i)%nat -> leadingDigits 5 (drop j text) = None) /\
       code = parseDigits d) /\
  (forall (engine : Api) (helpers : Helpers) (postings enriched : list Posting)
          (crawlers : list Crawler),
     fst (addCompanyData postings crawlers) = Return enriched ->
     Forall postalOk postings -> Forall postalOk enriched) /\
  (forall (engine : Api) (helpers : Helpers) (Sink : Type) (url : string)
          (saveCallback : list Posting -> Async Sink unit) (schedule : list Choice)
          (job : Crawler) (company : list Crawler) (sink : Sink),
     let s := readPostings url saveCallback schedule job company sink in
     Forall postalOk (delivered s) /\
     Forall (fun posting =>
               match postal_code posting with
               | None => True
               | Some code => (0 <= code <= 99999)%Z
               end) (delivered s)).
Proof.
  split; [exact getPostalCodeFromAddress_value |]. split.
  - intros engine helpers. apply addCompanyData_postalOk.
  - intros engine helpers Sink url saveCallback schedule job company sink s.
    assert (Hok : Forall postalOk (delivered s)).
    { assert (Hs : Pipelined s) by apply exec_Pipelined, initial_Pipelined.
      assert (Hfresh : asRead s).
      { apply exec_asRead. split; apply List.Forall_nil. }
      unfold delivered. apply Forall_concat, Forall_fmap, Forall_forall.
      intros [k enriched] Hin. cbn.
      apply list_elem_of_lookup in Hin as [j Hj].
      destruct (invoked_enriched s Hs j k enriched Hj) as (batch & crawlers & Hbatch & Hrun).
      apply (addCompanyData_postalOk batch enriched crawlers Hrun).
      destruct Hfresh as [_ Hclosed].
      eapply Forall_impl; [exact (Forall_lookup_1 _ _ _ _ Hclosed Hbatch) |].
      apply unenriched_postalOk. }
    split; [exact Hok |].
    eapply Forall_impl; [exact Hok |]. intros posting. unfold postalOk.
    destruct (postal_code posting); [intros [Hrange _]; exact Hrange | auto].
Qed.

End PostalFieldFacts.
